(** * ScholarBridge: the document retrieval core

    A shallow embedding of the chunking package
    ([chunking/semantic_chunker.py], [chunking/metadata_enricher.py]) and of
    the retrieval package ([retrieval/bm25_index.py],
    [retrieval/hybrid_retriever.py], [retrieval/reranker.py]).

    Conventions of the embedding:
    - a Python [str] is a list of characters; characters are code points
      below 256, so [ascii] stands for them;
    - a Python [int] is a [Z]; list positions and lengths are [nat] and are
      injected with [len] where the source compares them with an [int];
    - a Python [float] that is a number is an exact rational [Q]; where the
      code can meet the special values (the ratings of the reranker) a float
      is a [pyfloat], a number, an infinity or NaN; where the rounding of a
      double decides a property (the fused scores of claim C2) every float
      operation is followed by a rounding function;
    - a call that can raise returns [exc]. *)

From Stdlib Require Import ZArith QArith Qminmax Lqa Ascii String DecimalString List Lia.
From Stdlib Require Import DecimalNat Qround Qpower.
From stdpp Require Import base option list gmap strings sorting.

(** ** Exceptions *)

Inductive exn : Type :=
  | ValueError
  | ZeroDivisionError
  | IndexError
  | KeyError
  | CollaboratorError
  | OutOfFuel.

Inductive exc (A : Type) : Type :=
  | Ok (a : A)
  | Raise (e : exn).
Arguments Ok {A} a.
Arguments Raise {A} e.

Definition bind {A B : Type} (c : exc A) (k : A -> exc B) : exc B :=
  match c with
  | Ok a => k a
  | Raise e => Raise e
  end.

Notation "'let*' x ':=' c 'in' k" := (bind c (fun x => k))
  (at level 10, x name, c at level 100, k at level 200).

(** [try: c except Exception: h]. *)
Definition try_except {A} (c : exc A) (h : exn -> exc A) : exc A :=
  match c with
  | Ok a => Ok a
  | Raise e => h e
  end.

(** ** Python strings *)

Module Py.

Abbreviation str := (list ascii).

(** String literals of the source. *)
Definition py (s : string) : str := list_ascii_of_string s.

(** The line feed, written ["\n"] in the source. *)
Definition nl : str := ["010"%char].

Definition len {A} (l : list A) : Z := Z.of_nat (length l).

(** Truth value of a string: non-empty. *)
Definition truthy {A} (l : list A) : bool :=
  match l with
  | [] => false
  | _ :: _ => true
  end.

Definition code (c : ascii) : nat := nat_of_ascii c.

Definition between (lo hi : nat) (c : ascii) : bool :=
  ((lo <=? code c) && (code c <=? hi))%nat.

(** [str.isspace] on one character: tab to carriage return, the four
    separators 28..31, space, NEL and the no-break space. *)
Definition isspace (c : ascii) : bool :=
  between 9 13 c || between 28 32 c || (code c =? 133)%nat || (code c =? 160)%nat.

(** Decimal digits [0-9], the [\d] class on this range of characters. *)
Definition isdecimal (c : ascii) : bool := between 48 57 c.

(** [str.isdigit] on one character: the decimal digits and the superscripts
    two, three and one. *)
Definition isdigit_char (c : ascii) : bool :=
  isdecimal c || (code c =? 178)%nat || (code c =? 179)%nat || (code c =? 185)%nat.

Definition isupper_char (c : ascii) : bool :=
  between 65 90 c || (between 192 222 c && negb (code c =? 215)%nat).

Definition islower_char (c : ascii) : bool :=
  between 97 122 c || (between 223 255 c && negb (code c =? 247)%nat)
  || (code c =? 170)%nat || (code c =? 181)%nat || (code c =? 186)%nat.

(** The [\w] class: letters, numeric characters and the underscore. *)
Definition isword (c : ascii) : bool :=
  isupper_char c || islower_char c || isdigit_char c
  || between 188 190 c || (code c =? 95)%nat.

Definition lower_char (c : ascii) : ascii :=
  if isupper_char c then ascii_of_nat (code c + 32) else c.

Definition lower (s : str) : str := map lower_char s.

Fixpoint lstrip (s : str) : str :=
  match s with
  | [] => []
  | c :: s' => if isspace c then lstrip s' else s
  end.

Definition rstrip (s : str) : str := rev (lstrip (rev s)).

Definition strip (s : str) : str := rstrip (lstrip s).

Fixpoint startswith (s p : str) : bool :=
  match p, s with
  | [], _ => true
  | _ :: _, [] => false
  | c :: p', d :: s' => Ascii.eqb c d && startswith s' p'
  end.

Global Arguments startswith s p : simpl nomatch.

(** [t in s]: [t] occurs in [s] as a substring. *)
Fixpoint contains (s t : str) : bool :=
  startswith s t ||
  match s with
  | [] => false
  | _ :: s' => contains s' t
  end.

(** [s.split(sep)] for a non-empty separator (every separator of the source
    is a non-empty literal). [split_go sep skip s] returns the parts of [s]
    once the next [skip] characters, the rest of a separator just found, are
    dropped; the head of the result is the part being read. *)
Fixpoint split_go (sep : str) (skip : nat) (s : str) : list str :=
  match s with
  | [] => [[]]
  | c :: s' =>
      match skip with
      | S k => split_go sep k s'
      | O =>
          if startswith s sep then [] :: split_go sep (length sep - 1) s'
          else
            match split_go sep 0 s' with
            | p :: ps => (c :: p) :: ps
            | [] => [[c]]
            end
      end
  end.

Definition split (s sep : str) : list str := split_go sep 0 s.

(** [s.split()]: the maximal runs of non-space characters. *)
Fixpoint words_go (cur : str) (s : str) : list str :=
  match s with
  | [] => if truthy cur then [rev cur] else []
  | c :: s' =>
      if isspace c
      then (if truthy cur then [rev cur] else []) ++ words_go [] s'
      else words_go (c :: cur) s'
  end.

Definition words (s : str) : list str := words_go [] s.

(** [s.replace(a, b)] for single characters. *)
Definition replace_char (a b : ascii) (s : str) : str :=
  map (fun c => if Ascii.eqb c a then b else c) s.

(** [s[a:b]] for non-negative positions. *)
Definition slice (s : str) (a b : nat) : str := take (b - a) (drop a s).

(** [s[i:]] for any integer [i]: a negative [i] counts from the end. *)
Definition slice_from (s : str) (i : Z) : str :=
  if (i <? 0)%Z then drop (Z.to_nat (len s + i)) s else drop (Z.to_nat i) s.

(** [l[:k]] for any integer [k]. *)
Definition slice_to {A} (l : list A) (k : Z) : list A :=
  if (k <? 0)%Z then take (Z.to_nat (len l + k)) l else take (Z.to_nat k) l.

(** [str(n)] for a natural number. *)
Definition str_of_nat (n : nat) : str :=
  py (NilZero.string_of_uint (Nat.to_uint n)).

(** [int(s)] for a string of decimal digits. *)
Definition int_of_digits (s : str) : Z :=
  fold_left (fun acc c => (10 * acc + Z.of_nat (code c - 48))%Z) s 0%Z.

End Py.
Import Py.


(** ** Regular expressions

    The patterns of the source are written in this syntax and run by a
    backtracking matcher with the priorities of Python's [re]: the left
    alternative first, the longest repetition first. *)

Module Re.

Inductive regex : Type :=
  | Eps
  | Chr (p : ascii -> bool)
  | Seq (r1 r2 : regex)
  | Alt (r1 r2 : regex)
  | Star (r : regex)
  | Group (r : regex)
  | Bol
  | Eol
  | WordB.

(** A position in the subject: the character before it, the text from it
    on, and what the capturing group holds. *)
Record pos : Type := Pos { before : option ascii; rest : str; group1 : option str }.

Definition is_nl (c : ascii) : bool := Ascii.eqb c "010"%char.

Fixpoint run (r : regex) (s : pos) (k : pos -> option pos) : option pos :=
  match r with
  | Eps => k s
  | Chr p =>
      match rest s with
      | c :: t => if p c then k (Pos (Some c) t (group1 s)) else None
      | [] => None
      end
  | Seq r1 r2 => run r1 s (fun s1 => run r2 s1 k)
  | Alt r1 r2 =>
      match run r1 s k with
      | Some m => Some m
      | None => run r2 s k
      end
  | Star r' =>
      (fix loop (n : nat) (s : pos) : option pos :=
         match n with
         | O => k s
         | S n' =>
             match run r' s (fun s1 =>
                     if (length (rest s1) <? length (rest s))%nat
                     then loop n' s1 else None) with
             | Some m => Some m
             | None => k s
             end
         end) (length (rest s)) s
  | Group r' =>
      run r' s (fun s1 =>
        k (Pos (before s1) (rest s1)
               (Some (take (length (rest s) - length (rest s1)) (rest s)))))
  | Bol =>
      match before s with
      | None => k s
      | Some c => if is_nl c then k s else None
      end
  | Eol =>
      match rest s with
      | [] => k s
      | c :: _ => if is_nl c then k s else None
      end
  | WordB =>
      let a := match before s with Some c => isword c | None => false end in
      let b := match rest s with c :: _ => isword c | [] => false end in
      if xorb a b then k s else None
  end.

(** [pattern.match(s)]: a match at the start of [s]. *)
Definition re_match (r : regex) (s : str) : option pos :=
  run r (Pos None s None) Some.

(** [pattern.search(s)]: the leftmost match. *)
Fixpoint search_go (r : regex) (b : option ascii) (s : str) : option pos :=
  match run r (Pos b s None) Some with
  | Some m => Some m
  | None =>
      match s with
      | [] => None
      | c :: s' => search_go r (Some c) s'
      end
  end.

Definition re_search (r : regex) (s : str) : option pos := search_go r None s.

(** [pattern.findall(s)] for a pattern without groups: the matched texts,
    left to right, without overlap. *)
Fixpoint findall_go (r : regex) (skip : nat) (b : option ascii) (s : str)
    {struct s} : list str :=
  match skip, s with
  | S k, c :: s' => findall_go r k (Some c) s'
  | S _, [] => []
  | O, _ =>
      match run r (Pos b s None) Some with
      | Some m =>
          let w := take (length s - length (rest m)) s in
          w :: match s with
               | [] => []
               | c :: s' => findall_go r (length w - 1) (Some c) s'
               end
      | None =>
          match s with
          | [] => []
          | c :: s' => findall_go r 0 (Some c) s'
          end
      end
  end.

Definition re_findall (r : regex) (s : str) : list str := findall_go r 0 None s.

(** Pattern syntax. Every pattern of the source is compiled with
    [re.IGNORECASE], so a literal character matches either case. *)
Definition ci (c : ascii) : regex := Chr (fun d => Ascii.eqb (lower_char d) c).

Fixpoint lit (s : str) : regex :=
  match s with
  | [] => Eps
  | [c] => ci c
  | c :: s' => Seq (ci c) (lit s')
  end.

Definition Opt (r : regex) : regex := Alt r Eps.
Definition Plus (r : regex) : regex := Seq r (Star r).
Definition space : regex := Chr isspace.
Definition spaces : regex := Star space.

Fixpoint seqs (rs : list regex) : regex :=
  match rs with
  | [] => Eps
  | [r] => r
  | r :: rs' => Seq r (seqs rs')
  end.

End Re.
Import Re.

(** ** The chunker ([chunking/__init__.py], [chunking/semantic_chunker.py]) *)

Module Chunking.

Record ChunkMetadata : Type := {
  source : str;
  page : Z;
  section : str;
  chunk_index : nat;
  parent_chunk_id : option str;
  overlap_with_prev : Z;
  overlap_with_next : Z;
  semantic_tags : list str
}.

Record Chunk : Type := {
  id : str;
  text : str;
  metadata : ChunkMetadata
}.

(** [SECTION_PATTERNS], in the order of the dictionary. *)
Definition SECTION_PATTERNS : list (str * regex) :=
  [ (py "abstract",
      (* ^abstract\s*$|^summary\s*$ *)
      Alt (seqs [Bol; lit (py "abstract"); spaces; Eol])
          (seqs [Bol; lit (py "summary"); spaces; Eol]));
    (py "introduction",
      (* ^1\.?\s*introduction|^introduction\s*$ *)
      Alt (seqs [Bol; lit (py "1"); Opt (lit (py ".")); spaces; lit (py "introduction")])
          (seqs [Bol; lit (py "introduction"); spaces; Eol]));
    (py "methods",
      (* ^2\.?\s*method|^materials?\s+and\s+methods?|^methodology *)
      Alt (seqs [Bol; lit (py "2"); Opt (lit (py ".")); spaces; lit (py "method")])
     (Alt (seqs [Bol; lit (py "material"); Opt (lit (py "s")); Plus space;
                 lit (py "and"); Plus space; lit (py "method"); Opt (lit (py "s"))])
          (seqs [Bol; lit (py "methodology")])));
    (py "results",
      (* ^3\.?\s*results?|^findings *)
      Alt (seqs [Bol; lit (py "3"); Opt (lit (py ".")); spaces; lit (py "result");
                 Opt (lit (py "s"))])
          (seqs [Bol; lit (py "findings")]));
    (py "discussion",
      (* ^4\.?\s*discussion|^analysis *)
      Alt (seqs [Bol; lit (py "4"); Opt (lit (py ".")); spaces; lit (py "discussion")])
          (seqs [Bol; lit (py "analysis")]));
    (py "conclusion",
      (* ^5\.?\s*conclusion|^concluding *)
      Alt (seqs [Bol; lit (py "5"); Opt (lit (py ".")); spaces; lit (py "conclusion")])
          (seqs [Bol; lit (py "concluding")]));
    (py "references",
      (* ^references?\s*$|^bibliography *)
      Alt (seqs [Bol; lit (py "reference"); Opt (lit (py "s")); spaces; Eol])
          (seqs [Bol; lit (py "bibliography")])) ].

(** The inner loop shared by [detect_sections] and [_detect_section]: the
    first pattern, in dictionary order, that matches the stripped line. *)
Definition heading_of (stripped : str) : option str :=
  fst <$> List.find (fun '(_, pattern) => bool_decide (is_Some (re_match pattern stripped)))
                    SECTION_PATTERNS.

Record ChunkConfig : Type := {
  chunk_size : Z;
  overlap_percent : Z;
  min_chunk_size : Z;
  section_detection : bool
}.

Definition default_config : ChunkConfig :=
  {| chunk_size := 1000; overlap_percent := 20; min_chunk_size := 100;
     section_detection := true |}.

Section Chunker.

Local Open Scope Z_scope.

Variable config : ChunkConfig.

(** *** [detect_sections] *)

(** The first loop: [(section_name, current_pos, i)] for every heading line. *)
Fixpoint scan_lines (lines : list str) (i current_pos : nat) : list (str * nat * nat) :=
  match lines with
  | [] => []
  | line :: lines' =>
      let later := scan_lines lines' (S i) (current_pos + length line + 1)%nat in
      match heading_of (strip line) with
      | Some section_name => (section_name, current_pos, i) :: later
      | None => later
      end
  end.

(** [lines_cumulative]: the position at which each line starts. *)
Fixpoint cumulative (lines : list str) (pos : nat) : list nat :=
  match lines with
  | [] => []
  | line :: lines' => pos :: cumulative lines' (pos + length line + 1)%nat
  end.

Definition detect_sections (text : str) : list (str * nat * nat) :=
  let lines := split text nl in
  let sections := scan_lines lines 0 0 in
  if negb (truthy sections) then []
  else
    let lines_cumulative := cumulative lines 0 in
    imap (fun i '(section_name, _, line_idx) =>
            let start_pos := default 0%nat (lines_cumulative !! line_idx) in
            let end_pos :=
              match sections !! S i with
              | Some (_, _, next_line_idx) =>
                  default (length text) (lines_cumulative !! next_line_idx)
              | None => length text
              end in
            (section_name, start_pos, end_pos))
         sections.

(** *** [_hard_split] *)

(** [range(0, stop, step)] for a non-negative [stop]. *)
Definition range0 (stop step : Z) : exc (list Z) :=
  if step =? 0 then Raise ValueError
  else if step <? 0 then Ok []
  else Ok (map (fun j => Z.of_nat j * step) (seq 0 (Z.to_nat ((stop + step - 1) / step)))).

Definition _hard_split (text section : str) : exc (list (str * str)) :=
  let* starts := range0 (len text) (chunk_size config) in
  Ok (omap (fun i =>
              let chunk_text :=
                strip (slice text (Z.to_nat i) (Z.to_nat (i + chunk_size config))) in
              if truthy chunk_text then Some (chunk_text, section) else None)
           starts).

(** *** [_merge_splits] *)

(** One round of the loop over [parts]; the state is [(chunks, current_chunk)].
    [split_again] is the recursive call on an oversized part. *)
Definition merge_step (split_again : str -> str -> exc (list (str * str)))
    (separator section : str) (st : list (str * str) * str) (part : str)
    : exc (list (str * str) * str) :=
  let '(chunks, current_chunk) := st in
  let test_chunk :=
    if truthy current_chunk then current_chunk ++ separator ++ part else part in
  if len test_chunk <=? chunk_size config then Ok (chunks, test_chunk)
  else
    let chunks :=
      if truthy current_chunk && (min_chunk_size config <=? len current_chunk)
      then chunks ++ [(strip current_chunk, section)] else chunks in
    if chunk_size config <? len part then
      let* sub_chunks := split_again part section in
      Ok (chunks ++ sub_chunks, [])
    else Ok (chunks, part).

Fixpoint merge_loop (split_again : str -> str -> exc (list (str * str)))
    (separator section : str) (st : list (str * str) * str) (parts : list str)
    : exc (list (str * str) * str) :=
  match parts with
  | [] => Ok st
  | part :: parts' =>
      let* st' := merge_step split_again separator section st part in
      merge_loop split_again separator section st' parts'
  end.

(** After the loop: the last chunk, or the small remainder appended to the
    previous chunk. *)
Definition merge_finish (separator section : str) (st : list (str * str) * str)
    : list (str * str) :=
  let '(chunks, current_chunk) := st in
  if truthy current_chunk && (min_chunk_size config <=? len (strip current_chunk))
  then chunks ++ [(strip current_chunk, section)]
  else if truthy current_chunk && truthy chunks then
    match last chunks with
    | Some (prev_text, prev_section) =>
        removelast chunks ++ [(prev_text ++ separator ++ strip current_chunk, prev_section)]
    | None => chunks
    end
  else chunks.

Definition _merge_splits (split_again : str -> str -> exc (list (str * str)))
    (parts : list str) (separator section : str) : exc (list (str * str)) :=
  let* st := merge_loop split_again separator section ([], []) parts in
  Ok (merge_finish separator section st).

(** *** [_recursive_split] *)

(** Paragraph break, line break, sentence, clause, word. *)
Definition separators : list str :=
  [nl ++ nl; nl; py ". "; py ", "; py " "].

(** The loop over the separators, then the fallback. *)
Fixpoint try_separators (split_again : str -> str -> exc (list (str * str)))
    (seps : list str) (text section : str) : exc (list (str * str)) :=
  match seps with
  | [] => _hard_split text section
  | separator :: seps' =>
      let parts := split text separator in
      if (1 <? length parts)%nat then
        let* chunks := _merge_splits split_again parts separator section in
        if truthy chunks then Ok chunks
        else try_separators split_again seps' text section
      else try_separators split_again seps' text section
  end.

(** The recursion of [_recursive_split] through [_merge_splits] is on a part
    of a split into several parts, which is shorter than the text; [fuel]
    bounds its depth. *)
Fixpoint recursive_split_fuel (fuel : nat) (text section : str) : exc (list (str * str)) :=
  match fuel with
  | O => Raise OutOfFuel
  | S fuel' =>
      if len text <=? chunk_size config
      then Ok (if truthy (strip text) then [(text, section)] else [])
      else try_separators (recursive_split_fuel fuel') separators text section
  end.

Definition _recursive_split (text section : str) : exc (list (str * str)) :=
  recursive_split_fuel (S (length text)) text section.

(** How far the last chunk of one merge can outgrow [chunk_size]: a
    remainder shorter than [min_chunk_size] and a separator of at most two
    characters are appended to it; no remainder is that short when
    [min_chunk_size <= 0]. *)
Definition slack : Z :=
  if 1 <=? min_chunk_size config then min_chunk_size config + 1 else 0.

(** The number of separators of the hierarchy that occur in a text. *)
Definition separators_in (text : str) : nat :=
  length (filter (fun separator => contains text separator = true) separators).

(** An outcome of the splitting stage whose chunks are at most [bound] long;
    the stage raises only for [chunk_size = 0], where [range] rejects the
    step. *)
Definition within (bound : Z) (outcome : exc (list (str * str))) : Prop :=
  match outcome with
  | Ok chunks => Forall (fun c => len c.1 <= bound) chunks
  | Raise e => e = ValueError /\ chunk_size config = 0
  end.

(** The state of the merge loop when its chunks are within [bound]: the
    current chunk is empty or fits the chunk size. *)
Definition loop_ok (bound : Z) (st : list (str * str) * str) : Prop :=
  Forall (fun c => len c.1 <= bound) st.1 /\ (st.2 = [] \/ len st.2 <= chunk_size config).

Definition loop_within (bound : Z) (r : exc (list (str * str) * str)) : Prop :=
  match r with
  | Ok st => loop_ok bound st
  | Raise e => e = ValueError /\ chunk_size config = 0
  end.

(** *** [_recursive_split_with_sections] *)

Fixpoint split_sections (text : str) (sections : list (str * nat * nat))
    : exc (list (str * str)) :=
  match sections with
  | [] => Ok []
  | (section_name, start, stop) :: sections' =>
      let section_text := strip (slice text start stop) in
      let* section_chunks :=
        (if truthy section_text then _recursive_split section_text section_name
         else Ok []) in
      let* later := split_sections text sections' in
      Ok (section_chunks ++ later)
  end.

Definition _recursive_split_with_sections (text : str)
    (sections : list (str * nat * nat)) : exc (list (str * str)) :=
  let* preamble :=
    match sections with
    | (_, S start, _) :: _ =>
        let pre_section_text := strip (slice text 0 (S start)) in
        if truthy pre_section_text
        then _recursive_split pre_section_text (py "preamble")
        else Ok []
    | _ => Ok []
    end in
  let* chunks := split_sections text sections in
  Ok (preamble ++ chunks).

(** *** [_apply_overlap] *)

(** [int(chunk_size * overlap_percent / 100)]. *)
Definition overlap_chars : Z :=
  Z.quot (chunk_size config * overlap_percent config) 100.

(** [t[-overlap_chars:] if len(t) > overlap_chars else t]. *)
Definition overlap_tail (t : str) : str :=
  if overlap_chars <? len t then slice_from t (- overlap_chars) else t.

Definition _apply_overlap (chunks : list (str * str)) : list (str * str * Z * Z) :=
  imap (fun i '(text, section) =>
          let '(new_text, overlap_prev) :=
            match i with
            | O => (text, 0)
            | S j =>
                match chunks !! j with
                | Some (prev_text, _) =>
                    let overlap_content := overlap_tail prev_text in
                    if negb (startswith text overlap_content)
                    then (overlap_content ++ py " " ++ text, len overlap_content)
                    else (text, 0)
                | None => (text, 0)
                end
            end in
          let overlap_next :=
            if (Z.of_nat i <? len chunks - 1) then len (overlap_tail text) else 0 in
          (new_text, section, overlap_prev, overlap_next))
       chunks.

(** *** [_create_chunks] and [chunk] *)

(** [rnd i] is [uuid.uuid4().hex[:8]] at the [i]-th chunk. *)
Definition _create_chunks (rnd : nat -> str) (chunks_data : list (str * str * Z * Z))
    (source : str) : list Chunk :=
  imap (fun i '(text, section, overlap_prev, overlap_next) =>
          {| id := source ++ py "_" ++ section ++ py "_" ++ str_of_nat i ++ py "_" ++ rnd i;
             text := text;
             metadata :=
               {| source := source; page := 0; section := section; chunk_index := i;
                  parent_chunk_id := None; overlap_with_prev := overlap_prev;
                  overlap_with_next := overlap_next; semantic_tags := [] |} |})
       chunks_data.

(** The raw splitting stage of [chunk]: steps 1 and 2. *)
Definition raw_chunks (text : str) : exc (list (str * str)) :=
  let sections := if section_detection config then detect_sections text else [] in
  if truthy sections then _recursive_split_with_sections text sections
  else _recursive_split text (py "body").

Definition chunk (rnd : nat -> str) (text source : str) : exc (list Chunk) :=
  if negb (truthy text) || negb (truthy (strip text)) then Ok []
  else
    let* raw := raw_chunks text in
    Ok (_create_chunks rnd (_apply_overlap raw) source).

End Chunker.

End Chunking.

(** ** The metadata enricher ([chunking/metadata_enricher.py]) *)

Module Enricher.

Import Chunking.

Record EnricherConfig : Type := {
  semantic_tagging : bool;
  hierarchical_ids : bool;
  extract_page_numbers : bool
}.

Definition default_config : EnricherConfig :=
  {| semantic_tagging := false; hierarchical_ids := true; extract_page_numbers := true |}.

(** The [pdf_metadata] dictionary: its two keys the enricher reads, each
    present or not, and whether it holds any other key. The keys of
    [page_map] are character offsets (integers). *)
Record PdfMetadata : Type := {
  page_map : option (gmap Z Z);
  chunk_offsets : option (gmap str Z);
  other_keys : bool
}.

(** Truth value of the optional dictionary: present and not empty. *)
Definition pdf_truthy (pdf_metadata : option PdfMetadata) : bool :=
  match pdf_metadata with
  | None => false
  | Some d =>
      bool_decide (is_Some (page_map d)) || bool_decide (is_Some (chunk_offsets d))
      || other_keys d
  end.

Definition with_page (m : ChunkMetadata) (p : Z) : ChunkMetadata :=
  {| source := source m; page := p; section := section m;
     chunk_index := chunk_index m; parent_chunk_id := parent_chunk_id m;
     overlap_with_prev := overlap_with_prev m;
     overlap_with_next := overlap_with_next m; semantic_tags := semantic_tags m |}.

Definition with_section (m : ChunkMetadata) (s : str) : ChunkMetadata :=
  {| source := source m; page := page m; section := s;
     chunk_index := chunk_index m; parent_chunk_id := parent_chunk_id m;
     overlap_with_prev := overlap_with_prev m;
     overlap_with_next := overlap_with_next m; semantic_tags := semantic_tags m |}.

Definition with_parent (m : ChunkMetadata) (p : option str) : ChunkMetadata :=
  {| source := source m; page := page m; section := section m;
     chunk_index := chunk_index m; parent_chunk_id := p;
     overlap_with_prev := overlap_with_prev m;
     overlap_with_next := overlap_with_next m; semantic_tags := semantic_tags m |}.

(** [\bpage\s*(\d+)\b], case-insensitive. *)
Definition page_pattern : regex :=
  seqs [WordB; lit (py "page"); spaces; Group (Plus (Chr isdecimal)); WordB].

(** [sorted(page_map.items())]: ascending offsets (the keys of a dictionary
    are distinct, so the pages never decide the order). *)
Definition item_le (a b : Z * Z) : Prop := (a.1 <= b.1)%Z.

Global Instance item_le_dec : RelDecision item_le.
Proof. intros a b. unfold item_le. apply _. Defined.

Definition sorted_items (m : gmap Z Z) : list (Z * Z) :=
  merge_sort item_le (map_to_list m).

(** The loop of [_extract_page_number] over the sorted items. *)
Fixpoint page_loop (chunk_start : Z) (items : list (Z * Z)) : Z :=
  match items with
  | [] => 0
  | (offset, page) :: items' =>
      if (offset <=? chunk_start)%Z then page else page_loop chunk_start items'
  end.

Definition _extract_page_number (chunk : Chunk) (pdf_metadata : PdfMetadata) : Z :=
  let page_map := default ∅ (page_map pdf_metadata) in
  if bool_decide (page_map = ∅) then
    match re_search page_pattern (text chunk) with
    | Some m => int_of_digits (default [] (group1 m))
    | None => 0
    end
  else
    let chunk_start := default 0%Z (default ∅ (chunk_offsets pdf_metadata) !! id chunk) in
    page_loop chunk_start (sorted_items page_map).

(** What the specification asks of the offset mapping: the page of the
    highest boundary that does not exceed the chunk's start offset, 0 when
    there is none. *)
Definition page_of_highest_boundary (chunk_start : Z) (page_map : gmap Z Z) : Z :=
  default 0%Z
    (snd <$> last (filter (fun item => (item.1 <= chunk_start)%Z) (sorted_items page_map))).

(** [any(kw in text_lower for kw in kws)]. *)
Definition any_in (text_lower : str) (kws : list str) : bool :=
  existsb (contains text_lower) kws.

Fixpoint first_heading (lines : list str) : option str :=
  match lines with
  | [] => None
  | line :: lines' =>
      match heading_of (strip line) with
      | Some section_name => Some section_name
      | None => first_heading lines'
      end
  end.

Definition _detect_section (text : str) : option str :=
  match first_heading (take 5 (split text nl)) with
  | Some section_name => Some section_name
  | None =>
      let text_lower := lower text in
      if any_in text_lower [py "we propose"; py "this paper"; py "we present"; py "in this work"]
      then Some (py "introduction")
      else if any_in text_lower [py "experiment"; py "dataset"; py "training"; py "evaluation"]
      then Some (py "methods")
      else if any_in text_lower
                [py "accuracy"; py "performance"; py "table"; py "figure"; py "results show"]
      then Some (py "results")
      else if any_in text_lower
                [py "limitation"; py "future work"; py "in conclusion"; py "we have shown"]
      then Some (py "conclusion")
      else None
  end.

(** [f"{index:04d}"]. *)
Definition fmt_04d (index : nat) : str :=
  let digits := str_of_nat index in
  repeat "0"%char (4 - length digits) ++ digits.

Section Enrich.

(** [hashlib.md5(s.encode()).hexdigest()], a function of the library. *)
Variable md5_hexdigest : str -> str.

Variable config : EnricherConfig.

Definition _generate_hierarchical_id (source section : str) (index : nat) (text : str) : str :=
  let source_hash := take 8 (md5_hexdigest source) in
  let content_hash := take 6 (md5_hexdigest text) in
  let section_clean :=
    if truthy section then lower (replace_char " "%char "_"%char section)
    else py "unknown" in
  source_hash ++ py "_" ++ section_clean ++ py "_" ++ fmt_04d index ++ py "_" ++ content_hash.

Definition _enrich_chunk (chunk : Chunk) (index total_chunks : nat)
    (pdf_metadata : option PdfMetadata) : Chunk :=
  let new_metadata := metadata chunk in
  let new_metadata :=
    match pdf_metadata with
    | Some d =>
        if extract_page_numbers config && pdf_truthy pdf_metadata
        then with_page new_metadata (_extract_page_number chunk d)
        else new_metadata
    | None => new_metadata
    end in
  let new_metadata :=
    if negb (truthy (section new_metadata))
       || bool_decide (section new_metadata = py "body")
    then
      match _detect_section (text chunk) with
      | Some section => with_section new_metadata section
      | None => new_metadata
      end
    else new_metadata in
  let new_id :=
    if hierarchical_ids config
    then _generate_hierarchical_id (source (metadata chunk)) (section new_metadata)
           index (text chunk)
    else id chunk in
  {| id := new_id; text := text chunk; metadata := new_metadata |}.

(** The section label [_enrich_chunk] settles on depends on the chunk's own
    label and text only. *)
Definition corrected_section (c : Chunk) : str :=
  if negb (truthy (section (metadata c))) || bool_decide (section (metadata c) = py "body")
  then default (section (metadata c)) (_detect_section (text c))
  else section (metadata c).

(** The loop of [_assign_parent_relationships]; [section_first_chunk] maps a
    section to the id of its first chunk. *)
Fixpoint assign_loop (section_first_chunk : gmap str str) (chunks : list Chunk)
    : list Chunk :=
  match chunks with
  | [] => []
  | chunk :: chunks' =>
      let section := section (metadata chunk) in
      let '(section_first_chunk, parent_id) :=
        match section_first_chunk !! section with
        | None => (<[section := id chunk]> section_first_chunk, None)
        | Some first => (section_first_chunk, Some first)
        end in
      {| id := id chunk; text := text chunk;
         metadata := with_parent (metadata chunk) parent_id |}
      :: assign_loop section_first_chunk chunks'
  end.

Definition _assign_parent_relationships (chunks : list Chunk) : list Chunk :=
  assign_loop ∅ chunks.

Definition enrich (chunks : list Chunk) (pdf_metadata : option PdfMetadata) : list Chunk :=
  if negb (truthy chunks) then []
  else
    let enriched :=
      imap (fun i chunk => _enrich_chunk chunk i (length chunks) pdf_metadata) chunks in
    if hierarchical_ids config then _assign_parent_relationships enriched else enriched.

End Enrich.

End Enricher.

(** ** Retrieval results and ordering ([retrieval/__init__.py]) *)

Module Retrieval.

(** A result is a dictionary with five keys. Its score is a float: a
    number [Q] where the retrievers compute it, a [pyfloat] where it is the
    rating of the reranker's collaborator. *)
Record Result (F : Type) : Type := {
  chunk_id : str;
  text : str;
  score : F;
  source : str;
  metadata : Chunking.ChunkMetadata
}.
Arguments chunk_id {F} _.
Arguments text {F} _.
Arguments score {F} _.
Arguments source {F} _.
Arguments metadata {F} _.
Arguments Build_Result {F} _ _ _ _ _.

Abbreviation RetrievalResult := (Result Q).

Definition with_score {F G} (r : Result F) (s : G) : Result G :=
  {| chunk_id := chunk_id r; text := text r; score := s; source := source r;
     metadata := metadata r |}.

Definition with_source {F} (r : Result F) (s : str) : Result F :=
  {| chunk_id := chunk_id r; text := text r; score := score r; source := s;
     metadata := metadata r |}.

(** [a < b] on scores. *)
Definition Qlt_bool (a b : Q) : bool := negb (Qle_bool b a).

(** [max(a, b)] and [min(a, b)] of the language: the first argument unless
    the second is strictly better. *)
Definition py_max (a b : Q) : Q := if Qlt_bool a b then b else a.
Definition py_min (a b : Q) : Q := if Qlt_bool b a then b else a.

(** [l.sort(key=key, reverse=True)] and [sorted(l, key=key, reverse=True)]:
    the stable sort by descending key. An element goes behind the elements
    of strictly greater key and in front of those of equal key that came
    after it. *)
Fixpoint insert_desc {A} (key : A -> Q) (x : A) (l : list A) : list A :=
  match l with
  | [] => [x]
  | y :: l' => if Qlt_bool (key x) (key y) then y :: insert_desc key x l' else x :: l
  end.

Definition sort_desc {A} (key : A -> Q) (l : list A) : list A :=
  foldr (insert_desc key) [] l.

(** The order a stable descending sort establishes between an element and
    a later one: the key does not grow, and on equal keys the original
    positions [pos] grow. *)
Definition ranked {A} (key : A -> Q) (pos : A -> nat) (x y : A) : Prop :=
  (key y <= key x)%Q /\ ((key x == key y)%Q -> (pos x < pos y)%nat).

(** *** Floats with the special values *)

Inductive pyfloat : Type :=
  | Finite (q : Q)
  | PosInf
  | NegInf
  | NaN.

(** [a < b] on floats: false as soon as one side is NaN. *)
Definition float_lt (a b : pyfloat) : bool :=
  match a, b with
  | NaN, _ | _, NaN => false
  | Finite x, Finite y => Qlt_bool x y
  | NegInf, NegInf => false
  | NegInf, _ => true
  | _, NegInf => false
  | PosInf, _ => false
  | _, PosInf => true
  end.

(** [a <= b] on floats. *)
Definition float_le (a b : pyfloat) : bool :=
  match a, b with
  | NaN, _ | _, NaN => false
  | Finite x, Finite y => Qle_bool x y
  | NegInf, _ => true
  | _, PosInf => true
  | _, _ => false
  end.

(** [max(a, b)] and [min(a, b)] on floats: the first argument unless the
    second is strictly better, so a NaN in front stays. *)
Definition float_max (a b : pyfloat) : pyfloat := if float_lt a b then b else a.
Definition float_min (a b : pyfloat) : pyfloat := if float_lt b a then b else a.

(** [a / d] for a positive number [d]. *)
Definition float_div (a : pyfloat) (d : Q) : pyfloat :=
  match a with
  | Finite x => Finite (x / d)
  | _ => a
  end.

(** A result with a number for a score, read as a result with a float. *)
Definition rated (r : RetrievalResult) : Result pyfloat :=
  with_score r (Finite (score r)).

End Retrieval.

(** ** The lexical index ([retrieval/bm25_index.py]) *)

Module BM25.

Import Retrieval.

Record BM25Config : Type := { k1 : Q; b : Q }.

Definition default_config : BM25Config := {| k1 := 3 # 2; b := 3 # 4 |}.

(** A [BM25Okapi] object: the tokenized corpus and the two parameters it was
    built with. *)
Record BM25Okapi : Type := {
  corpus : list (list str);
  okapi_k1 : Q;
  okapi_b : Q
}.

Record BM25Index : Type := {
  config : BM25Config;
  _index : option BM25Okapi;
  _chunks : list Chunking.Chunk;
  _tokenized_corpus : list (list str)
}.

(** [BM25Index(config)]. *)
Definition init (config : BM25Config) : BM25Index :=
  {| config := config; _index := None; _chunks := []; _tokenized_corpus := [] |}.

Definition stopwords : list str :=
  map py
    [ "the"; "a"; "an"; "and"; "or"; "but"; "in"; "on"; "at"; "to";
      "for"; "of"; "with"; "by"; "from"; "as"; "is"; "was"; "are";
      "were"; "been"; "be"; "have"; "has"; "had"; "do"; "does"; "did";
      "will"; "would"; "could"; "should"; "may"; "might"; "must";
      "this"; "that"; "these"; "those"; "it"; "its"; "we"; "our";
      "they"; "their"; "which"; "who"; "whom"; "what"; "where"; "when" ]%string.

(** [\b[\w-]+\b]. *)
Definition token_pattern : regex :=
  seqs [WordB; Plus (Chr (fun c => isword c || Ascii.eqb c "-"%char)); WordB].

Definition _tokenize (text : str) : list str :=
  let text := lower text in
  let tokens := re_findall token_pattern text in
  let tokens :=
    filter (fun t => (1 < length t)%nat /\ forallb isdigit_char t = false) tokens in
  filter (fun t => t ∉ stopwords) tokens.

(** [BM25Okapi(self._tokenized_corpus, k1=..., b=...)] for the corpus of
    [chunks]. *)
Definition built_index (self : BM25Index) (chunks : list Chunking.Chunk) : BM25Okapi :=
  {| corpus := map (fun chunk => _tokenize (Chunking.text chunk)) chunks;
     okapi_k1 := k1 (config self); okapi_b := b (config self) |}.

Definition build_index (self : BM25Index) (chunks : list Chunking.Chunk) : BM25Index :=
  if negb (truthy chunks) then
    {| config := config self; _index := None; _chunks := [];
       _tokenized_corpus := _tokenized_corpus self |}
  else
    {| config := config self;
       _index := Some (built_index self chunks);
       _chunks := chunks;
       _tokenized_corpus := corpus (built_index self chunks) |}.

(** The result [search] builds for a chunk and its score. *)
Definition hit_result (chunk : Chunking.Chunk) (s : Q) : RetrievalResult :=
  {| chunk_id := Chunking.id chunk; text := Chunking.text chunk; score := s;
     source := py "bm25"; metadata := Chunking.metadata chunk |}.

Section Search.

(** The ranking function of the [rank_bm25] library: the score of one
    document of the corpus for a tokenized query. [get_scores] returns one
    score per document, in corpus order. *)
Variable okapi_score : BM25Okapi -> list str -> list str -> Q.

Definition get_scores (index : BM25Okapi) (tokenized_query : list str) : list Q :=
  map (okapi_score index tokenized_query) (corpus index).

(** [top_indices]: the sorted [(i, score)] pairs cut at [top_k]. *)
Definition top_indices (index : BM25Okapi) (query : str) (top_k : Z) : list (nat * Q) :=
  let tokenized_query := _tokenize query in
  let scores := get_scores index tokenized_query in
  let scored_indices := imap (fun i score => (i, score)) scores in
  slice_to (sort_desc snd scored_indices) top_k.

(** The last loop of [search]; [self._chunks[idx]] raises out of range. *)
Fixpoint collect (chunks : list Chunking.Chunk) (top : list (nat * Q))
    : exc (list RetrievalResult) :=
  match top with
  | [] => Ok []
  | (idx, score) :: top' =>
      if Qlt_bool 0 score then
        match chunks !! idx with
        | Some chunk =>
            let* results := collect chunks top' in
            Ok (hit_result chunk score :: results)
        | None => Raise IndexError
        end
      else collect chunks top'
  end.

Definition search (self : BM25Index) (query : str) (top_k : Z) : exc (list RetrievalResult) :=
  match _index self with
  | None => Ok []
  | Some index =>
      if negb (truthy (_chunks self)) then Ok []
      else collect (_chunks self) (top_indices index query top_k)
  end.

End Search.

End BM25.

(** ** Rank fusion ([retrieval/hybrid_retriever.py]) *)

Module Hybrid.

Import Retrieval.

Record HybridConfig : Type := {
  bm25_weight : Q;
  vector_weight : Q;
  top_k_bm25 : Z;
  top_k_vector : Z;
  final_top_k : Z;
  rrf_k : Z
}.

Definition default_config : HybridConfig :=
  {| bm25_weight := 3 # 10; vector_weight := 7 # 10; top_k_bm25 := 20;
     top_k_vector := 20; final_top_k := 10; rrf_k := 60 |}.

(** [scores[chunk_id] += x] on a [defaultdict(float)]; the dictionary keeps
    its keys in first-insertion order. *)
Fixpoint add_score (scores : list (str * Q)) (chunk_id : str) (x : Q) : list (str * Q) :=
  match scores with
  | [] => [(chunk_id, (0 + x)%Q)]
  | (c, v) :: scores' =>
      if bool_decide (c = chunk_id) then (c, (v + x)%Q) :: scores'
      else (c, v) :: add_score scores' chunk_id x
  end.

(** [weight / (k + rank + 1)]. *)
Definition contribution (weight : Q) (k : Z) (rank : nat) : exc Q :=
  let d := (k + Z.of_nat rank + 1)%Z in
  if (d =? 0)%Z then Raise ZeroDivisionError else Ok (weight / inject_Z d)%Q.

(** The fusion formula: what the list [results], read from rank [rank] on,
    adds to the score of [id], the sum of [weight / (k + rank + 1)] over the
    ranks at which [id] stands. *)
Fixpoint list_gain (weight : Q) (k : Z) (rank : nat) (results : list RetrievalResult)
    (id : str) : Q :=
  match results with
  | [] => 0
  | result :: results' =>
      ((if bool_decide (chunk_id result = id)
        then weight / inject_Z (k + Z.of_nat rank + 1) else 0)
       + list_gain weight k (S rank) results' id)%Q
  end.

(** [scores.get(id, 0.0)]. *)
Fixpoint score_of (scores : list (str * Q)) (id : str) : Q :=
  match scores with
  | [] => 0
  | (c, v) :: scores' => if bool_decide (c = id) then v else score_of scores' id
  end.

(** One of the two scoring loops, from rank [rank] on. *)
Fixpoint score_loop (weight : Q) (k : Z) (rank : nat) (results : list RetrievalResult)
    (st : list (str * Q) * gmap str RetrievalResult)
    : exc (list (str * Q) * gmap str RetrievalResult) :=
  match results with
  | [] => Ok st
  | result :: results' =>
      let '(scores, chunks) := st in
      let* x := contribution weight k rank in
      let scores := add_score scores (chunk_id result) x in
      let chunks :=
        match chunks !! chunk_id result with
        | None => <[chunk_id result := result]> chunks
        | Some _ => chunks
        end in
      score_loop weight k (S rank) results' (scores, chunks)
  end.

(** The dictionaries of [rrf_fusion] between its loops: the scored ids are
    the ids with a stored result, and a stored result carries its id. *)
Definition consistent (st : list (str * Q) * gmap str RetrievalResult) : Prop :=
  NoDup st.1.*1 /\
  (forall id, id ∈ st.1.*1 <-> is_Some (st.2 !! id)) /\
  (forall id r, st.2 !! id = Some r -> chunk_id r = id).

(** The last loop: the results in the order of [sorted_ids], each with its
    fused score; [chunks[chunk_id]] raises on a missing key. *)
Fixpoint fused (chunks : gmap str RetrievalResult) (sorted_ids : list (str * Q))
    : exc (list RetrievalResult) :=
  match sorted_ids with
  | [] => Ok []
  | (chunk_id, s) :: sorted_ids' =>
      match chunks !! chunk_id with
      | Some result =>
          let* results := fused chunks sorted_ids' in
          Ok (with_source (with_score result s) (py "hybrid") :: results)
      | None => Raise KeyError
      end
  end.

Definition rrf_fusion (config : HybridConfig)
    (bm25_results vector_results : list RetrievalResult) (k : Z)
    : exc (list RetrievalResult) :=
  let* st := score_loop (bm25_weight config) k 0 bm25_results ([], ∅) in
  let* st := score_loop (vector_weight config) k 0 vector_results st in
  let '(scores, chunks) := st in
  fused chunks (sort_desc snd scores).

End Hybrid.

(** ** Rank fusion in doubles ([retrieval/hybrid_retriever.py])

    The loops of [rrf_fusion] once more, with the rounding of every float
    operation written out: [round x] is the double a result [x] is rounded
    to. [k + rank + 1] is an [int] and exact; the division converts it to a
    double first. With the identity for [round] these are the definitions
    of [Hybrid]. *)

Module HybridFloat.

Import Retrieval.
Import Hybrid (HybridConfig, bm25_weight, vector_weight, fused).

(** What the properties of the fusion use of rounding to a double: it keeps
    the order, it leaves a double as it is, and 0 and 1 are doubles. Exact
    arithmetic (the identity) and [round64] below are such roundings. *)
Record rounding (round : Q -> Q) : Prop := {
  round_le : forall x y, (x <= y)%Q -> (round x <= round y)%Q;
  round_round : forall x, (round (round x) == round x)%Q;
  round_0 : (round 0 == 0)%Q;
  round_1 : (round 1 == 1)%Q
}.

Section Rounded.

Variable round : Q -> Q.

(** [scores[chunk_id] += x]. *)
Fixpoint add_score (scores : list (str * Q)) (chunk_id : str) (x : Q) : list (str * Q) :=
  match scores with
  | [] => [(chunk_id, round (0 + x))]
  | (c, v) :: scores' =>
      if bool_decide (c = chunk_id) then (c, round (v + x)) :: scores'
      else (c, v) :: add_score scores' chunk_id x
  end.

(** [weight / (k + rank + 1)]. *)
Definition contribution (weight : Q) (k : Z) (rank : nat) : exc Q :=
  let d := round (inject_Z (k + Z.of_nat rank + 1)) in
  if Qeq_bool d 0 then Raise ZeroDivisionError else Ok (round (weight / d)).

Fixpoint score_loop (weight : Q) (k : Z) (rank : nat) (results : list RetrievalResult)
    (st : list (str * Q) * gmap str RetrievalResult)
    : exc (list (str * Q) * gmap str RetrievalResult) :=
  match results with
  | [] => Ok st
  | result :: results' =>
      let '(scores, chunks) := st in
      let* x := contribution weight k rank in
      let scores := add_score scores (chunk_id result) x in
      let chunks :=
        match chunks !! chunk_id result with
        | None => <[chunk_id result := result]> chunks
        | Some _ => chunks
        end in
      score_loop weight k (S rank) results' (scores, chunks)
  end.

Definition rrf_fusion (config : HybridConfig)
    (bm25_results vector_results : list RetrievalResult) (k : Z)
    : exc (list RetrievalResult) :=
  let* st := score_loop (bm25_weight config) k 0 bm25_results ([], ∅) in
  let* st := score_loop (vector_weight config) k 0 vector_results st in
  let '(scores, chunks) := st in
  fused chunks (sort_desc snd scores).

(** What one list adds to a score at rank [rank], when the constant is not
    negative. *)
Definition gain (weight : Q) (k : Z) (rank : nat) : Q :=
  round (weight / round (inject_Z (k + Z.of_nat rank + 1))).

End Rounded.

(** *** Rounding to binary64 *)

(** [floor (log2 x)] for a positive [x]. *)
Definition ilog2 (x : Q) : Z :=
  let e := (Z.log2 (Qnum x) - Z.log2 (Zpos (Qden x)))%Z in
  if Qle_bool (2 ^ e) x then e else (e - 1)%Z.

(** The integer nearest to [x >= 0], the even one of two that are equally
    near. *)
Definition round_half_even (x : Q) : Z :=
  let n := (Qnum x / Zpos (Qden x))%Z in
  let rest := (x - inject_Z n)%Q in
  if Qlt_bool rest (1 # 2) then n
  else if Qlt_bool (1 # 2) rest then (n + 1)%Z
  else if Z.even n then n else (n + 1)%Z.

(** The double nearest to [x], ties to the even significand: 53 bits of
    significand, and the spacing of the subnormal numbers below [2 ^ -1022].
    (A result beyond the largest double is an infinity, which is outside
    the numbers.) *)
Definition round64_pos (a : Q) : Q :=
  let e := Z.max (ilog2 a) (-1022) in
  let ulp := (2 ^ (e - 52))%Q in
  (inject_Z (round_half_even (a / ulp)) * ulp)%Q.

Definition round64 (x : Q) : Q :=
  if Qeq_bool x 0 then 0
  else if Qle_bool 0 x then round64_pos x
  else (- round64_pos (- x))%Q.

(** The weights 0.3 and 1e-19, as the doubles they are. *)
Definition tiny_vector_weight : HybridConfig :=
  {| Hybrid.bm25_weight := round64 (3 # 10);
     Hybrid.vector_weight := round64 (1 # 10000000000000000000);
     Hybrid.top_k_bm25 := 20; Hybrid.top_k_vector := 20; Hybrid.final_top_k := 10;
     Hybrid.rrf_k := 60 |}.

End HybridFloat.

(** ** The reranker ([retrieval/reranker.py]) *)

Module Rerank.

Import Retrieval.

Record RerankConfig : Type := {
  enabled : bool;
  diversity_threshold : Q;
  relevance_threshold : Q;
  max_context_tokens : Z
}.

Definition default_config : RerankConfig :=
  {| enabled := true; diversity_threshold := 7 # 10; relevance_threshold := 1 # 2;
     max_context_tokens := 4000 |}.

(** [l[:top_k] if top_k else l]. *)
Definition cut {A} (l : list A) (top_k : option Z) : list A :=
  match top_k with
  | None => l
  | Some k => if (k =? 0)%Z then l else slice_to l k
  end.

(** The prompt of [_get_relevance_score]. *)
Definition relevance_prompt (text query : str) : str :=
  py "Rate the relevance of this text to the query on a scale of 0-10." ++ nl
  ++ py "        " ++ nl
  ++ py "Query: " ++ query ++ nl ++ nl
  ++ py "Text: " ++ take 500 text ++ py "..." ++ nl ++ nl
  ++ py "Respond with only a number between 0 and 10.".

(** [_text_similarity]: the word sets are finite sets of strings. *)
Definition word_set (text : str) : gset str := list_to_set (words (lower text)).

Definition _text_similarity (text1 text2 : str) : Q :=
  let words1 := word_set text1 in
  let words2 := word_set text2 in
  if bool_decide (words1 = ∅) || bool_decide (words2 = ∅) then 0
  else
    let intersection := size (words1 ∩ words2) in
    let union := size (words1 ∪ words2) in
    if (0 <? union)%nat
    then (inject_Z (Z.of_nat intersection) / inject_Z (Z.of_nat union))%Q
    else 0.

(** [scored.sort(key=lambda x: x["score"], reverse=True)] is a parameter of
    the reranker. What is known of it: the sorted list is a permutation of
    the list, and when every score is a number it is the stable descending
    sort. With a NaN among the scores every comparison with it is false and
    the order that results is that of the interpreter's run detection and
    merging, which the embedding leaves open. *)
Definition sorts_by_score
    (list_sort : list (Result pyfloat) -> list (Result pyfloat)) : Prop :=
  (forall l, list_sort l ≡ₚ l) /\
  (forall l : list RetrievalResult, list_sort (rated <$> l) = rated <$> sort_desc score l).

Section Selection.

Context {F : Type}.

Variable config : RerankConfig.

(** The inner loop of [_filter_diversity]. *)
Definition is_diverse (diverse : list (Result F)) (result : Result F) : bool :=
  forallb (fun selected =>
             negb (Qlt_bool (diversity_threshold config)
                            (_text_similarity (text result) (text selected))))
          diverse.

Definition _filter_diversity (results : list (Result F)) : list (Result F) :=
  match results with
  | [] => []
  | first :: others =>
      fold_left (fun diverse result =>
                   if is_diverse diverse result then diverse ++ [result] else diverse)
                others [first]
  end.

(** A later result of the list is diverse from every earlier one. *)
Definition pairwise_diverse (l : list (Result F)) : Prop :=
  forall i j a b, (i < j)%nat -> l !! i = Some a -> l !! j = Some b ->
    (_text_similarity (text b) (text a) <= diversity_threshold config)%Q.

(** The loop of [_limit_context] with [total_tokens] so far. *)
Fixpoint limit_loop (total_tokens : Z) (results : list (Result F))
    : list (Result F) :=
  match results with
  | [] => []
  | result :: results' =>
      let chunk_tokens := (len (text result) / 4)%Z in
      if (total_tokens + chunk_tokens <=? max_context_tokens config)%Z
      then result :: limit_loop (total_tokens + chunk_tokens) results'
      else []
  end.

Definition _limit_context (results : list (Result F)) : list (Result F) :=
  limit_loop 0 results.

(** The estimated token cost of a list of results: [len(text) // 4] each. *)
Definition estimated_tokens (results : list (Result F)) : Z :=
  foldr (fun result total => (len (text result) / 4 + total)%Z) 0%Z results.

End Selection.

Section Reranker.

Variable config : RerankConfig.

(** The language-model collaborator, when there is one: the answer to the
    [n]-th call of [generate], a text or an exception. *)
Variable llm_client : option (nat -> str -> exc str).

(** [float(s)]: the float a text denotes, which can be an infinity or NaN
    ([float("nan")] is no error), or nothing ([ValueError]). *)
Variable float_of_str : str -> option pyfloat.

(** [scored.sort(key=lambda x: x["score"], reverse=True)], of which
    [sorts_by_score] says what is known. *)
Variable list_sort : list (Result pyfloat) -> list (Result pyfloat).

(** [_get_relevance_score] at the [n]-th call of the collaborator. *)
Definition _get_relevance_score (generate : nat -> str -> exc str) (n : nat)
    (text query : str) : exc pyfloat :=
  let prompt := relevance_prompt text query in
  try_except
    (let* response := generate n prompt in
     let* parsed :=
       match float_of_str (strip response) with
       | Some x => Ok x
       | None => Raise ValueError
       end in
     let score := float_div parsed 10 in
     Ok (float_min (float_max score (Finite 0)) (Finite 1)))
    (fun _ => Ok (Finite (1 # 2))).

(** The loop of [_score_relevance] from the [n]-th candidate on. *)
Fixpoint score_loop (generate : nat -> str -> exc str) (n : nat) (query : str)
    (results : list (Result pyfloat)) : exc (list (Result pyfloat)) :=
  match results with
  | [] => Ok []
  | result :: results' =>
      let* new_result :=
        try_except
          (let* score := _get_relevance_score generate n (text result) query in
           Ok (with_score result score))
          (fun _ => Ok result) in
      let* scored := score_loop generate (S n) query results' in
      Ok (new_result :: scored)
  end.

Definition _score_relevance (results : list (Result pyfloat)) (query : str)
    : exc (list (Result pyfloat)) :=
  match llm_client with
  | None => Ok results
  | Some generate =>
      let* scored := score_loop generate 0 query results in
      Ok (list_sort scored)
  end.

Definition rerank (results : list (Result pyfloat)) (query : str) (top_k : option Z)
    : exc (list (Result pyfloat)) :=
  if negb (enabled config) || negb (truthy results) then Ok (cut results top_k)
  else
    let* scored_results := _score_relevance results query in
    let filtered :=
      filter (fun r => float_le (Finite (relevance_threshold config)) (score r) = true)
             scored_results in
    let diverse_results := _filter_diversity config filtered in
    let limited := _limit_context config diverse_results in
    Ok (cut limited top_k).

End Reranker.

End Rerank.

(** ** Sample data

    Concrete inputs at which the properties below are instantiated. *)

Module Samples.

Import Retrieval.

Definition meta0 : Chunking.ChunkMetadata :=
  {| Chunking.source := py "paper.pdf"; Chunking.page := 0;
     Chunking.section := py "body"; Chunking.chunk_index := 0;
     Chunking.parent_chunk_id := None; Chunking.overlap_with_prev := 0;
     Chunking.overlap_with_next := 0; Chunking.semantic_tags := [] |}.

Definition result (id text : string) (s : Q) (src : string) : RetrievalResult :=
  {| chunk_id := py id; text := py text; score := s; source := py src;
     metadata := meta0 |}.

Definition rA : RetrievalResult := result "A" "The cat sat on the mat" 1 "bm25".
Definition rB : RetrievalResult := result "B" "Dogs bark at night" 1 "vector".

(** A chunk that starts at offset 150 of a document whose second page
    starts at offset 100. *)
Definition chunk150 : Chunking.Chunk :=
  {| Chunking.id := py "c0"; Chunking.text := py "Results show";
     Chunking.metadata := meta0 |}.

Definition two_pages : Enricher.PdfMetadata :=
  {| Enricher.page_map := Some {[ 0%Z := 1%Z; 100%Z := 2%Z ]};
     Enricher.chunk_offsets := Some {[ py "c0" := 150%Z ]};
     Enricher.other_keys := false |}.

(** A small chunking configuration: chunks of 10 characters, half of them
    overlapping, at least 5 characters each. *)
Definition small_config : Chunking.ChunkConfig :=
  {| Chunking.chunk_size := 10; Chunking.overlap_percent := 50;
     Chunking.min_chunk_size := 5; Chunking.section_detection := true |}.

(** ["a" * n]. *)
Definition run (c : ascii) (n : nat) : str := repeat c n.

(** The chunks of a run with the small configuration. *)
Definition small_run : list Chunking.Chunk :=
  match Chunking.chunk small_config (fun _ => py "00000000")
          (py "aaaaaaaa bbbbbbbb") (py "paper.pdf") with
  | Ok chunks => chunks
  | Raise _ => []
  end.

(** A stand-in for the digest function where a property that holds for
    every digest function is instantiated: the text itself. *)
Definition digest (s : str) : str := s.

(** A text of two sections. *)
Definition two_sections : str :=
  py "Abstract" ++ nl ++ py "We study chunking." ++ nl
  ++ py "1. Introduction" ++ nl ++ py "We propose a method.".

(** Four near-duplicate results and a distinct one. *)
Definition near_duplicates : list RetrievalResult :=
  [ result "d1" "deep networks learn features from data" (9 # 10) "hybrid";
    result "d2" "deep networks learn features from images" (8 # 10) "hybrid";
    result "d3" "Deep networks learn features from data" (7 # 10) "hybrid";
    result "d4" "deep networks learn good features from data" (6 # 10) "hybrid";
    result "d5" "the cat sat on the mat" (5 # 10) "hybrid" ].

(** A collaborator that fails on its second call and answers the others
    with a number, a word and a number out of range. *)
Definition flaky_generate (n : nat) (prompt : str) : exc str :=
  match n with
  | 0 => Ok (py " 7 ")
  | 1 => Raise CollaboratorError
  | 2 => Ok (py "high")
  | _ => Ok (py "42")
  end.

(** A stand-in for [float] on the answers of [flaky_generate] and on the
    answer [nan]. *)
Definition sample_float (s : str) : option pyfloat :=
  if bool_decide (s = py "7") then Some (Finite 7)
  else if bool_decide (s = py "42") then Some (Finite 42)
  else if bool_decide (s = py "nan") then Some NaN
  else None.

(** The number of a float that is one. *)
Definition number_of (r : Result pyfloat) : option RetrievalResult :=
  match score r with
  | Finite q => Some (with_score r q)
  | _ => None
  end.

(** A stand-in for the sort of the reranker: the stable descending sort of
    a list whose scores are all numbers; any other list is left as it is. *)
Definition sample_sort (l : list (Result pyfloat)) : list (Result pyfloat) :=
  match mapM number_of l with
  | Some numbers => rated <$> sort_desc score numbers
  | None => l
  end.

(** A collaborator whose second answer is [nan]. *)
Definition nan_generate (n : nat) (prompt : str) : exc str :=
  match n with
  | 1 => Ok (py "nan")
  | _ => Ok (py "7")
  end.

(** The fusion of two lists that rank [A] and [B] in opposite orders. *)
Definition fused_sample : list RetrievalResult :=
  match Hybrid.rrf_fusion Hybrid.default_config [rA; rB] [rB; rA] 60 with
  | Ok out => out
  | Raise _ => []
  end.

End Samples.

(** ** The lexical index, continued: statistics ([retrieval/bm25_index.py]) *)

Module BM25Stats.

Import BM25.

(** The dictionary [get_index_stats] returns. *)
Record IndexStats : Type := {
  num_documents : nat;
  avg_doc_length : Q;
  total_tokens : nat
}.

(** [sum(len(tokens) for tokens in corpus)]. *)
Definition token_count (corpus : list (list str)) : nat :=
  fold_left (fun total tokens => (total + length tokens)%nat) corpus 0%nat.

Section Stats.

(** The rounding of a quotient to a double. *)
Variable round : Q -> Q.

(** [total_tokens / len(self._chunks)] divides two [int]s: the result is
    the double nearest to the quotient. *)
Definition get_index_stats (self : BM25Index) : IndexStats :=
  if negb (truthy (_chunks self)) then
    {| num_documents := 0; avg_doc_length := 0; total_tokens := 0 |}
  else
    let total_tokens := token_count (_tokenized_corpus self) in
    {| num_documents := length (_chunks self);
       avg_doc_length :=
         round (inject_Z (Z.of_nat total_tokens) / inject_Z (len (_chunks self)));
       total_tokens := total_tokens |}.

End Stats.

End BM25Stats.

(** ** The hybrid retriever ([retrieval/hybrid_retriever.py]) *)

Module HybridRetriever.

Import Retrieval BM25 Hybrid.

(** The order of first appearance: the keys [K] are the ids of [P], each
    once, and a key in front of another one occurs in [P] before every
    occurrence of the other. *)
Definition first_seen (K P : list str) : Prop :=
  NoDup K /\
  (forall id, id ∈ K <-> id ∈ P) /\
  (forall i j a b, (i < j)%nat -> K !! i = Some a -> K !! j = Some b ->
     exists p, P !! p = Some a /\ forall q, P !! q = Some b -> (p < q)%nat).

(** [top_k or self.config.final_top_k]. *)
Definition final_k (config : HybridConfig) (top_k : option Z) : Z :=
  match top_k with
  | Some k => if (k =? 0)%Z then final_top_k config else k
  | None => final_top_k config
  end.

Section Retrieve.

Variable okapi_score : BM25Okapi -> list str -> list str -> Q.

(** [_vector_search]: the query to the vector store. The method catches
    every exception of the store and of its own conversion and returns the
    empty list then, so it is a function of the query and of the number of
    results asked for. *)
Variable _vector_search : str -> Z -> list RetrievalResult.

Variable config : HybridConfig.

Definition retrieve (bm25_index : BM25Index) (query : str) (top_k : option Z)
    : exc (list RetrievalResult) :=
  let final_k := final_k config top_k in
  let* bm25_results := search okapi_score bm25_index query (top_k_bm25 config) in
  let vector_results := _vector_search query (top_k_vector config) in
  let* merged := rrf_fusion config bm25_results vector_results (rrf_k config) in
  Ok (slice_to merged final_k).

End Retrieve.

(** The dictionary [get_retrieval_stats] returns. *)
Record RetrievalStats : Type := {
  bm25_count : nat;
  vector_count : nat;
  merged_count : nat;
  overlap_count : nat;
  bm25_only : nat;
  vector_only : nat;
  avg_bm25_score : Q;
  avg_vector_score : Q
}.

(** [{r["chunk_id"] for r in results}]. *)
Definition id_set (results : list RetrievalResult) : gset str :=
  list_to_set (chunk_id <$> results).

(** [sum(r["score"] for r in results) / len(results) if results else 0]. *)
Definition avg_score (results : list RetrievalResult) : Q :=
  if truthy results
  then (fold_left Qplus (score <$> results) 0 / inject_Z (len results))%Q
  else 0.

Definition get_retrieval_stats (bm25_results vector_results merged_results
    : list RetrievalResult) : RetrievalStats :=
  let bm25_ids := id_set bm25_results in
  let vector_ids := id_set vector_results in
  {| bm25_count := length bm25_results;
     vector_count := length vector_results;
     merged_count := length merged_results;
     overlap_count := size (bm25_ids ∩ vector_ids);
     bm25_only := size (bm25_ids ∖ vector_ids);
     vector_only := size (vector_ids ∖ bm25_ids);
     avg_bm25_score := avg_score bm25_results;
     avg_vector_score := avg_score vector_results |}.

End HybridRetriever.

(** ** What a pattern matches

    The meaning of a pattern, independent of the matcher: [steps r s s'] when
    [r] can take the position [s] to the position [s']. *)

Module ReSpec.

Inductive steps : regex -> pos -> pos -> Prop :=
  | steps_eps s : steps Eps s s
  | steps_chr p b c t g : p c = true -> steps (Chr p) (Pos b (c :: t) g) (Pos (Some c) t g)
  | steps_seq r1 r2 s s1 s2 : steps r1 s s1 -> steps r2 s1 s2 -> steps (Seq r1 r2) s s2
  | steps_alt_l r1 r2 s s1 : steps r1 s s1 -> steps (Alt r1 r2) s s1
  | steps_alt_r r1 r2 s s1 : steps r2 s s1 -> steps (Alt r1 r2) s s1
  | steps_star_stop r s : steps (Star r) s s
  | steps_star_more r s s1 s2 :
      steps r s s1 -> steps (Star r) s1 s2 -> steps (Star r) s s2
  | steps_group r s s1 :
      steps r s s1 ->
      steps (Group r) s
        (Pos (before s1) (rest s1)
             (Some (take (length (rest s) - length (rest s1)) (rest s))))
  | steps_bol s :
      match before s with None => True | Some c => is_nl c = true end ->
      steps Bol s s
  | steps_eol s :
      match rest s with [] => True | c :: _ => is_nl c = true end ->
      steps Eol s s
  | steps_wordb s :
      xorb (match before s with Some c => isword c | None => false end)
           (match rest s with c :: _ => isword c | [] => false end) = true ->
      steps WordB s s.

(** Every character class of the pattern lies within [P]. *)
Fixpoint classes_within (P : ascii -> bool) (r : regex) : Prop :=
  match r with
  | Chr p => forall c, p c = true -> P c = true
  | Seq r1 r2 | Alt r1 r2 => classes_within P r1 /\ classes_within P r2
  | Star r' | Group r' => classes_within P r'
  | Eps | Bol | Eol | WordB => True
  end.

End ReSpec.

(** ** Python strings, continued *)

Module PyJoin.

(** [sep.join(parts)]. *)
Fixpoint join (sep : str) (parts : list str) : str :=
  match parts with
  | [] => []
  | p :: ps =>
      match ps with
      | [] => p
      | _ :: _ => p ++ sep ++ join sep ps
      end
  end.

(** Where line [idx] of [lines] starts in the text the lines were split
    from: every earlier line and its line feed come before it. *)
Definition line_start (lines : list str) (idx : nat) : nat :=
  sum_list ((fun line => length line + 1) <$> take idx lines).

End PyJoin.

(** ** The chunker, continued: the labels of its chunks *)

Module ChunkerSpec.

Import Chunking.

(** The labels a chunk of the chunker can carry: the default label, the
    label of the text in front of the first heading, and the keys of
    [SECTION_PATTERNS]. *)
Definition chunk_labels : list str :=
  py "body" :: py "preamble" :: SECTION_PATTERNS.*1.

(** An outcome of the splitting stage all of whose chunks carry [section]. *)
Definition labelled (section : str) (outcome : exc (list (str * str))) : Prop :=
  match outcome with
  | Ok chunks => Forall (fun c => c.2 = section) chunks
  | Raise _ => True
  end.

End ChunkerSpec.

(** ** Semantic tags ([chunking/metadata_enricher.py], continued) *)

Module Tagging.

Import Chunking Enricher PyJoin.

Definition with_tags (m : ChunkMetadata) (tags : list str) : ChunkMetadata :=
  {| source := source m; page := page m; section := section m;
     chunk_index := chunk_index m; parent_chunk_id := parent_chunk_id m;
     overlap_with_prev := overlap_with_prev m;
     overlap_with_next := overlap_with_next m; semantic_tags := tags |}.

(** [l[a:b]] for non-negative positions, on any list. *)
Definition slice_list {A} (l : list A) (a b : nat) : list A := take (b - a) (drop a l).

(** The prompt of [_build_tagging_prompt]. *)
Definition _build_tagging_prompt (chunks : list Chunk) : str :=
  let chunks_text :=
    join (nl ++ nl)
      (imap (fun i chunk =>
               py "[Chunk " ++ str_of_nat i ++ py "]" ++ nl
               ++ take 500 (text chunk) ++ py "...")
            chunks) in
  py "Analyze the following text chunks from an academic paper and generate 2-4 semantic tags for each chunk."
  ++ nl
  ++ py "Tags should capture the main topics, concepts, or themes discussed." ++ nl
  ++ nl
  ++ chunks_text ++ nl
  ++ nl
  ++ py "Respond in this exact format for each chunk:" ++ nl
  ++ py "Chunk 0: tag1, tag2, tag3" ++ nl
  ++ py "Chunk 1: tag1, tag2" ++ nl
  ++ py "..." ++ nl.

(** A pattern without its groups. *)
Fixpoint erase (r : regex) : regex :=
  match r with
  | Seq r1 r2 => Seq (erase r1) (erase r2)
  | Alt r1 r2 => Alt (erase r1) (erase r2)
  | Star r' => Star (erase r')
  | Group r' => erase r'
  | _ => r
  end.

(** Two positions at the same place of the same text. *)
Definition same_place (s s' : pos) : Prop :=
  before s = before s' /\ rest s = rest s'.

(** Two outcomes of the matcher that agree but for the group. *)
Definition same_outcome (o o' : option pos) : Prop :=
  match o, o' with
  | Some m, Some m' => same_place m m'
  | None, None => True
  | _, _ => False
  end.

(** [.], any character but a line feed. *)
Definition dot : regex := Chr (fun c => negb (is_nl c)).

(** [Chunk\s*(\d+):\s*(.+)], case-insensitive. The matcher records one
    group, so the pattern is written twice, once for each group of the
    source; the two patterns differ in the place of the group only, and
    match the same texts in the same way. *)
Definition tag_line (first second : regex -> regex) : regex :=
  seqs [lit (py "chunk"); spaces; first (Plus (Chr isdecimal)); lit (py ":"); spaces;
        second (Plus dot)].

Definition tag_line_index : regex := tag_line Group (fun r => r).
Definition tag_line_tags : regex := tag_line (fun r => r) Group.

(** One line of the response: the index and the tags it gives, when it
    matches ([int] of a digit string as in [_extract_page_number]). *)
Definition parse_line (line : str) : option (Z * list str) :=
  match re_match tag_line_index line, re_match tag_line_tags line with
  | Some m1, Some m2 =>
      Some (int_of_digits (default [] (group1 m1)),
            map strip (split (default [] (group1 m2)) (py ",")))
  | _, _ => None
  end.

(** The first loop of [_parse_tags_response]. *)
Definition read_lines (lines : list str) (tags_map : gmap Z (list str)) : gmap Z (list str) :=
  fold_left (fun tags_map line =>
               match parse_line line with
               | Some (idx, tags) => <[idx := tags]> tags_map
               | None => tags_map
               end)
            lines tags_map.

(** The second loop: the missing indexes get no tag. *)
Definition fill_missing (num_chunks : nat) (tags_map : gmap Z (list str))
    : gmap Z (list str) :=
  fold_left (fun tags_map i =>
               match tags_map !! Z.of_nat i with
               | None => <[Z.of_nat i := []]> tags_map
               | Some _ => tags_map
               end)
            (seq 0 num_chunks) tags_map.

Definition _parse_tags_response (response : str) (num_chunks : nat) : gmap Z (list str) :=
  fill_missing num_chunks (read_lines (split response nl) ∅).

(** [{i: [] for i in range(n)}]. *)
Definition no_tags (n : nat) : gmap Z (list str) :=
  list_to_map ((fun i => (Z.of_nat i, [])) <$> seq 0 n).

Section Tags.

Variable config : EnricherConfig.

(** The language-model collaborator, when there is one: the answer to the
    [n]-th call of [generate]. *)
Variable llm_client : option (nat -> str -> exc str).

(** [_tag_batch] when it makes the [n]-th call of the collaborator. *)
Definition _tag_batch (n : nat) (chunks : list Chunk) : exc (list Chunk) :=
  match llm_client with
  | None => Ok chunks
  | Some generate =>
      let prompt := _build_tagging_prompt chunks in
      let* tags_map :=
        try_except
          (let* response := generate n prompt in
           Ok (_parse_tags_response response (length chunks)))
          (fun _ => Ok (no_tags (length chunks))) in
      Ok (imap (fun i chunk =>
                  {| id := id chunk; text := text chunk;
                     metadata := with_tags (metadata chunk)
                                   (default [] (tags_map !! Z.of_nat i)) |})
               chunks)
  end.

(** The loop of [enrich_with_semantic_tags] over the batch starts; the
    batch at the head of [starts] makes the [n]-th call. *)
Fixpoint tag_batches (chunks : list Chunk) (batch_size : Z) (n : nat) (starts : list Z)
    : exc (list Chunk) :=
  match starts with
  | [] => Ok []
  | i :: starts' =>
      let batch := slice_list chunks (Z.to_nat i) (Z.to_nat (i + batch_size)) in
      let* tagged_batch := _tag_batch n batch in
      let* result := tag_batches chunks batch_size (S n) starts' in
      Ok (tagged_batch ++ result)
  end.

Definition enrich_with_semantic_tags (chunks : list Chunk) (batch_size : Z)
    : exc (list Chunk) :=
  if negb (semantic_tagging config) || negb (bool_decide (is_Some llm_client))
  then Ok chunks
  else
    let* starts := range0 (len chunks) batch_size in
    tag_batches chunks batch_size 0 starts.

End Tags.

End Tagging.

(** ** The overlap manager ([chunking/overlap_manager.py]) *)

Module OverlapManager.

Import Chunking.

Record OverlapConfig : Type := {
  overlap_percent : Z;
  min_overlap_chars : Z;
  max_overlap_chars : Z
}.

Definition default_config : OverlapConfig :=
  {| overlap_percent := 20; min_overlap_chars := 50; max_overlap_chars := 500 |}.

(** [int(x)] of a number: its integer part, towards zero. *)
Definition py_int (x : Q) : Z := Z.quot (Qnum x) (Zpos (Qden x)).

(** [s.find(c)] and [s.rfind(c)] for a character: the first and the last
    position of [c] in [s], counted from [i]; [-1] when there is none. *)
Fixpoint find_from (c : ascii) (s : str) (i : Z) : Z :=
  match s with
  | [] => -1
  | d :: s' => if Ascii.eqb d c then i else find_from c s' (i + 1)
  end.

Definition find (s : str) (c : ascii) : Z := find_from c s 0.

Fixpoint rfind_from (c : ascii) (s : str) (i : Z) : Z :=
  match s with
  | [] => -1
  | d :: s' =>
      let later := rfind_from c s' (i + 1) in
      if (later =? -1)%Z then (if Ascii.eqb d c then i else -1) else later
  end.

Definition rfind (s : str) (c : ascii) : Z := rfind_from c s 0.

Section Manager.

Local Open Scope Z_scope.

Variable config : OverlapConfig.

(** The average of the two lengths is a float in the source; the numbers
    are exact here. *)
Definition _calculate_overlap_size (text_a text_b : str) (overlap_percent : Z) : Z :=
  let avg_size := (inject_Z (len text_a + len text_b) / 2)%Q in
  let overlap := py_int (avg_size * inject_Z overlap_percent / 100)%Q in
  let overlap := Z.max overlap (min_overlap_chars config) in
  let overlap := Z.min overlap (max_overlap_chars config) in
  let min_size := Z.min (len text_a) (len text_b) in
  Z.min overlap (min_size / 2).

Definition calculate_overlap (chunk_a chunk_b : Chunk) : Z :=
  let len_a := len (text chunk_a) in
  let len_b := len (text chunk_b) in
  let avg_size := (inject_Z (len_a + len_b) / 2)%Q in
  let overlap := py_int (avg_size * inject_Z (overlap_percent config) / 100)%Q in
  let overlap := Z.max overlap (min_overlap_chars config) in
  let overlap := Z.min overlap (max_overlap_chars config) in
  let min_chunk_size := Z.min len_a len_b in
  Z.min overlap (min_chunk_size / 2).

Definition _get_overlap_content (text : str) (overlap_size : Z) (from_end : bool) : str :=
  if overlap_size <=? 0 then []
  else if from_end then
    let raw_content := slice_from text (- overlap_size) in
    let space_idx := find raw_content " "%char in
    if (0 <? space_idx) && (space_idx <? len raw_content / 2)
    then slice_from raw_content (space_idx + 1)
    else raw_content
  else
    let raw_content := slice_to text overlap_size in
    let space_idx := rfind raw_content " "%char in
    if len raw_content / 2 <? space_idx
    then slice_to raw_content space_idx
    else raw_content.

(** [new_text] is [None] when the argument is left out. *)
Definition _copy_chunk_with_overlap (chunk : Chunk) (overlap_prev overlap_next : Z)
    (new_text : option str) : Chunk :=
  {| id := id chunk;
     text := default (text chunk) new_text;
     metadata :=
       {| source := source (metadata chunk);
          page := page (metadata chunk);
          section := section (metadata chunk);
          chunk_index := chunk_index (metadata chunk);
          parent_chunk_id := parent_chunk_id (metadata chunk);
          overlap_with_prev := overlap_prev;
          overlap_with_next := overlap_next;
          semantic_tags := semantic_tags (metadata chunk) |} |}.

Definition apply_overlap (chunks : list Chunk) (overlap_percent_arg : option Z)
    : list Chunk :=
  match chunks with
  | [] => []
  | [chunk] => [_copy_chunk_with_overlap chunk 0 0 None]
  | _ =>
      let effective_percent := default (overlap_percent config) overlap_percent_arg in
      imap (fun i chunk =>
              let '(new_text, overlap_prev) :=
                match i with
                | O => (text chunk, 0)
                | S j =>
                    match chunks !! j with
                    | Some prev_chunk =>
                        let overlap_size :=
                          _calculate_overlap_size (text prev_chunk) (text chunk)
                            effective_percent in
                        if 0 <? overlap_size then
                          let overlap_content :=
                            _get_overlap_content (text prev_chunk) overlap_size true in
                          if negb (startswith (text chunk) (strip overlap_content))
                          then (rstrip overlap_content ++ py " " ++ text chunk,
                                len overlap_content)
                          else (text chunk, 0)
                        else (text chunk, 0)
                    | None => (text chunk, 0)
                    end
                end in
              let overlap_next :=
                if Z.of_nat i <? len chunks - 1 then
                  match chunks !! S i with
                  | Some next_chunk =>
                      _calculate_overlap_size (text chunk) (text next_chunk)
                        effective_percent
                  | None => 0
                  end
                else 0 in
              _copy_chunk_with_overlap chunk overlap_prev overlap_next (Some new_text))
           chunks
  end.

End Manager.

End OverlapManager.

(** * Part II: properties *)

(** ** Python strings *)

Module PyFacts.

Example split_paragraphs :
  split (py "a. b. c") (py ". ") = [py "a"; py "b"; py "c"].
Proof. reflexivity. Qed.

Example split_overlapping : split (py "aaa") (py "aa") = [py ""; py "a"].
Proof. reflexivity. Qed.

Example split_trailing : split (py "a, ") (py ", ") = [py "a"; py ""].
Proof. reflexivity. Qed.

Example strip_both : strip (py "  a b ") = py "a b".
Proof. reflexivity. Qed.

Example words_runs : words (py " The  cat sat ") = [py "The"; py "cat"; py "sat"].
Proof. reflexivity. Qed.

Example str_of_nat_12 : str_of_nat 12 = py "12" /\ str_of_nat 0 = py "0".
Proof. split; reflexivity. Qed.

Example lower_mixed : lower (py "AbC d") = py "abc d".
Proof. reflexivity. Qed.

Lemma len_nonneg {A} (l : list A) : (0 <= len l)%Z.
Proof. unfold len. lia. Qed.

Lemma len_app {A} (l k : list A) : len (l ++ k) = (len l + len k)%Z.
Proof. unfold len. rewrite length_app. lia. Qed.

Lemma lstrip_length (s : str) : length (lstrip s) <= length s.
Proof.
  induction s as [|c s IH]; simpl; [done|].
  destruct (isspace c); simpl; lia.
Qed.

Lemma strip_length (s : str) : length (strip s) <= length s.
Proof.
  unfold strip, rstrip. rewrite length_rev.
  etrans; [apply lstrip_length|]. rewrite length_rev. apply lstrip_length.
Qed.

Lemma len_strip (s : str) : (len (strip s) <= len s)%Z.
Proof. unfold len. pose proof (strip_length s). lia. Qed.

Lemma startswith_spec (s p : str) : startswith s p = true <-> exists t, s = p ++ t.
Proof.
  revert s. induction p as [|c p IH]; intros s; simpl.
  - destruct s; (split; [intros _; by eexists|done]).
  - destruct s as [|d s]; [split; [done|by intros [t Ht]]|].
    simpl. destruct (Ascii.eqb c d) eqn:E; simpl.
    + apply Ascii.eqb_eq in E as ->. rewrite IH. split.
      * intros [t ->]. by exists t.
      * intros [t Ht]. injection Ht as ->. by exists t.
    + split; [done|]. intros [t Ht]. injection Ht as -> _.
      by rewrite Ascii.eqb_refl in E.
Qed.

Lemma contains_spec (s t : str) : contains s t = true <-> exists a b, s = a ++ t ++ b.
Proof.
  induction s as [|c s IH].
  - change (contains [] t) with (startswith [] t || false).
    rewrite orb_false_r, startswith_spec. split.
    + intros [b Hb]. by exists [], b.
    + intros [a [b Hab]]. destruct a; [by exists b|done].
  - change (contains (c :: s) t) with (startswith (c :: s) t || contains s t).
    rewrite orb_true_iff, startswith_spec, IH. split.
    + intros [[b Hb]|[a [b ->]]]; [by exists [], b|by exists (c :: a), b].
    + intros [[|c' a] [b Hab]]; [left; by exists b|].
      right. injection Hab as -> ->. by exists a, b.
Qed.

(** A substring of a text contains only what the text contains. *)
Lemma contains_infix (s part t : str) (a b : str) :
  s = a ++ part ++ b -> contains part t = true -> contains s t = true.
Proof.
  intros -> [a' [b' ->]]%contains_spec. apply contains_spec.
  exists (a ++ a'), (b' ++ b). by rewrite <- !app_assoc.
Qed.

(** *** [split] *)

Section Split.

Variable sep : str.
Hypothesis sep_nonempty : sep <> [].

Lemma split_go_nonempty (skip : nat) (s : str) : split_go sep skip s <> [].
Proof.
  revert skip. induction s as [|c s IH]; intros skip; simpl; [done|].
  destruct skip; [|apply IH]. destruct (startswith (c :: s) sep); [done|].
  by destruct (split_go sep 0 s).
Qed.

(** The parts and the separators between them make up the text. *)
Lemma split_go_length (skip : nat) (s : str) :
  skip <= length s ->
  sum_list (length <$> split_go sep skip s)
  + length sep * (length (split_go sep skip s) - 1) = length s - skip.
Proof.
  revert skip. induction s as [|c s IH]; intros skip Hskip; simpl in *.
  - destruct skip; simpl; lia.
  - destruct skip as [|skip]; [|rewrite IH; lia].
    destruct (startswith (c :: s) sep) eqn:E.
    + apply startswith_spec in E as [t Ht].
      assert (Hlen : length sep <= S (length s)).
      { apply (f_equal length) in Ht. rewrite length_app in Ht. simpl in Ht. lia. }
      assert (0 < length sep) by (destruct sep; [done|simpl; lia]).
      pose proof (split_go_nonempty (length sep - 1) s) as Hne.
      specialize (IH (length sep - 1)). simpl.
      destruct (split_go sep (length sep - 1) s) as [|p ps]; [done|].
      simpl in *. nia.
    + pose proof (split_go_nonempty 0 s) as Hne. specialize (IH 0).
      destruct (split_go sep 0 s) as [|p ps]; [done|]. simpl in *. lia.
Qed.

Lemma split_part_shorter (s part : str) :
  1 < length (split s sep) -> part ∈ split s sep -> length part < length s.
Proof.
  intros Hn Hp. unfold split in *.
  pose proof (split_go_length 0 s ltac:(lia)) as Hlen.
  assert (0 < length sep) by (destruct sep; [done|simpl; lia]).
  assert (length part <= sum_list (length <$> split_go sep 0 s)).
  { clear -Hp. induction Hp; rewrite fmap_cons; simpl; lia. }
  nia.
Qed.

(** The part being read is a prefix of what is left of the text. *)
Lemma split_go_head (skip : nat) (s p : str) (ps : list str) :
  split_go sep skip s = p :: ps -> exists b, drop skip s = p ++ b.
Proof.
  revert skip p ps. induction s as [|c s IH]; intros skip p ps; simpl.
  - intros [= <- <-]. exists []. by destruct skip.
  - destruct skip as [|skip]; [|apply IH].
    destruct (startswith (c :: s) sep).
    + intros [= <- <-]. by exists (c :: s).
    + destruct (split_go sep 0 s) as [|p' ps'] eqn:E.
      * intros [= <- <-]. by exists s.
      * intros [= <- <-]. destruct (IH 0 p' ps' E) as [b Hb].
        exists b. rewrite drop_0 in Hb |- *. simpl. congruence.
Qed.

Lemma contains_nil_false (t : str) : t <> [] -> contains [] t = false.
Proof. by destruct t. Qed.

(** Every part is a piece of the text and holds no separator. *)
Lemma split_go_parts (skip : nat) (s part : str) :
  part ∈ split_go sep skip s ->
  (exists a b, s = a ++ part ++ b) /\ contains part sep = false.
Proof.
  revert skip part. induction s as [|c s IH]; intros skip part; simpl.
  - intros ->%list_elem_of_singleton. split; [by exists [], []|].
    by apply contains_nil_false.
  - destruct skip as [|skip].
    2:{ intros Hp. destruct (IH skip part Hp) as [[a [b ->]] Hc].
        split; [by exists (c :: a), b|done]. }
    destruct (startswith (c :: s) sep) eqn:E.
    + intros [->|Hp]%elem_of_cons.
      * split; [by exists [], (c :: s)|by apply contains_nil_false].
      * destruct (IH _ part Hp) as [[a [b ->]] Hc].
        split; [by exists (c :: a), b|done].
    + destruct (split_go sep 0 s) as [|p ps] eqn:Ego.
      { by apply split_go_nonempty in Ego. }
      intros [->|Hp]%elem_of_cons.
      * destruct (split_go_head 0 s p ps Ego) as [b Hb]. rewrite drop_0 in Hb.
        destruct (IH 0 p) as [_ Hc]; [rewrite Ego; apply list_elem_of_here|].
        split; [exists [], b; by rewrite Hb|].
        change (contains (c :: p) sep) with (startswith (c :: p) sep || contains p sep).
        rewrite Hc, orb_false_r.
        destruct (startswith (c :: p) sep) eqn:E'; [|done].
        apply startswith_spec in E' as [t Ht].
        assert (startswith (c :: s) sep = true); [|congruence].
        apply startswith_spec. exists (t ++ b).
        by rewrite Hb, app_comm_cons, Ht, <- app_assoc.
      * destruct (IH 0 part) as [[a [b ->]] Hc];
          [rewrite Ego; by apply list_elem_of_further|].
        split; [by exists (c :: a), b|done].
Qed.

Lemma split_parts (s part : str) :
  part ∈ split s sep ->
  (exists a b, s = a ++ part ++ b) /\ contains part sep = false.
Proof. apply split_go_parts. Qed.

(** A text that splits into several parts contains the separator. *)
Lemma split_go_several (s : str) :
  1 < length (split_go sep 0 s) -> contains s sep = true.
Proof.
  induction s as [|c s IH]; simpl; [lia|].
  change (contains (c :: s) sep) with (startswith (c :: s) sep || contains s sep).
  destruct (startswith (c :: s) sep); [done|]. simpl.
  destruct (split_go sep 0 s) as [|p ps] eqn:E; simpl; [lia|].
  intros H. apply IH. simpl. lia.
Qed.

End Split.

End PyFacts.

(** ** The chunker *)

Module ChunkingFacts.

Import PyFacts Chunking.

Section Bounds.

Local Open Scope Z_scope.

Variable config : ChunkConfig.

Local Abbreviation cs := (chunk_size config).

Lemma slack_nonneg : 0 <= slack config.
Proof. unfold slack. destruct (1 <=? min_chunk_size config) eqn:E; lia. Qed.

Lemma within_mono (b1 b2 : Z) (r : exc (list (str * str))) :
  b1 <= b2 -> within config b1 r -> within config b2 r.
Proof.
  intros Hb. destruct r as [chunks|e]; simpl; [|done].
  intros H. eapply Forall_impl; [exact H|]. intros c Hc. simpl in Hc. lia.
Qed.

(** *** [_hard_split] *)

Lemma hard_split_within (text section : str) :
  within config cs (_hard_split config text section).
Proof.
  unfold _hard_split, range0.
  destruct (cs =? 0) eqn:E0; simpl; [split; [done|lia]|].
  destruct (cs <? 0) eqn:E1; simpl; [constructor|].
  apply Forall_forall. intros [t s] Hin.
  apply list_elem_of_omap in Hin as [i [_ Hi]].
  destruct (truthy _); [|done]. injection Hi as <- <-. simpl.
  etrans; [apply len_strip|]. unfold len, slice.
  rewrite length_take. lia.
Qed.

(** *** [_merge_splits] *)

Section Merge.

Variable split_again : str -> str -> exc (list (str * str)).
Variable separator section : str.
Variable bound : Z.
Hypothesis bound_ge : cs <= bound.
Hypothesis separator_short : len separator <= 2.

Lemma merge_step_ok (st : list (str * str) * str) (part : str) :
  loop_ok config bound st ->
  (cs < len part -> within config bound (split_again part section)) ->
  loop_within config bound (merge_step config split_again separator section st part).
Proof.
  destruct st as [chunks current]. intros [Hchunks Hcur] Hrec. simpl in *.
  destruct (len _ <=? cs) eqn:Etest; simpl.
  { split; [done|]. right. simpl. lia. }
  set (chunks' := if truthy current && (min_chunk_size config <=? len current)
                  then chunks ++ [(strip current, section)] else chunks).
  assert (Hchunks' : Forall (fun c => len c.1 <= bound) chunks').
  { unfold chunks'. destruct (truthy current && _) eqn:E; [|done].
    apply Forall_app. split; [done|]. constructor; [|constructor]. simpl.
    destruct Hcur as [->|Hcur]; [done|]. pose proof (len_strip current). lia. }
  destruct (cs <? len part) eqn:Epart; simpl.
  - specialize (Hrec ltac:(lia)).
    destruct (split_again part section) as [sub|e]; simpl in *; [|done].
    split; simpl; [|by left]. apply Forall_app. done.
  - split; simpl; [done|]. right. lia.
Qed.

Lemma merge_loop_ok (parts : list str) (st : list (str * str) * str) :
  loop_ok config bound st ->
  Forall (fun part => cs < len part -> within config bound (split_again part section)) parts ->
  loop_within config bound (merge_loop config split_again separator section st parts).
Proof.
  intros Hst Hparts. revert st Hst.
  induction Hparts as [|part parts Hpart _ IH]; intros st Hst; simpl; [done|].
  pose proof (merge_step_ok st part Hst Hpart) as Hstep.
  destruct (merge_step config split_again separator section st part) as [st'|e];
    simpl in *; [by apply IH|done].
Qed.

Lemma merge_finish_ok (st : list (str * str) * str) :
  loop_ok config bound st ->
  Forall (fun c => len c.1 <= bound + slack config)
         (merge_finish config separator section st).
Proof.
  destruct st as [chunks current]. intros [Hchunks Hcur]. simpl in *.
  pose proof slack_nonneg as Hslack.
  assert (Hweak : Forall (fun c : str * str => len c.1 <= bound + slack config) chunks).
  { eapply Forall_impl; [exact Hchunks|]. intros c Hc. simpl in Hc. lia. }
  destruct (truthy current && (min_chunk_size config <=? len (strip current))) eqn:E1.
  { apply Forall_app. split; [done|]. constructor; [|constructor]. simpl.
    apply andb_true_iff in E1 as [Ht _].
    destruct Hcur as [->|Hcur]; [done|]. pose proof (len_strip current). lia. }
  destruct (truthy current && truthy chunks) eqn:E2; [|done].
  apply andb_true_iff in E2 as [Ht Hc]. rewrite Ht in E1. simpl in E1.
  apply Z.leb_gt in E1.
  destruct (last chunks) as [[prev_text prev_section]|] eqn:Elast; [|done].
  assert (Hstrip : 0 <= len (strip current)) by apply len_nonneg.
  assert (Hs : slack config = min_chunk_size config + 1).
  { unfold slack. rewrite (proj2 (Z.leb_le 1 _)); lia. }
  apply Forall_app. split.
  - rewrite removelast_firstn_len. by apply Forall_take.
  - constructor; [|constructor]. simpl.
    apply last_Some_elem_of in Elast.
    rewrite Forall_forall in Hchunks. specialize (Hchunks _ Elast). simpl in Hchunks.
    rewrite !len_app. lia.
Qed.

Lemma merge_splits_within (parts : list str) :
  Forall (fun part => cs < len part -> within config bound (split_again part section)) parts ->
  within config (bound + slack config)
         (_merge_splits config split_again parts separator section).
Proof.
  intros Hparts. unfold _merge_splits.
  pose proof (merge_loop_ok parts ([], []) ltac:(split; [constructor|by left]) Hparts) as H.
  destruct (merge_loop config split_again separator section ([], []) parts) as [st|e];
    simpl in *; [by apply merge_finish_ok|done].
Qed.

End Merge.

(** *** [_recursive_split] *)

Lemma filter_length_le {A} (P Q : A -> Prop) `{!forall x, Decision (P x)}
    `{!forall x, Decision (Q x)} (l : list A) :
  (forall x, P x -> Q x) -> (length (filter P l) <= length (filter Q l))%nat.
Proof.
  intros HPQ. induction l as [|x l IH]; [done|].
  rewrite !filter_cons. destruct (decide (P x)) as [HP|HP].
  - rewrite decide_True by auto. simpl. lia.
  - destruct (decide (Q x)); simpl; lia.
Qed.

Lemma filter_length_lt {A} (P Q : A -> Prop) `{!forall x, Decision (P x)}
    `{!forall x, Decision (Q x)} (l : list A) (x0 : A) :
  (forall x, P x -> Q x) -> x0 ∈ l -> Q x0 -> ~ P x0 ->
  (length (filter P l) < length (filter Q l))%nat.
Proof.
  intros HPQ Hin HQ HP. induction Hin as [x0 l|x0 y l Hin IH].
  - rewrite !filter_cons. rewrite (decide_False (P:=P x0)), (decide_True (P:=Q x0)) by done.
    simpl.
    pose proof (filter_length_le P Q l HPQ). lia.
  - specialize (IH HQ HP). rewrite !filter_cons. destruct (decide (P y)).
    + rewrite decide_True by auto. simpl. lia.
    + destruct (decide (Q y)); simpl; lia.
Qed.

Lemma separators_in_le (text : str) : (separators_in text <= 5)%nat.
Proof.
  unfold separators_in. etrans; [apply length_filter|]. unfold separators. simpl. lia.
Qed.

Lemma separators_shape (separator : str) :
  separator ∈ separators -> separator <> [] /\ len separator <= 2.
Proof.
  unfold separators. rewrite !elem_of_cons, elem_of_nil.
  intros [->|[->|[->|[->|[->|[]]]]]]; split; try done; unfold len; simpl; lia.
Qed.

(** A part of a split into several parts holds fewer kinds of separators
    than the text. *)
Lemma separators_in_part (text separator part : str) :
  separator ∈ separators ->
  (1 < length (split text separator))%nat ->
  part ∈ split text separator ->
  (separators_in part < separators_in text)%nat.
Proof.
  intros Hsep Hn Hpart.
  destruct (separators_shape separator Hsep) as [Hne _].
  destruct (split_parts separator Hne text part Hpart) as [[a [b Hab]] Hnc].
  unfold separators_in. apply (filter_length_lt _ _ _ separator).
  - intros t Ht. by eapply contains_infix.
  - done.
  - by apply split_go_several.
  - congruence.
Qed.

Section Recursion.

Variable split_again : str -> str -> exc (list (str * str)).
Variable text : str.

Hypothesis split_again_within : forall part section,
  (length part < length text)%nat ->
  within config (cs + slack config * Z.of_nat (separators_in part)) (split_again part section).

Lemma try_separators_within (seps : list str) (section : str) :
  (forall separator, separator ∈ seps -> separator ∈ separators) ->
  within config (cs + slack config * Z.of_nat (separators_in text))
         (try_separators config split_again seps text section).
Proof.
  pose proof slack_nonneg as Hslack.
  induction seps as [|separator seps IH]; intros Hseps; simpl.
  - eapply within_mono; [|apply hard_split_within]. nia.
  - assert (IH' := IH ltac:(intros s Hs; apply Hseps; by apply list_elem_of_further)).
    destruct (1 <? length (split text separator))%nat eqn:En; [|exact IH'].
    apply Nat.ltb_lt in En.
    assert (Hsep : separator ∈ separators) by (apply Hseps; apply list_elem_of_here).
    destruct (separators_shape separator Hsep) as [Hne Hshort].
    pose proof (merge_splits_within split_again separator section
                  (cs + slack config * (Z.of_nat (separators_in text) - 1))) as Hmerge.
    assert (Hn1 : (1 <= separators_in text)%nat).
    { destruct (split text separator) as [|p ps] eqn:E; [simpl in En; lia|].
      pose proof (separators_in_part text separator p Hsep) as H.
      rewrite E in H. specialize (H En ltac:(apply list_elem_of_here)). lia. }
    specialize (Hmerge ltac:(nia) Hshort (split text separator)).
    assert (Hparts : Forall (fun part => cs < len part ->
              within config (cs + slack config * (Z.of_nat (separators_in text) - 1))
                     (split_again part section)) (split text separator)).
    { apply Forall_forall. intros part Hpart _.
      pose proof (separators_in_part text separator part Hsep En Hpart) as Hlt.
      eapply within_mono; [|apply split_again_within].
      - nia.
      - by eapply split_part_shorter. }
    specialize (Hmerge Hparts).
    destruct (_merge_splits config split_again (split text separator) separator section)
      as [chunks|e]; simpl in *; [|done].
    destruct (truthy chunks); [|exact IH'].
    simpl. eapply Forall_impl; [exact Hmerge|]. intros c Hc. simpl in Hc. lia.
Qed.

End Recursion.

Lemma recursive_split_fuel_S (fuel : nat) (text section : str) :
  recursive_split_fuel config (S fuel) text section
  = if len text <=? cs
    then Ok (if truthy (strip text) then [(text, section)] else [])
    else try_separators config (recursive_split_fuel config fuel) separators text section.
Proof. reflexivity. Qed.

Lemma recursive_split_fuel_within (fuel : nat) (text section : str) :
  (length text < fuel)%nat ->
  within config (cs + slack config * Z.of_nat (separators_in text))
         (recursive_split_fuel config fuel text section).
Proof.
  pose proof slack_nonneg as Hslack.
  revert text section. induction fuel as [|fuel IH]; intros text section Hfuel; [lia|].
  rewrite recursive_split_fuel_S. destruct (len text <=? cs) eqn:E.
  - simpl. destruct (truthy (strip text)); constructor; [|constructor].
    simpl. nia.
  - apply try_separators_within; [|done].
    intros part sec Hpart. apply IH. lia.
Qed.

Lemma recursive_split_within (text section : str) :
  within config (cs + 5 * slack config) (_recursive_split config text section).
Proof.
  pose proof slack_nonneg. pose proof (separators_in_le text).
  eapply within_mono; [|apply recursive_split_fuel_within; lia]. nia.
Qed.

(** *** The raw splitting stage *)

Lemma within_app (bound : Z) (r1 r2 : exc (list (str * str))) :
  within config bound r1 -> within config bound r2 ->
  within config bound (let* a := r1 in let* b := r2 in Ok (a ++ b)).
Proof.
  destruct r1 as [a|e1]; simpl; [|done].
  destruct r2 as [b|e2]; simpl; [|done].
  intros. by apply Forall_app.
Qed.

Lemma split_sections_within (text : str) (sections : list (str * nat * nat)) :
  within config (cs + 5 * slack config) (split_sections config text sections).
Proof.
  induction sections as [|[[name start] stop] sections IH]; simpl; [constructor|].
  apply within_app; [|done].
  destruct (truthy _); [apply recursive_split_within|constructor].
Qed.

Lemma raw_chunks_within (text : str) :
  within config (cs + 5 * slack config) (raw_chunks config text).
Proof.
  unfold raw_chunks.
  destruct (truthy _); [|apply recursive_split_within].
  unfold _recursive_split_with_sections.
  apply within_app; [|apply split_sections_within].
  destruct (if section_detection config then detect_sections text else [])
    as [|[[name [|start]] stop] sections]; try constructor.
  destruct (truthy _); [apply recursive_split_within|constructor].
Qed.

End Bounds.

(** C1, as amended. The raw splitting stage raises only when [chunk_size]
    is 0. Otherwise no chunk it emits is longer than [chunk_size] plus
    [5 * (min_chunk_size + 1)]: a merge appends the remainder below the
    minimum size, with the separator, to its last chunk, once per separator
    of the hierarchy at most. With [min_chunk_size <= 0] no chunk is longer
    than [chunk_size]. The pieces of the hard split are never longer than
    [chunk_size]. *)
Theorem C1_raw_chunks_exceed_chunk_size_by_bounded_slack
    (config : ChunkConfig) (text : str) :
  match raw_chunks config text with
  | Ok chunks =>
      ((1 <= min_chunk_size config)%Z ->
       Forall (fun c => len c.1 <= chunk_size config + 5 * (min_chunk_size config + 1))%Z
              chunks) /\
      ((min_chunk_size config <= 0)%Z ->
       Forall (fun c => len c.1 <= chunk_size config)%Z chunks)
  | Raise e => e = ValueError /\ chunk_size config = 0%Z
  end /\
  (forall t section : str,
     match _hard_split config t section with
     | Ok pieces => Forall (fun c => len c.1 <= chunk_size config)%Z pieces
     | Raise e => e = ValueError /\ chunk_size config = 0%Z
     end).
Proof.
  split; [|apply hard_split_within].
  pose proof (raw_chunks_within config text) as H. unfold within in H.
  destruct (raw_chunks config text) as [chunks|e]; [|done].
  unfold slack in H. split; intros Hm.
  - by rewrite (proj2 (Z.leb_le _ _) Hm) in H.
  - rewrite (proj2 (Z.leb_gt _ _)) in H by lia.
    eapply Forall_impl; [exact H|]. intros c Hc. simpl in Hc. lia.
Qed.

(** C1 fails where a merge appends a short remainder: with chunks of 10
    characters and a minimum of 5, the first of the two chunks of this text
    has 11 characters; with the default sizes (1000 and 100) a text of 1011
    characters stays one chunk. *)
Lemma C1_appended_remainder_exceeds_chunk_size :
  (exists c rest,
     raw_chunks Samples.small_config
       (py "aaaaaaaa bb" ++ nl ++ nl ++ py "cccccccc") = Ok (c :: rest) /\
     c = (py "aaaaaaaa bb", py "body") /\
     rest = [(py "cccccccc", py "body")] /\
     (chunk_size Samples.small_config < len c.1)%Z /\
     (min_chunk_size Samples.small_config <= chunk_size Samples.small_config)%Z) /\
  raw_chunks default_config (Samples.run "a" 950 ++ py " " ++ Samples.run "b" 60)
    = Ok [(Samples.run "a" 950 ++ py " " ++ Samples.run "b" 60, py "body")] /\
  len (Samples.run "a" 950 ++ py " " ++ Samples.run "b" 60) = 1011%Z.
Proof.
  split; [|split; vm_compute; reflexivity].
  eexists _, _. split; [vm_compute; reflexivity|].
  split; [reflexivity|]. split; [reflexivity|]. split; vm_compute; congruence.
Qed.

(** C6. A buffer below the minimum size that is flushed inside the loop is
    dropped: with chunks of 10 characters and a minimum of 5, the word
    ["aa"] of ["aa bbbbbbbbb"] is in no chunk, and with the default sizes
    the first 50 characters of a text of 1041 are lost. Only the remainder
    after the loop is appended to the previous chunk. *)
Theorem C6_small_buffer_is_dropped_inside_the_loop :
  _merge_splits Samples.small_config (_recursive_split Samples.small_config)
    [py "aa"; py "bbbbbbbbb"] (py " ") (py "body") = Ok [(py "bbbbbbbbb", py "body")] /\
  raw_chunks Samples.small_config (py "aa bbbbbbbbb") = Ok [(py "bbbbbbbbb", py "body")] /\
  raw_chunks default_config (Samples.run "a" 50 ++ py " " ++ Samples.run "b" 990)
    = Ok [(Samples.run "b" 990, py "body")] /\
  _merge_splits Samples.small_config (_recursive_split Samples.small_config)
    [py "aaaaaaaa"; py "bb"] (py " ") (py "body") = Ok [(py "aaaaaaaa bb", py "body")].
Proof. repeat split; vm_compute; reflexivity. Qed.

(** *** Overlap *)

Section Overlap.

Local Open Scope Z_scope.

Variable config : ChunkConfig.

Lemma overlap_tail_len (t : str) :
  0 <= len (overlap_tail config t) <= len t /\
  (0 < overlap_chars config -> len (overlap_tail config t) <= overlap_chars config).
Proof.
  unfold overlap_tail. destruct (overlap_chars config <? len t) eqn:E.
  - apply Z.ltb_lt in E. unfold slice_from.
    destruct (- overlap_chars config <? 0) eqn:E'; unfold len in *; rewrite length_drop; lia.
  - apply Z.ltb_ge in E. unfold len in *. lia.
Qed.

Lemma apply_overlap_lookup (raw : list (str * str)) (i : nat) (t s : str) (p n : Z) :
  _apply_overlap config raw !! i = Some (t, s, p, n) ->
  exists cur,
    raw !! i = Some (cur, s) /\
    0 <= n <= len cur /\
    (raw !! S i = None -> n = 0) /\
    (0 < overlap_chars config -> n <= overlap_chars config /\ p <= overlap_chars config) /\
    match i with
    | O => p = 0 /\ t = cur
    | S j => exists prev sp, raw !! j = Some (prev, sp) /\ 0 <= p <= len prev
    end.
Proof.
  unfold _apply_overlap. rewrite list_lookup_imap.
  destruct (raw !! i) as [[cur sec]|] eqn:Ei; [|done]. simpl.
  pose proof (overlap_tail_len cur) as [Hcur Hcur'].
  assert (Hn : 0 <= (if Z.of_nat i <? len raw - 1 then len (overlap_tail config cur) else 0)
               <= len cur /\
               (raw !! S i = None ->
                (if Z.of_nat i <? len raw - 1 then len (overlap_tail config cur) else 0) = 0) /\
               (0 < overlap_chars config ->
                (if Z.of_nat i <? len raw - 1 then len (overlap_tail config cur) else 0)
                <= overlap_chars config)).
  { destruct (Z.of_nat i <? len raw - 1) eqn:E.
    - apply Z.ltb_lt in E. split; [done|]. split; [|done].
      intros Hnone. apply lookup_ge_None in Hnone. unfold len in E. lia.
    - split; [lia|]. split; [done|lia]. }
  destruct Hn as (Hn1 & Hn2 & Hn3).
  destruct i as [|j].
  - intros [= <- <- <- <-]. exists cur.
    split; [done|]. split; [done|]. split; [done|].
    split; [intros Hoc; split; [by apply Hn3|lia]|done].
  - destruct (raw !! j) as [[prev sp]|] eqn:Ej.
    2:{ apply lookup_lt_Some in Ei. apply lookup_ge_None in Ej. lia. }
    pose proof (overlap_tail_len prev) as [Hprev Hprev'].
    destruct (negb (startswith cur (overlap_tail config prev))); intros [= <- <- <- <-];
      exists cur; (split; [done|]); (split; [done|]); (split; [done|]);
      (split; [intros Hoc; split; [by apply Hn3|auto with lia]|]);
      exists prev, sp; (split; [done|lia]).
Qed.

Lemma create_chunks_lookup (rnd : nat -> str) (data : list (str * str * Z * Z))
    (src : str) (i : nat) (c : Chunk) :
  _create_chunks rnd data src !! i = Some c ->
  exists t s p n,
    data !! i = Some (t, s, p, n) /\
    text c = t /\
    metadata c = {| source := src; page := 0; section := s; chunk_index := i;
                    parent_chunk_id := None; overlap_with_prev := p;
                    overlap_with_next := n; semantic_tags := [] |}.
Proof.
  unfold _create_chunks. rewrite list_lookup_imap.
  destruct (data !! i) as [[[[t s] p] n]|]; [|done].
  simpl. intros [= <-]. by exists t, s, p, n.
Qed.

(** C5, as amended. A chunking run raises only when [chunk_size] is 0.
    Otherwise, with [raw] the chunks of the splitting stage: the
    [overlap_with_prev] a chunk records is between 0 and the length of the
    previous raw chunk (0 for the first chunk), its [overlap_with_next] is
    between 0 and the length of its own raw text (0 for the last chunk), and
    when the overlap size [chunk_size * overlap_percent / 100] is positive
    neither exceeds it. *)
Theorem C5_overlap_bounded_by_source_chunk_length
    (rnd : nat -> str) (text source : str) :
  match chunk config rnd text source with
  | Ok chunks =>
      exists raw : list (str * str),
        (chunks = [] \/ raw_chunks config text = Ok raw) /\
        length raw = length chunks /\
        forall i c, chunks !! i = Some c ->
          exists cur,
            raw !! i = Some (cur, section (metadata c)) /\
            0 <= overlap_with_next (metadata c) <= len cur /\
            (raw !! S i = None -> overlap_with_next (metadata c) = 0) /\
            (0 < overlap_chars config ->
             overlap_with_next (metadata c) <= overlap_chars config /\
             overlap_with_prev (metadata c) <= overlap_chars config) /\
            match i with
            | O => overlap_with_prev (metadata c) = 0
            | S j => exists prev sp,
                raw !! j = Some (prev, sp) /\
                0 <= overlap_with_prev (metadata c) <= len prev
            end
  | Raise e => e = ValueError /\ chunk_size config = 0
  end.
Proof.
  unfold chunk. destruct (negb (truthy text) || negb (truthy (strip text))).
  { exists []. split; [by left|]. split; [done|]. by intros i c. }
  pose proof (raw_chunks_within config text) as Hraw.
  destruct (raw_chunks config text) as [raw|e]; simpl; [|exact Hraw].
  exists raw. split; [by right|]. split.
  { unfold _create_chunks, _apply_overlap. by rewrite !length_imap. }
  intros i c Hc.
  apply create_chunks_lookup in Hc as (t & s & p & n & Hdata & _ & ->). simpl.
  apply apply_overlap_lookup in Hdata as (cur & Hcur & Hn & Hlast & Hoc & Hp).
  exists cur. split; [done|]. split; [done|]. split; [done|]. split; [done|].
  destruct i as [|j]; [by destruct Hp|done].
Qed.

(** X3. In every chunking run the [chunk_index] of a chunk is its position
    in the output, so the indexes are [0 .. N-1] without gap or repeat; the
    chunker leaves the page at 0, the tags empty and the parent unset. *)
Theorem X3_chunk_index_is_the_position (rnd : nat -> str) (text source : str) :
  match chunk config rnd text source with
  | Ok chunks =>
      forall i c, chunks !! i = Some c ->
        chunk_index (metadata c) = i /\
        Chunking.source (metadata c) = source /\
        page (metadata c) = 0 /\
        parent_chunk_id (metadata c) = None /\
        semantic_tags (metadata c) = []
  | Raise e => e = ValueError /\ chunk_size config = 0
  end.
Proof.
  unfold chunk. destruct (negb (truthy text) || negb (truthy (strip text))).
  { by intros i c. }
  pose proof (raw_chunks_within config text) as Hraw.
  destruct (raw_chunks config text) as [raw|e]; simpl; [|exact Hraw].
  intros i c Hc.
  by apply create_chunks_lookup in Hc as (t & s & p & n & _ & _ & ->).
Qed.

(** A chunking run returns unless [chunk_size] is 0. *)
Lemma chunk_returns (rnd : nat -> str) (text source : str) :
  chunk_size config <> 0 -> exists chunks, chunk config rnd text source = Ok chunks.
Proof.
  intros Hcs. unfold chunk.
  destruct (negb (truthy text) || negb (truthy (strip text))); [by eexists|].
  pose proof (raw_chunks_within config text) as Hraw.
  destruct (raw_chunks config text) as [raw|e]; simpl; [by eexists|].
  by destruct Hraw.
Qed.

End Overlap.

(** C5 fails with the default configuration: of the two chunks of this
    text, the first has 150 characters and the second records all 150 of
    them as its overlap, twice the half the claim allows. *)
Lemma C5_overlap_exceeds_half_of_previous_chunk :
  exists c0 c1,
    chunk default_config (fun _ => py "00000000")
      (Samples.run "a" 150 ++ py " " ++ Samples.run "b" 900) (py "paper.pdf")
      = Ok [c0; c1] /\
    len (text c0) = 150%Z /\
    overlap_with_prev (metadata c1) = 150%Z /\
    (len (text c0) / 2 < overlap_with_prev (metadata c1))%Z.
Proof.
  eexists _, _. split; [vm_compute; reflexivity|].
  split; [reflexivity|]. split; [reflexivity|]. vm_compute. reflexivity.
Qed.

(** A run with the small configuration: the second chunk starts with the
    last five characters of the first. *)
Example small_run_chunks :
  (fun c => (text c, overlap_with_prev (metadata c), overlap_with_next (metadata c)))
    <$> Samples.small_run
  = [(py "aaaaaaaa", 0%Z, 5%Z); (py "aaaaa bbbbbbbb", 5%Z, 0%Z)].
Proof. vm_compute. reflexivity. Qed.

End ChunkingFacts.

(** ** The metadata enricher *)

Module EnricherFacts.

Import Chunking ChunkingFacts Enricher.

(** C7. With the offset mapping [{0: 1, 100: 2}] and a chunk that starts at
    offset 150, the highest boundary not exceeding the offset is 100, page
    2; [_extract_page_number] returns page 1, the page of the lowest
    boundary, because its loop returns at the first sorted offset that does
    not exceed the start. *)
Theorem C7_page_lookup_returns_lowest_boundary :
  _extract_page_number Samples.chunk150 Samples.two_pages = 1%Z /\
  page_of_highest_boundary 150 {[ 0%Z := 1%Z; 100%Z := 2%Z ]} = 2%Z.
Proof. split; vm_compute; reflexivity. Qed.

(** Whenever the lowest boundary does not exceed the start offset, the loop
    returns its page, whatever boundaries follow. *)
Lemma page_loop_first (chunk_start offset page : Z) (items : list (Z * Z)) :
  (offset <= chunk_start)%Z -> page_loop chunk_start ((offset, page) :: items) = page.
Proof. intros H. simpl. by rewrite (proj2 (Z.leb_le _ _) H). Qed.

(** Without a mapping the function scans the text for a page marker. *)
Example page_marker_fallback :
  _extract_page_number
    {| id := py "c1"; text := py "see Page 12 for details"; metadata := Samples.meta0 |}
    {| page_map := None; chunk_offsets := None; other_keys := true |} = 12%Z /\
  _extract_page_number
    {| id := py "c1"; text := py "see pages 12b"; metadata := Samples.meta0 |}
    {| page_map := Some ∅; chunk_offsets := None; other_keys := true |} = 0%Z.
Proof. split; vm_compute; reflexivity. Qed.

Section Ids.

Variable md5_hexdigest : str -> str.
Variable config : EnricherConfig.

Lemma assign_loop_ids (m : gmap str str) (chunks : list Chunk) :
  id <$> assign_loop m chunks = id <$> chunks.
Proof.
  revert m. induction chunks as [|c chunks IH]; intros m; simpl; [done|].
  destruct (m !! section (metadata c)); simpl; by rewrite IH.
Qed.

Lemma assign_loop_lookup (m : gmap str str) (chunks : list Chunk) (i : nat) (c : Chunk) :
  assign_loop m chunks !! i = Some c ->
  exists c', chunks !! i = Some c' /\ id c = id c' /\ text c = text c' /\
             section (metadata c) = section (metadata c').
Proof.
  revert m i. induction chunks as [|c0 chunks IH]; intros m i; simpl; [done|].
  destruct (m !! section (metadata c0)); destruct i as [|i]; simpl;
    try (intros [= <-]; by exists c0); apply IH.
Qed.

Lemma enrich_chunk_section (c : Chunk) (i n : nat) (pdf : option PdfMetadata) :
  section (metadata (_enrich_chunk md5_hexdigest config c i n pdf)) = corrected_section c.
Proof.
  unfold _enrich_chunk, corrected_section. cbn [metadata].
  set (m1 := match pdf with
             | Some d => if extract_page_numbers config && pdf_truthy pdf
                         then with_page (metadata c) (_extract_page_number c d)
                         else metadata c
             | None => metadata c
             end).
  assert (Hs : section m1 = section (metadata c)).
  { unfold m1. destruct pdf; [|done].
    by destruct (extract_page_numbers config && pdf_truthy _). }
  rewrite Hs.
  destruct (negb (truthy (section (metadata c))) || bool_decide (section (metadata c) = py "body"));
    [|exact Hs].
  destruct (_detect_section (text c)); simpl; [done|exact Hs].
Qed.

Lemma enrich_chunk_id (c : Chunk) (i n : nat) (pdf : option PdfMetadata) :
  hierarchical_ids config = true ->
  id (_enrich_chunk md5_hexdigest config c i n pdf)
  = _generate_hierarchical_id md5_hexdigest (source (metadata c)) (corrected_section c)
      i (text c).
Proof.
  intros Hh. rewrite <- (enrich_chunk_section c i n pdf).
  unfold _enrich_chunk. simpl. by rewrite Hh.
Qed.

Lemma enrich_ids (chunks : list Chunk) (pdf : option PdfMetadata) :
  hierarchical_ids config = true ->
  id <$> enrich md5_hexdigest config chunks pdf
  = imap (fun i c => _generate_hierarchical_id md5_hexdigest (source (metadata c))
                       (corrected_section c) i (text c)) chunks.
Proof.
  intros Hh. unfold enrich. destruct chunks as [|c0 chunks']; [done|].
  change (negb (truthy (c0 :: chunks'))) with false. cbv iota.
  set (chunks := c0 :: chunks'). rewrite Hh.
  unfold _assign_parent_relationships. rewrite assign_loop_ids.
  apply list_eq. intros i. rewrite list_lookup_fmap, !list_lookup_imap.
  destruct (chunks !! i) as [c|]; [|done].
  cbn [fmap option_fmap option_map]. f_equal. by apply enrich_chunk_id.
Qed.

(** C8. With hierarchical IDs enabled, chunking and enriching the same text
    with the same configuration yields the same list of chunk IDs whatever
    the random components [rnd1] and [rnd2] of the chunker's own IDs are,
    and each ID is the hierarchical ID of the chunk's source, corrected
    section, index and text. The run returns unless [chunk_size] is 0. *)
Theorem C8_hierarchical_ids_do_not_depend_on_random
    (chunk_config : ChunkConfig) (rnd1 rnd2 : nat -> str) (text source : str)
    (pdf_metadata : option PdfMetadata) :
  hierarchical_ids config = true ->
  (let* chunks := chunk chunk_config rnd1 text source in
   Ok (id <$> enrich md5_hexdigest config chunks pdf_metadata))
  = (let* chunks := chunk chunk_config rnd2 text source in
     Ok (id <$> enrich md5_hexdigest config chunks pdf_metadata)) /\
  (forall chunks i c,
     chunk chunk_config rnd1 text source = Ok chunks ->
     enrich md5_hexdigest config chunks pdf_metadata !! i = Some c ->
     id c = _generate_hierarchical_id md5_hexdigest source (section (metadata c)) i
              (Chunking.text c)) /\
  (chunk_size chunk_config <> 0%Z ->
   exists chunks, chunk chunk_config rnd1 text source = Ok chunks).
Proof.
  intros Hh. split; [|split; [|apply chunk_returns]].
  - unfold chunk.
    destruct (negb (truthy text) || negb (truthy (strip text))); [done|].
    destruct (raw_chunks chunk_config text) as [raw|e]; [|done]. simpl. f_equal.
    rewrite !enrich_ids by done.
    apply list_eq. intros i. rewrite !list_lookup_imap.
    unfold _create_chunks. rewrite !list_lookup_imap.
    destruct (_apply_overlap chunk_config raw !! i) as [[[[t s] p] n]|]; done.
  - intros chunks i c Hchunks Hc.
    assert (Hid : (id <$> enrich md5_hexdigest config chunks pdf_metadata) !! i = Some (id c)).
    { by rewrite list_lookup_fmap, Hc. }
    rewrite enrich_ids, list_lookup_imap in Hid by done.
    destruct (chunks !! i) as [c0|] eqn:Hc0; [|done]. simpl in Hid. injection Hid as <-.
    assert (Hsrc : Chunking.source (metadata c0) = source).
    { unfold chunk in Hchunks.
      destruct (negb (truthy text) || negb (truthy (strip text))).
      - injection Hchunks as <-. done.
      - destruct (raw_chunks chunk_config text) as [raw|e]; [|done].
        injection Hchunks as <-.
        apply create_chunks_lookup in Hc0 as (t & s & p & n & _ & _ & ->); done. }
    assert (Hc' : Chunking.text c = Chunking.text c0 /\
                  section (metadata c) = corrected_section c0).
    { unfold enrich in Hc. destruct (negb (truthy chunks)); [done|].
      rewrite Hh in Hc. unfold _assign_parent_relationships in Hc.
      apply assign_loop_lookup in Hc as (c' & Hc' & _ & Ht & Hs).
      rewrite list_lookup_imap, Hc0 in Hc'. simpl in Hc'. injection Hc' as <-.
      by rewrite Ht, Hs, enrich_chunk_section. }
    destruct Hc' as [-> ->]. by rewrite Hsrc.
Qed.



End Ids.

Lemma C8_hierarchical_ids_do_not_depend_on_random_witness :
  (let* chunks := chunk Chunking.default_config (fun _ => py "00000000")
                    Samples.two_sections (py "paper.pdf") in
   Ok (id <$> enrich Samples.digest default_config chunks None))
  = (let* chunks := chunk Chunking.default_config (fun _ => py "ffffffff")
                      Samples.two_sections (py "paper.pdf") in
     Ok (id <$> enrich Samples.digest default_config chunks None)) /\
  (forall chunks i c,
     chunk Chunking.default_config (fun _ => py "00000000")
       Samples.two_sections (py "paper.pdf") = Ok chunks ->
     enrich Samples.digest default_config chunks None !! i = Some c ->
     id c = _generate_hierarchical_id Samples.digest (py "paper.pdf")
              (section (metadata c)) i (Chunking.text c)) /\
  (chunk_size Chunking.default_config <> 0%Z ->
   exists chunks,
     chunk Chunking.default_config (fun _ => py "00000000")
       Samples.two_sections (py "paper.pdf") = Ok chunks).
Proof.
  apply (C8_hierarchical_ids_do_not_depend_on_random Samples.digest default_config
           Chunking.default_config (fun _ => py "00000000") (fun _ => py "ffffffff")
           Samples.two_sections (py "paper.pdf") None).
  reflexivity.
Defined.

(** The two runs of the witness give different chunker IDs and the same
    hierarchical IDs. *)
Example hierarchical_ids_sample :
  (let* chunks := chunk Chunking.default_config (fun _ => py "00000000")
                    Samples.two_sections (py "paper.pdf") in
   Ok (id <$> chunks, id <$> enrich Samples.digest default_config chunks None))
  = Ok ([py "paper.pdf_abstract_0_00000000"; py "paper.pdf_introduction_1_00000000"],
        [py "paper.pd_abstract_0000_Abstra"; py "paper.pd_introduction_0001_Abstra"]).
Proof. vm_compute. reflexivity. Qed.

End EnricherFacts.

(** ** Scores and the stable descending sort *)

Module RetrievalFacts.

Import Retrieval.

Lemma Qlt_bool_true (a b : Q) : Qlt_bool a b = true <-> (a < b)%Q.
Proof.
  unfold Qlt_bool. rewrite negb_true_iff. split.
  - intros H. apply Qnot_le_lt. intros Hle.
    apply Qle_bool_iff in Hle. congruence.
  - intros H. destruct (Qle_bool b a) eqn:E; [|done].
    apply Qle_bool_iff in E. exfalso. eapply Qlt_not_le; eauto.
Qed.

Lemma Qlt_bool_false (a b : Q) : Qlt_bool a b = false <-> (b <= a)%Q.
Proof.
  unfold Qlt_bool. rewrite negb_false_iff. apply Qle_bool_iff.
Qed.

Lemma insert_desc_perm {A} (key : A -> Q) (x : A) (l : list A) :
  insert_desc key x l ≡ₚ x :: l.
Proof.
  induction l as [|y l IH]; simpl; [done|].
  destruct (Qlt_bool (key x) (key y)); [|done].
  rewrite IH. apply Permutation_swap.
Qed.

Lemma sort_desc_perm {A} (key : A -> Q) (l : list A) : sort_desc key l ≡ₚ l.
Proof.
  induction l as [|x l IH]; simpl; [done|].
  rewrite insert_desc_perm. by rewrite IH.
Qed.

Lemma insert_desc_ranked {A} (key : A -> Q) (pos : A -> nat) (x : A) (l : list A) :
  Forall (fun y => (pos x < pos y)%nat) l ->
  StronglySorted (ranked key pos) l ->
  StronglySorted (ranked key pos) (insert_desc key x l).
Proof.
  intros Hpos Hs. induction Hs as [|y l Hs IH Hy]; simpl.
  - repeat constructor.
  - apply Forall_cons in Hpos as [Hxy Hpos].
    destruct (Qlt_bool (key x) (key y)) eqn:E.
    + apply Qlt_bool_true in E. constructor; [by apply IH|].
      rewrite insert_desc_perm. constructor; [|done].
      split; [by apply Qlt_le_weak|].
      intros Heq. rewrite Heq in E. by apply Qlt_irrefl in E.
    + apply Qlt_bool_false in E. constructor; [by constructor|].
      constructor; [by split|].
      rewrite Forall_forall in Hy, Hpos |- *. intros z Hz.
      destruct (Hy z Hz) as [Hzy _]. split.
      * eapply Qle_trans; eauto.
      * intros _. by apply Hpos.
Qed.

(** Sorting a list whose positions grow from left to right. *)
Lemma sort_desc_ranked {A} (key : A -> Q) (pos : A -> nat) (l : list A) :
  StronglySorted (fun x y => (pos x < pos y)%nat) l ->
  StronglySorted (ranked key pos) (sort_desc key l).
Proof.
  induction 1 as [|x l Hs IH Hx]; simpl; [constructor|].
  apply insert_desc_ranked; [|done].
  by rewrite sort_desc_perm.
Qed.

Lemma StronglySorted_lookup {A} (R : A -> A -> Prop) (l : list A) (i j : nat) (x y : A) :
  StronglySorted R l -> (i < j)%nat -> l !! i = Some x -> l !! j = Some y -> R x y.
Proof.
  intros Hs. revert i j. induction Hs as [|a l Hs IH Ha]; intros i j Hij Hi Hj.
  - done.
  - destruct i as [|i], j as [|j]; simpl in *; try lia.
    + injection Hi as ->. rewrite Forall_forall in Ha. apply Ha.
      by eapply list_elem_of_lookup_2.
    + eapply IH; [|done..]. lia.
Qed.

Lemma StronglySorted_of_lookup {A} (R : A -> A -> Prop) (l : list A) :
  (forall i j x y, (i < j)%nat -> l !! i = Some x -> l !! j = Some y -> R x y) ->
  StronglySorted R l.
Proof.
  induction l as [|a l IH]; intros H; [constructor|].
  constructor.
  - apply IH. intros i j x y Hij Hi Hj. apply (H (S i) (S j)); [lia|done..].
  - rewrite Forall_forall. intros y Hy.
    apply list_elem_of_lookup in Hy as [j Hj].
    apply (H 0%nat (S j)); [lia|done..].
Qed.

Lemma StronglySorted_sublist {A} (R : A -> A -> Prop) (l k : list A) :
  sublist k l -> StronglySorted R l -> StronglySorted R k.
Proof.
  induction 1 as [|x k l Hsub IH|x k l Hsub IH]; intros Hs.
  - constructor.
  - apply StronglySorted_inv in Hs as [Hs Hx]. constructor; [by apply IH|].
    rewrite Forall_forall in Hx |- *. intros y Hy. apply Hx.
    by eapply elem_of_sublist.
  - apply StronglySorted_inv in Hs as [Hs _]. by apply IH.
Qed.

Lemma slice_to_sublist {A} (l : list A) (k : Z) : sublist (slice_to l k) l.
Proof. unfold slice_to. destruct (k <? 0)%Z; apply sublist_take. Qed.

Lemma slice_to_nil {A} (k : Z) : slice_to (@nil A) k = [].
Proof. unfold slice_to. destruct (k <? 0)%Z; apply take_nil. Qed.

End RetrievalFacts.

(** ** The lexical index *)

Module BM25Facts.

Import Retrieval RetrievalFacts BM25.

Section Search.

Variable okapi_score : BM25Okapi -> list str -> list str -> Q.

Lemma collect_hits (P : nat * Q -> Chunking.Chunk -> Prop)
    (chunks : list Chunking.Chunk) (top : list (nat * Q)) :
  Forall (fun p => exists chunk, chunks !! p.1 = Some chunk /\ P p chunk) top ->
  exists results,
    collect chunks top = Ok results /\
    Forall2 (fun p r => exists chunk,
               chunks !! p.1 = Some chunk /\ r = hit_result chunk p.2 /\ P p chunk)
            (filter (fun p => Qlt_bool 0 p.2 = true) top) results.
Proof.
  induction 1 as [|[idx s] top [chunk [Hc HP]] _ [results [IH1 IH2]]]; simpl.
  - exists []. split; [done|]. constructor.
  - rewrite filter_cons. simpl in *. case_decide as Hd.
    + rewrite Hd, Hc, IH1. simpl. eexists. split; [done|].
      constructor; [|done]. by exists chunk.
    + apply not_true_is_false in Hd. rewrite Hd. by exists results.
Qed.

Lemma scored_indices_sorted (scores : list Q) :
  StronglySorted (fun x y : nat * Q => (x.1 < y.1)%nat) (imap (fun i s => (i, s)) scores).
Proof.
  apply StronglySorted_of_lookup. intros i j x y Hij Hi Hj.
  rewrite list_lookup_imap in Hi, Hj.
  destruct (scores !! i), (scores !! j); simplify_eq/=. done.
Qed.

Lemma top_indices_spec (index : BM25Okapi) (query : str) (top_k : Z) (p : nat * Q) :
  p ∈ top_indices okapi_score index query top_k ->
  exists doc, corpus index !! p.1 = Some doc /\
              p.2 = okapi_score index (_tokenize query) doc.
Proof.
  unfold top_indices. intros Hp.
  eapply elem_of_sublist in Hp; [|apply slice_to_sublist].
  rewrite sort_desc_perm in Hp.
  apply list_elem_of_lookup in Hp as [i Hi].
  rewrite list_lookup_imap in Hi. unfold get_scores in Hi.
  rewrite list_lookup_fmap in Hi.
  destruct (corpus index !! i) as [doc|] eqn:E; simplify_eq/=.
  by exists doc.
Qed.

(** C3. [search] returns the empty list on an index that was never built
    and on one built from no chunk. On the index built from [chunks] it
    returns the results of a list of hits [(i, s)], where [s] is the BM25
    score of chunk [i] for the query: every score is strictly positive, the
    scores never grow along the list, and of two hits of equal score the
    chunk with the smaller index comes first. *)
Theorem C3_search_positive_descending_stable
    (cfg : BM25Config) (self : BM25Index) (chunks : list Chunking.Chunk)
    (query : str) (top_k : Z) :
  search okapi_score (init cfg) query top_k = Ok [] /\
  search okapi_score (build_index self []) query top_k = Ok [] /\
  (forall s : BM25Index,
     _index s = None \/ _chunks s = [] -> search okapi_score s query top_k = Ok []) /\
  exists (hits : list (nat * Q)) (results : list RetrievalResult),
    search okapi_score (build_index self chunks) query top_k = Ok results /\
    Forall2 (fun hit r =>
               exists chunk, chunks !! hit.1 = Some chunk /\
                 r = hit_result chunk hit.2 /\
                 hit.2 = okapi_score (built_index self chunks) (_tokenize query)
                           (_tokenize (Chunking.text chunk)))
            hits results /\
    (forall hit, hit ∈ hits -> (0 < hit.2)%Q) /\
    (forall i j a b, (i < j)%nat -> hits !! i = Some a -> hits !! j = Some b ->
       (b.2 <= a.2)%Q /\ ((a.2 == b.2)%Q -> (a.1 < b.1)%nat)).
Proof.
  assert (Hempty : forall s : BM25Index,
            _index s = None \/ _chunks s = [] -> search okapi_score s query top_k = Ok []).
  { intros s [H|H]; unfold search; rewrite H; [done|]. by destruct (_index s). }
  split; [by apply Hempty; left|].
  split; [by apply Hempty; left|].
  split; [done|].
  destruct chunks as [|c0 chunks'] eqn:Echunks.
  { exists [], []. split; [by apply Hempty; left|].
    split; [constructor|]. split; [by intros ? ?%elem_of_nil|]. by intros [] ?. }
  rewrite <- Echunks. set (index := built_index self chunks).
  set (top := top_indices okapi_score index query top_k).
  assert (Hsearch : search okapi_score (build_index self chunks) query top_k
                    = collect chunks top).
  { subst top index. rewrite Echunks. reflexivity. }
  assert (Hdoc : forall p, p ∈ top -> exists chunk, chunks !! p.1 = Some chunk /\
                   p.2 = okapi_score index (_tokenize query) (_tokenize (Chunking.text chunk))).
  { intros p Hp. apply top_indices_spec in Hp as [doc [Hdoc Hp]].
    unfold index, built_index in Hdoc. simpl in Hdoc.
    rewrite list_lookup_fmap in Hdoc.
    destruct (chunks !! p.1) as [chunk|] eqn:E; simplify_eq/=. by exists chunk. }
  destruct (collect_hits
              (fun p chunk => p.2 = okapi_score index (_tokenize query)
                                      (_tokenize (Chunking.text chunk)))
              chunks top) as [results [Hres Hrel]].
  { rewrite Forall_forall. exact Hdoc. }
  exists (filter (fun p => Qlt_bool 0 p.2 = true) top), results.
  split; [by rewrite Hsearch|]. split; [done|]. split.
  - intros hit [Hpos _]%list_elem_of_filter. by apply Qlt_bool_true.
  - intros i j x y Hij Hi Hj.
    eapply (StronglySorted_lookup (ranked snd fst)); [|exact Hij|exact Hi|exact Hj].
    eapply StronglySorted_sublist; [apply sublist_filter|].
    eapply StronglySorted_sublist; [apply slice_to_sublist|].
    apply sort_desc_ranked, scored_indices_sorted.
Qed.

End Search.

End BM25Facts.

(** ** Rank fusion *)

Module HybridFacts.

Import Retrieval RetrievalFacts Hybrid.

Lemma score_of_add_score (scores : list (str * Q)) (c id : str) (x : Q) :
  (score_of (add_score scores c x) id ==
   score_of scores id + (if bool_decide (c = id) then x else 0))%Q.
Proof.
  induction scores as [|[c' v] scores IH]; simpl.
  - case_bool_decide; ring.
  - destruct (bool_decide (c' = c)) eqn:E1; simpl.
    + apply bool_decide_eq_true in E1 as ->.
      case_bool_decide; [reflexivity|ring].
    + apply bool_decide_eq_false in E1.
      destruct (bool_decide (c' = id)) eqn:E2; [|exact IH].
      apply bool_decide_eq_true in E2 as ->.
      rewrite bool_decide_eq_false_2 by congruence. ring.
Qed.

Lemma keys_add_score (scores : list (str * Q)) (c : str) (x : Q) (id : str) :
  id ∈ (add_score scores c x).*1 <-> id ∈ scores.*1 \/ id = c.
Proof.
  induction scores as [|[c' v] scores IH]; simpl.
  - rewrite list_elem_of_singleton, elem_of_nil. tauto.
  - case_bool_decide as E; simpl.
    + subst. rewrite !elem_of_cons. intuition congruence.
    + rewrite !elem_of_cons, IH. tauto.
Qed.

Lemma NoDup_add_score (scores : list (str * Q)) (c : str) (x : Q) :
  NoDup scores.*1 -> NoDup (add_score scores c x).*1.
Proof.
  induction scores as [|[c' v] scores IH]; simpl; intros Hnd.
  - apply NoDup_singleton.
  - apply NoDup_cons in Hnd as [Hc' Hnd].
    case_bool_decide as E; simpl.
    + by apply NoDup_cons.
    + apply NoDup_cons. split; [|by apply IH].
      rewrite keys_add_score. intros [?|?]; [done|congruence].
Qed.

Lemma score_loop_spec (weight : Q) (k : Z) (results : list RetrievalResult) :
  (0 <= k)%Z ->
  forall (rank : nat) (st : list (str * Q) * gmap str RetrievalResult),
  consistent st ->
  exists st',
    score_loop weight k rank results st = Ok st' /\
    consistent st' /\
    (forall id, (score_of st'.1 id == score_of st.1 id + list_gain weight k rank results id)%Q) /\
    (forall id, id ∈ st'.1.*1 <-> id ∈ st.1.*1 \/ id ∈ (chunk_id <$> results)).
Proof.
  intros Hk. induction results as [|r results IH]; intros rank [scores chunks] Hc; simpl.
  - exists (scores, chunks). split; [done|]. split; [done|]. split.
    + intros id. simpl. ring.
    + intros id. rewrite elem_of_nil. tauto.
  - unfold contribution.
    rewrite (proj2 (Z.eqb_neq _ 0)) by lia. simpl.
    set (x := (weight / inject_Z (k + Z.of_nat rank + 1))%Q).
    set (chunks' := match chunks !! chunk_id r with
                    | Some _ => chunks
                    | None => <[chunk_id r:=r]> chunks
                    end).
    destruct (IH (S rank) (add_score scores (chunk_id r) x, chunks')) as [st' [H1 [H2 [H3 H4]]]].
    { destruct Hc as [Hnd [Hdom Hid]]. simpl in *. split; [|split]; simpl.
      - by apply NoDup_add_score.
      - intros id. rewrite keys_add_score, Hdom. unfold chunks'.
        destruct (chunks !! chunk_id r) as [r'|] eqn:E.
        + split; [|tauto]. intros [H| ->]; [done|]. by rewrite E.
        + destruct (decide (id = chunk_id r)) as [->|Hne].
          * rewrite lookup_insert_eq. split; [by eexists|by right].
          * rewrite lookup_insert_ne by done. intuition congruence.
      - intros id r'. unfold chunks'.
        destruct (chunks !! chunk_id r) as [r''|] eqn:E; [apply Hid|].
        destruct (decide (id = chunk_id r)) as [->|Hne].
        + rewrite lookup_insert_eq. congruence.
        + rewrite lookup_insert_ne by done. apply Hid. }
    exists st'. split; [done|]. split; [done|]. split.
    + intros id. rewrite H3. simpl. rewrite score_of_add_score. fold x. ring.
    + intros id. rewrite H4. simpl. rewrite keys_add_score, elem_of_cons.
      intuition congruence.
Qed.

Lemma list_gain_absent (weight : Q) (k : Z) (rank : nat) (results : list RetrievalResult)
    (id : str) :
  id ∉ (chunk_id <$> results) -> (list_gain weight k rank results id == 0)%Q.
Proof.
  revert rank. induction results as [|r results IH]; intros rank Hid; simpl; [reflexivity|].
  simpl in Hid. apply not_elem_of_cons in Hid as [Hne Hid].
  rewrite bool_decide_eq_false_2 by congruence. rewrite IH by done. ring.
Qed.

Lemma contribution_pos (weight : Q) (k : Z) (rank : nat) :
  (0 < weight)%Q -> (0 <= k)%Z -> (0 < weight / inject_Z (k + Z.of_nat rank + 1))%Q.
Proof.
  intros Hw Hk. apply Qlt_shift_div_l.
  - change 0%Q with (inject_Z 0). rewrite <- Zlt_Qlt. lia.
  - by rewrite Qmult_0_l.
Qed.

Lemma list_gain_nonneg (weight : Q) (k : Z) (rank : nat) (results : list RetrievalResult)
    (id : str) :
  (0 < weight)%Q -> (0 <= k)%Z -> (0 <= list_gain weight k rank results id)%Q.
Proof.
  intros Hw Hk. revert rank. induction results as [|r results IH]; intros rank; simpl.
  - apply Qle_refl.
  - specialize (IH (S rank)).
    pose proof (contribution_pos weight k rank Hw Hk).
    case_bool_decide; lra.
Qed.

Lemma fused_spec (chunks : gmap str RetrievalResult) (sorted_ids : list (str * Q)) :
  (forall id, id ∈ sorted_ids.*1 -> is_Some (chunks !! id)) ->
  (forall id r, chunks !! id = Some r -> chunk_id r = id) ->
  exists out,
    fused chunks sorted_ids = Ok out /\
    Forall2 (fun p r => chunk_id r = p.1 /\ score r = p.2 /\ source r = py "hybrid")
            sorted_ids out.
Proof.
  intros Hdom Hid. induction sorted_ids as [|[c v] ids IH]; simpl.
  - exists []. split; [done|constructor].
  - destruct (Hdom c) as [r Hr]; [simpl; apply list_elem_of_here|].
    destruct IH as [out [H1 H2]].
    { intros id Hin. apply Hdom. simpl. by apply list_elem_of_further. }
    rewrite Hr, H1. simpl. eexists. split; [done|].
    constructor; [|done]. simpl. split; [by eapply Hid|done].
Qed.

(** For a non-negative constant the fusion returns, and the score of every
    result is the fusion formula at its id. *)
Lemma rrf_fusion_scores (config : HybridConfig)
    (bm25_results vector_results : list RetrievalResult) (k : Z) :
  (0 <= k)%Z ->
  exists out,
    rrf_fusion config bm25_results vector_results k = Ok out /\
    (forall r, r ∈ out ->
       (score r == list_gain (bm25_weight config) k 0 bm25_results (chunk_id r)
                   + list_gain (vector_weight config) k 0 vector_results (chunk_id r))%Q) /\
    (forall id, id ∈ (chunk_id <$> out) <->
       id ∈ (chunk_id <$> bm25_results) \/ id ∈ (chunk_id <$> vector_results)) /\
    NoDup (chunk_id <$> out) /\
    Forall (fun r => source r = py "hybrid") out.
Proof.
  intros Hk. unfold rrf_fusion.
  destruct (score_loop_spec (bm25_weight config) k bm25_results Hk 0 ([], ∅))
    as [st1 [H1 [Hc1 [Hs1 Hk1]]]].
  { split; [constructor|]. split.
    - intros id. simpl. rewrite elem_of_nil. split; [done|]. intros [r Hr].
      by rewrite lookup_empty in Hr.
    - intros id r. simpl. by rewrite lookup_empty. }
  destruct (score_loop_spec (vector_weight config) k vector_results Hk 0 st1 Hc1)
    as [[scores chunks] [H2 [Hc2 [Hs2 Hk2]]]].
  rewrite H1. simpl. rewrite H2. simpl.
  destruct Hc2 as [Hnd [Hdom Hid]]. simpl in *.
  destruct (fused_spec chunks (sort_desc snd scores)) as [out [Hout Hrel]].
  { intros id Hin. apply Hdom. by rewrite sort_desc_perm in Hin. }
  { done. }
  assert (Hids : chunk_id <$> out = (sort_desc snd scores).*1).
  { clear -Hrel. induction Hrel as [|p r l out' [Hc _] _ IH]; [done|].
    rewrite !fmap_cons. by f_equal. }
  exists out. split; [done|]. split; [|split; [|split]].
  - intros r Hr.
    apply list_elem_of_lookup in Hr as [i Hi].
    destruct (Forall2_lookup_r _ _ _ _ _ Hrel Hi) as [[c v] [Hp [Hc [Hv _]]]]. simpl in *.
    rewrite Hv, Hc.
    assert (Hin : (c, v) ∈ scores).
    { rewrite <- (sort_desc_perm snd scores). by eapply list_elem_of_lookup_2. }
    assert (Hsv : score_of scores c = v).
    { clear -Hnd Hin. induction scores as [|[c' v'] scores IH]; [by apply elem_of_nil in Hin|].
      simpl in *. apply NoDup_cons in Hnd as [Hc' Hnd].
      apply elem_of_cons in Hin as [Heq|Hin].
      - injection Heq as -> ->. by rewrite bool_decide_eq_true_2.
      - rewrite bool_decide_eq_false_2; [by apply IH|].
        intros ->. apply Hc'. apply list_elem_of_fmap. by exists (c, v). }
    rewrite <- Hsv, Hs2, Hs1. simpl. ring.
  - intros id.
    rewrite Hids, sort_desc_perm, Hk2, Hk1. simpl. rewrite elem_of_nil. tauto.
  - by rewrite Hids, sort_desc_perm.
  - clear -Hrel. induction Hrel as [|p r l out' [_ [_ Hs]] _ IH]; by constructor.
Qed.



Lemma contribution_antitone (weight : Q) (d1 d2 : Z) :
  (0 < weight)%Q -> (0 < d1 <= d2)%Z ->
  (weight / inject_Z d2 <= weight / inject_Z d1)%Q.
Proof.
  intros Hw [Hd1 Hd12].
  assert (H1 : (0 < inject_Z d1)%Q) by (change 0%Q with (inject_Z 0); rewrite <- Zlt_Qlt; lia).
  assert (H2 : (0 < inject_Z d2)%Q) by (change 0%Q with (inject_Z 0); rewrite <- Zlt_Qlt; lia).
  assert (H12 : (inject_Z d1 <= inject_Z d2)%Q) by (by rewrite <- Zle_Qle).
  apply Qle_shift_div_l; [done|].
  assert (E : (weight / inject_Z d2 * inject_Z d1
               == weight * inject_Z d1 / inject_Z d2)%Q) by (field; lra).
  rewrite E.
  apply Qle_shift_div_r; [done|].
  apply Qmult_le_l; done.
Qed.

(** A list that names each id once adds at most the contribution of its
    first rank to any id. *)
Lemma list_gain_once (weight : Q) (k : Z) (rank : nat) (results : list RetrievalResult)
    (id : str) :
  (0 < weight)%Q -> (0 <= k)%Z -> NoDup (chunk_id <$> results) ->
  (list_gain weight k rank results id <= weight / inject_Z (k + Z.of_nat rank + 1))%Q.
Proof.
  intros Hw Hk. revert rank. induction results as [|r results IH]; intros rank Hnd; simpl.
  - by apply Qlt_le_weak, contribution_pos.
  - rewrite fmap_cons in Hnd. apply NoDup_cons in Hnd as [Hr Hnd].
    case_bool_decide as E.
    + subst id. rewrite list_gain_absent by done. lra.
    + specialize (IH (S rank) Hnd).
      pose proof (contribution_antitone weight (k + Z.of_nat rank + 1)
                    (k + Z.of_nat (S rank) + 1) Hw ltac:(lia)).
      lra.
Qed.

(** X1. With the default weights 0.3 and 0.7 and the default constant 60,
    the fusion of two lists that each name an id once gives every result a
    score of at most 1/61. *)
Theorem X1_default_fusion_scores_at_most_1_61
    (bm25_results vector_results out : list RetrievalResult) :
  NoDup (chunk_id <$> bm25_results) ->
  NoDup (chunk_id <$> vector_results) ->
  rrf_fusion default_config bm25_results vector_results 60 = Ok out ->
  Forall (fun r => (score r <= 1 # 61)%Q) out.
Proof.
  intros Hb Hv Hout.
  destruct (rrf_fusion_scores default_config bm25_results vector_results 60 ltac:(lia))
    as [out' [Hout' [Hsc _]]].
  rewrite Hout in Hout'. injection Hout' as <-.
  apply Forall_forall. intros r Hr. rewrite (Hsc r Hr).
  pose proof (list_gain_once (3 # 10) 60 0 bm25_results (chunk_id r)
                ltac:(reflexivity) ltac:(lia) Hb) as H1.
  pose proof (list_gain_once (7 # 10) 60 0 vector_results (chunk_id r)
                ltac:(reflexivity) ltac:(lia) Hv) as H2.
  simpl in H1, H2 |- *.
  assert (E1 : ((3 # 10) / inject_Z 61 == 3 # 610)%Q) by reflexivity.
  assert (E2 : ((7 # 10) / inject_Z 61 == 7 # 610)%Q) by reflexivity.
  rewrite E1 in H1. rewrite E2 in H2. lra.
Qed.

Lemma X1_default_fusion_scores_at_most_1_61_witness :
  Forall (fun r => (score r <= 1 # 61)%Q) Samples.fused_sample.
Proof.
  apply (X1_default_fusion_scores_at_most_1_61
           [Samples.rA; Samples.rB] [Samples.rB; Samples.rA] Samples.fused_sample).
  - vm_compute. repeat constructor; rewrite ?elem_of_cons, ?elem_of_nil; intuition discriminate.
  - vm_compute. repeat constructor; rewrite ?elem_of_cons, ?elem_of_nil; intuition discriminate.
  - vm_compute. reflexivity.
Defined.

(** C2 fails for a negative constant: with [k = -2] every denominator at
    rank 0 is [-1], so the id found by both lists scores [-1] and the id
    found by the vector list alone scores [-7/10]. *)
Lemma C2_negative_constant_reverses_order :
  exists ra rb,
    rrf_fusion default_config [Samples.rA] [Samples.rA] (-2) = Ok [ra] /\
    chunk_id ra = py "A" /\
    rrf_fusion default_config [] [Samples.rB] (-2) = Ok [rb] /\
    chunk_id rb = py "B" /\
    (score ra < score rb)%Q.
Proof.
  eexists _, _. split; [vm_compute; reflexivity|]. split; [reflexivity|].
  split; [vm_compute; reflexivity|]. split; [reflexivity|].
  vm_compute. reflexivity.
Qed.

(** An id a list names twice collects both contributions, which is why the
    lists of the amended claim name each id once. *)
Example rrf_repeated_id_collects_twice :
  exists ra rb,
    rrf_fusion default_config [Samples.rA] [Samples.rA] 60 = Ok [ra] /\
    rrf_fusion default_config [] [Samples.rB; Samples.rB; Samples.rB] 60 = Ok [rb] /\
    (score ra < score rb)%Q.
Proof.
  eexists _, _. split; [vm_compute; reflexivity|].
  split; [vm_compute; reflexivity|]. vm_compute. reflexivity.
Qed.

End HybridFacts.

(** ** Rounding to binary64 is a rounding *)

Module Round64Facts.

Import HybridFloat.

Local Open Scope Q_scope.

Lemma pow2_pos (z : Z) : 0 < 2 ^ z.
Proof. by apply Qpower_0_lt. Qed.

Lemma pow2_le (n m : Z) : (n <= m)%Z -> 2 ^ n <= 2 ^ m.
Proof. intros H. by apply Qpower_le_compat_l. Qed.

Lemma pow2_lt (n m : Z) : (n < m)%Z -> 2 ^ n < 2 ^ m.
Proof. intros H. by apply Qpower_lt_compat_l. Qed.

Lemma pow2_add (n m : Z) : 2 ^ (n + m) == 2 ^ n * 2 ^ m.
Proof. by apply Qpower_plus. Qed.

Lemma pow2_inject (n : Z) : (0 <= n)%Z -> inject_Z (2 ^ n) == 2 ^ n.
Proof. intros H. by rewrite Zpower_Qpower. Qed.

Lemma mul_le_compat (a b c d : Q) : 0 <= a -> a <= b -> 0 <= c -> c <= d -> a * c <= b * d.
Proof. intros. nra. Qed.

(** *** The exponent *)

Lemma ilog2_spec (x : Q) : 0 < x -> 2 ^ ilog2 x <= x /\ x < 2 ^ (ilog2 x + 1).
Proof.
  intros Hx. destruct x as [p q]. unfold ilog2. cbn [Qnum Qden].
  assert (Hp : (0 < p)%Z) by (unfold Qlt in Hx; simpl in Hx; lia).
  set (lp := Z.log2 p). set (lq := Z.log2 (Z.pos q)).
  destruct (Z.log2_spec p Hp) as [Hp1 Hp2].
  destruct (Z.log2_spec (Z.pos q) ltac:(lia)) as [Hq1 Hq2].
  fold lp in Hp1, Hp2. fold lq in Hq1, Hq2.
  assert (Hlp : (0 <= lp)%Z) by apply Z.log2_nonneg.
  assert (Hlq : (0 <= lq)%Z) by apply Z.log2_nonneg.
  assert (Ex : p # q == inject_Z p / inject_Z (Z.pos q)) by apply Qmake_Qdiv.
  assert (Hqpos : 0 < inject_Z (Z.pos q)).
  { change 0 with (inject_Z 0). rewrite <- Zlt_Qlt. lia. }
  assert (Hp1' : 2 ^ lp <= inject_Z p).
  { rewrite <- pow2_inject by done. by rewrite <- Zle_Qle. }
  assert (Hp2' : inject_Z p < 2 ^ (lp + 1)).
  { rewrite <- pow2_inject by lia. rewrite <- Zlt_Qlt. unfold Z.succ in Hp2. done. }
  assert (Hq1' : 2 ^ lq <= inject_Z (Z.pos q)).
  { rewrite <- pow2_inject by done. by rewrite <- Zle_Qle. }
  assert (Hq2' : inject_Z (Z.pos q) < 2 ^ (lq + 1)).
  { rewrite <- pow2_inject by lia. rewrite <- Zlt_Qlt. unfold Z.succ in Hq2. done. }
  destruct (Qle_bool (2 ^ (lp - lq)) (p # q)) eqn:E.
  - apply Qle_bool_iff in E. split; [done|].
    rewrite Ex. apply Qlt_shift_div_r; [done|].
    eapply Qlt_le_trans; [exact Hp2'|].
    replace (lp + 1)%Z with ((lp - lq + 1) + lq)%Z by lia.
    rewrite pow2_add. apply Qmult_le_l; [apply pow2_pos|done].
  - assert (Hlt : p # q < 2 ^ (lp - lq)).
    { apply Qnot_le_lt. intros H. apply Qle_bool_iff in H. congruence. }
    split.
    + rewrite Ex. apply Qle_shift_div_l; [done|].
      eapply Qle_trans; [|exact Hp1'].
      replace lp with ((lp - lq - 1) + (lq + 1))%Z at 2 by lia.
      rewrite pow2_add. apply Qmult_le_l; [apply pow2_pos|]. by apply Qlt_le_weak.
    + by replace (lp - lq - 1 + 1)%Z with (lp - lq)%Z by lia.
Qed.

Lemma ilog2_unique (x : Q) (e : Z) : 2 ^ e <= x -> x < 2 ^ (e + 1) -> ilog2 x = e.
Proof.
  intros H1 H2.
  assert (Hx : 0 < x) by (eapply Qlt_le_trans; [apply (pow2_pos e)|done]).
  destruct (ilog2_spec x Hx) as [H3 H4].
  assert (A : (e < ilog2 x + 1)%Z).
  { apply (Qpower_lt_compat_l_inv 2); [|done]. eapply Qle_lt_trans; eauto. }
  assert (B : (ilog2 x < e + 1)%Z).
  { apply (Qpower_lt_compat_l_inv 2); [|done]. eapply Qle_lt_trans; eauto. }
  lia.
Qed.

Lemma ilog2_mono (x y : Q) : 0 < x -> x <= y -> (ilog2 x <= ilog2 y)%Z.
Proof.
  intros Hx Hxy.
  destruct (ilog2_spec x Hx) as [H1 _].
  destruct (ilog2_spec y ltac:(lra)) as [_ H2].
  assert (A : (ilog2 x < ilog2 y + 1)%Z).
  { apply (Qpower_lt_compat_l_inv 2); [|done].
    eapply Qle_lt_trans; [exact H1|]. eapply Qle_lt_trans; eauto. }
  lia.
Qed.

(** *** The nearest integer *)

Lemma floor_eq (x : Q) : (Qnum x / Z.pos (Qden x))%Z = Qfloor x.
Proof. by destruct x. Qed.

Lemma round_half_even_bounds (x : Q) :
  (Qfloor x <= round_half_even x <= Qfloor x + 1)%Z.
Proof.
  unfold round_half_even. rewrite floor_eq.
  destruct (Retrieval.Qlt_bool _ _); [lia|].
  destruct (Retrieval.Qlt_bool _ _); [lia|]. destruct (Z.even _); lia.
Qed.

Lemma round_half_even_Z (n : Z) : round_half_even (inject_Z n) = n.
Proof.
  unfold round_half_even. rewrite floor_eq, Qfloor_Z.
  assert (E : Retrieval.Qlt_bool (inject_Z n - inject_Z n) (1 # 2) = true).
  { apply RetrievalFacts.Qlt_bool_true. lra. }
  by rewrite E.
Qed.

Lemma round_half_even_mono (x y : Q) : x <= y -> (round_half_even x <= round_half_even y)%Z.
Proof.
  intros Hxy.
  pose proof (Qfloor_resp_le x y Hxy) as Hf.
  pose proof (round_half_even_bounds x) as Hx.
  pose proof (round_half_even_bounds y) as Hy.
  destruct (decide (Qfloor x = Qfloor y)) as [E|]; [|lia].
  unfold round_half_even. rewrite !floor_eq, E.
  set (n := Qfloor y).
  destruct (Retrieval.Qlt_bool (x - inject_Z n) (1 # 2)) eqn:E1.
  { destruct (Retrieval.Qlt_bool (y - inject_Z n) (1 # 2)); [lia|].
    destruct (Retrieval.Qlt_bool (1 # 2) (y - inject_Z n)); [lia|].
    destruct (Z.even n); lia. }
  apply RetrievalFacts.Qlt_bool_false in E1.
  assert (E2 : Retrieval.Qlt_bool (y - inject_Z n) (1 # 2) = false).
  { destruct (Retrieval.Qlt_bool (y - inject_Z n) (1 # 2)) eqn:E2; [|done].
    apply RetrievalFacts.Qlt_bool_true in E2. lra. }
  rewrite E2.
  destruct (Retrieval.Qlt_bool (1 # 2) (x - inject_Z n)) eqn:E3.
  { apply RetrievalFacts.Qlt_bool_true in E3.
    assert (E4 : Retrieval.Qlt_bool (1 # 2) (y - inject_Z n) = true).
    { apply RetrievalFacts.Qlt_bool_true. lra. }
    rewrite E4. lia. }
  destruct (Retrieval.Qlt_bool (1 # 2) (y - inject_Z n)); [destruct (Z.even n); lia|].
  lia.
Qed.

Lemma round_half_even_ge (x : Q) (m : Z) : inject_Z m <= x -> (m <= round_half_even x)%Z.
Proof.
  intros H. rewrite <- (round_half_even_Z m). by apply round_half_even_mono.
Qed.

Lemma round_half_even_le (x : Q) (m : Z) : x <= inject_Z m -> (round_half_even x <= m)%Z.
Proof.
  intros H. rewrite <- (round_half_even_Z m). by apply round_half_even_mono.
Qed.

Lemma round_half_even_comp (x y : Q) : x == y -> round_half_even x = round_half_even y.
Proof.
  intros E. apply Z.le_antisymm; apply round_half_even_mono; rewrite E; apply Qle_refl.
Qed.

(** *** Positive numbers *)

Lemma scaled_lt (a : Q) :
  0 < a -> a / 2 ^ (Z.max (ilog2 a) (-1022) - 52) < inject_Z (2 ^ 53).
Proof.
  intros Ha. destruct (ilog2_spec a Ha) as [_ H].
  set (e := Z.max (ilog2 a) (-1022)).
  apply Qlt_shift_div_r; [apply pow2_pos|].
  rewrite pow2_inject by lia. rewrite <- pow2_add.
  eapply Qlt_le_trans; [exact H|]. apply pow2_le. lia.
Qed.

Lemma scaled_ge (a : Q) :
  0 < a -> (-1022 <= ilog2 a)%Z ->
  inject_Z (2 ^ 52) <= a / 2 ^ (Z.max (ilog2 a) (-1022) - 52).
Proof.
  intros Ha He. destruct (ilog2_spec a Ha) as [H _].
  rewrite Z.max_l by lia.
  apply Qle_shift_div_l; [apply pow2_pos|].
  rewrite pow2_inject by lia. rewrite <- pow2_add.
  eapply Qle_trans; [|exact H]. apply pow2_le. lia.
Qed.

Lemma scaled_nonneg (a : Q) (z : Z) : 0 < a -> 0 <= a / 2 ^ z.
Proof.
  intros Ha. apply Qle_shift_div_l; [apply pow2_pos|]. rewrite Qmult_0_l. lra.
Qed.

Lemma round64_pos_nonneg (a : Q) : 0 < a -> 0 <= round64_pos a.
Proof.
  intros Ha. unfold round64_pos.
  apply Qmult_le_0_compat; [|apply Qlt_le_weak, pow2_pos].
  change 0 with (inject_Z 0). rewrite <- Zle_Qle.
  apply round_half_even_ge. by apply scaled_nonneg.
Qed.

Lemma round64_pos_upper (a : Q) :
  0 < a -> round64_pos a <= 2 ^ (Z.max (ilog2 a) (-1022) + 1).
Proof.
  intros Ha. unfold round64_pos.
  set (e := Z.max (ilog2 a) (-1022)).
  replace (e + 1)%Z with (53 + (e - 52))%Z by lia. rewrite pow2_add.
  apply Qmult_le_compat_r; [|apply Qlt_le_weak, pow2_pos].
  rewrite <- (pow2_inject 53) by lia. rewrite <- Zle_Qle.
  apply round_half_even_le, Qlt_le_weak, scaled_lt. done.
Qed.

Lemma round64_pos_lower (a : Q) :
  0 < a -> (-1022 <= ilog2 a)%Z -> 2 ^ ilog2 a <= round64_pos a.
Proof.
  intros Ha He. unfold round64_pos.
  pose proof (scaled_ge a Ha He) as H. rewrite Z.max_l in * by lia.
  replace (ilog2 a) with (52 + (ilog2 a - 52))%Z at 1 by lia. rewrite pow2_add.
  apply Qmult_le_compat_r; [|apply Qlt_le_weak, pow2_pos].
  rewrite <- (pow2_inject 52) by lia. rewrite <- Zle_Qle.
  by apply round_half_even_ge.
Qed.

Lemma round64_pos_mono (a b : Q) : 0 < a -> a <= b -> round64_pos a <= round64_pos b.
Proof.
  intros Ha Hab.
  assert (Hb : 0 < b) by lra.
  pose proof (ilog2_mono a b Ha Hab) as He.
  destruct (decide (Z.max (ilog2 a) (-1022) = Z.max (ilog2 b) (-1022))) as [E|Hne].
  - unfold round64_pos. rewrite E.
    apply Qmult_le_compat_r; [|apply Qlt_le_weak, pow2_pos].
    rewrite <- Zle_Qle. apply round_half_even_mono.
    apply Qmult_le_compat_r; [done|]. apply Qlt_le_weak, Qinv_lt_0_compat, pow2_pos.
  - eapply Qle_trans; [apply (round64_pos_upper a Ha)|].
    eapply Qle_trans; [|apply (round64_pos_lower b Hb); lia].
    apply pow2_le. lia.
Qed.

Lemma round64_pos_comp (a b : Q) : 0 < a -> a == b -> round64_pos a == round64_pos b.
Proof.
  intros Ha E. assert (Hb : 0 < b) by lra.
  apply Qle_antisym; apply round64_pos_mono; lra.
Qed.

(** A number of the grid of doubles is its own rounding. *)
Lemma round64_pos_grid (n e : Z) :
  (0 < n <= 2 ^ 53)%Z -> (-1022 <= e)%Z -> ((n < 2 ^ 52)%Z -> e = (-1022)%Z) ->
  round64_pos (inject_Z n * 2 ^ (e - 52)) == inject_Z n * 2 ^ (e - 52).
Proof.
  intros [Hn0 Hn] He Hsub.
  set (y := inject_Z n * 2 ^ (e - 52)).
  assert (Hn0' : 0 < inject_Z n).
  { change 0 with (inject_Z 0). by rewrite <- Zlt_Qlt. }
  assert (Hy : 0 < y).
  { unfold y. apply Qmult_lt_0_compat; [done|apply pow2_pos]. }
  assert (Hscale : forall c, y / 2 ^ (c - 52) == inject_Z n * 2 ^ (e - c)).
  { intros c. unfold y. replace (e - 52)%Z with ((e - c) + (c - 52))%Z by lia.
    rewrite pow2_add. field. apply Qnot_eq_sym, Qlt_not_eq, pow2_pos. }
  destruct (decide (n < 2 ^ 52)%Z) as [Hlt|Hge].
  - specialize (Hsub Hlt). subst e.
    assert (Hi : (ilog2 y < -1022)%Z).
    { destruct (ilog2_spec y Hy) as [H _].
      apply (Qpower_lt_compat_l_inv 2); [|done].
      eapply Qle_lt_trans; [exact H|]. unfold y.
      replace (-1022)%Z with (52 + (-1022 - 52))%Z at 2 by lia. rewrite pow2_add.
      apply Qmult_lt_compat_r; [apply pow2_pos|].
      rewrite <- pow2_inject by lia. by rewrite <- Zlt_Qlt. }
    unfold round64_pos. rewrite Z.max_r by lia.
    rewrite (round_half_even_comp _ (inject_Z n)), round_half_even_Z; [reflexivity|].
    rewrite Hscale. replace (-1022 - -1022)%Z with 0%Z by lia.
    rewrite Qpower_0_r. ring.
  - destruct (decide (n = 2 ^ 53)%Z) as [->|Hne].
    + assert (Ey : y == 2 ^ (e + 1)).
      { unfold y. rewrite pow2_inject by lia. rewrite <- pow2_add.
        replace (53 + (e - 52))%Z with (e + 1)%Z by lia. reflexivity. }
      assert (Hi : ilog2 y = (e + 1)%Z).
      { apply ilog2_unique; rewrite Ey; [apply Qle_refl|apply pow2_lt; lia]. }
      unfold round64_pos. rewrite Hi, Z.max_l by lia.
      rewrite (round_half_even_comp _ (inject_Z (2 ^ 52))), round_half_even_Z.
      * fold y. rewrite Ey. rewrite pow2_inject by lia. rewrite <- pow2_add.
        replace (52 + (e + 1 - 52))%Z with (e + 1)%Z by lia. reflexivity.
      * rewrite Hscale. rewrite !pow2_inject by lia. rewrite <- pow2_add.
        replace (53 + (e - (e + 1)))%Z with 52%Z by lia. reflexivity.
    + assert (Hi : ilog2 y = e).
      { apply ilog2_unique; unfold y.
        - replace e with (52 + (e - 52))%Z at 1 by lia. rewrite pow2_add.
          apply Qmult_le_compat_r; [|apply Qlt_le_weak, pow2_pos].
          rewrite <- pow2_inject by lia. rewrite <- Zle_Qle. lia.
        - replace (e + 1)%Z with (53 + (e - 52))%Z by lia. rewrite pow2_add.
          apply Qmult_lt_compat_r; [apply pow2_pos|].
          rewrite <- pow2_inject by lia. rewrite <- Zlt_Qlt. lia. }
      unfold round64_pos. rewrite Hi, Z.max_l by lia.
      rewrite (round_half_even_comp _ (inject_Z n)), round_half_even_Z; [reflexivity|].
      rewrite Hscale. replace (e - e)%Z with 0%Z by lia. rewrite Qpower_0_r. ring.
Qed.

Lemma round64_pos_idem (a : Q) :
  0 < a -> 0 < round64_pos a -> round64_pos (round64_pos a) == round64_pos a.
Proof.
  intros Ha Hp. unfold round64_pos at 2 3.
  set (e := Z.max (ilog2 a) (-1022)).
  set (n := round_half_even (a / 2 ^ (e - 52))).
  assert (Hn : (0 < n)%Z).
  { unfold round64_pos in Hp. fold e n in Hp.
    destruct (decide (0 < n)%Z) as [|Hle]; [done|]. exfalso.
    assert (inject_Z n <= 0) by (change 0 with (inject_Z 0); rewrite <- Zle_Qle; lia).
    pose proof (pow2_pos (e - 52)). nra. }
  apply round64_pos_grid.
  - split; [done|]. apply round_half_even_le, Qlt_le_weak, scaled_lt. done.
  - unfold e. lia.
  - intros Hlt. destruct (decide (-1022 <= ilog2 a)%Z) as [Hi|Hi]; [|unfold e; lia].
    exfalso. pose proof (round_half_even_ge _ _ (scaled_ge a Ha Hi)) as H.
    fold e n in H. lia.
Qed.

(** *** All numbers *)

Lemma round64_zero (x : Q) : x == 0 -> round64 x = 0.
Proof. intros E. unfold round64. apply Qeq_bool_iff in E. by rewrite E. Qed.

Lemma round64_pos_case (x : Q) : 0 < x -> round64 x = round64_pos x.
Proof.
  intros H. unfold round64.
  destruct (Qeq_bool x 0) eqn:E; [apply Qeq_bool_iff in E; lra|].
  destruct (Qle_bool 0 x) eqn:E'; [done|].
  assert (Qle_bool 0 x = true) by (apply Qle_bool_iff; lra). congruence.
Qed.

Lemma round64_neg_case (x : Q) : x < 0 -> round64 x = - round64_pos (- x).
Proof.
  intros H. unfold round64.
  destruct (Qeq_bool x 0) eqn:E; [apply Qeq_bool_iff in E; lra|].
  destruct (Qle_bool 0 x) eqn:E'; [|done].
  apply Qle_bool_iff in E'. lra.
Qed.

Lemma round64_sign (x : Q) :
  (0 <= x -> 0 <= round64 x) /\ (x <= 0 -> round64 x <= 0).
Proof.
  destruct (Q_dec x 0) as [[H|H]|H].
  - rewrite (round64_neg_case x H).
    pose proof (round64_pos_nonneg (- x) ltac:(lra)). split; intros; lra.
  - rewrite (round64_pos_case x H).
    pose proof (round64_pos_nonneg x H). split; intros; lra.
  - rewrite (round64_zero x H). split; intros; lra.
Qed.

Lemma round64_mono (x y : Q) : x <= y -> round64 x <= round64 y.
Proof.
  intros Hxy.
  destruct (Q_dec x 0) as [[Hx|Hx]|Hx].
  - destruct (Qlt_le_dec y 0) as [Hy|Hy].
    + rewrite (round64_neg_case x Hx), (round64_neg_case y Hy).
      pose proof (round64_pos_mono (- y) (- x) ltac:(lra) ltac:(lra)). lra.
    + pose proof (proj2 (round64_sign x) ltac:(lra)).
      pose proof (proj1 (round64_sign y) Hy). lra.
  - rewrite (round64_pos_case x Hx), (round64_pos_case y ltac:(lra)).
    by apply round64_pos_mono.
  - pose proof (proj2 (round64_sign x) ltac:(lra)).
    pose proof (proj1 (round64_sign y) ltac:(lra)). lra.
Qed.

Lemma round64_idem (x : Q) : round64 (round64 x) == round64 x.
Proof.
  destruct (Q_dec x 0) as [[Hx|Hx]|Hx].
  - rewrite (round64_neg_case x Hx).
    pose proof (round64_pos_nonneg (- x) ltac:(lra)) as Hp.
    destruct (Qlt_le_dec 0 (round64_pos (- x))) as [Hpos|Hz].
    + rewrite round64_neg_case by lra.
      rewrite (round64_pos_comp (- - round64_pos (- x)) (round64_pos (- x)))
        by (try lra; ring).
      rewrite round64_pos_idem by (done || lra). reflexivity.
    + rewrite round64_zero by lra. lra.
  - rewrite (round64_pos_case x Hx).
    pose proof (round64_pos_nonneg x Hx) as Hp.
    destruct (Qlt_le_dec 0 (round64_pos x)) as [Hpos|Hz].
    + rewrite round64_pos_case by done. by apply round64_pos_idem.
    + rewrite round64_zero by lra. lra.
  - rewrite (round64_zero x Hx). reflexivity.
Qed.

(** Rounding to the nearest double has the properties that the fusion in
    doubles relies on. *)
Lemma rounding_round64 : rounding round64.
Proof.
  split.
  - apply round64_mono.
  - apply round64_idem.
  - reflexivity.
  - vm_compute. reflexivity.
Qed.

End Round64Facts.

(** ** Rank fusion in doubles *)

Module HybridFloatFacts.

Import Retrieval RetrievalFacts Hybrid HybridFacts.

(** Exact arithmetic is a rounding, and with it the loops are those of
    [Hybrid]. *)
Lemma rounding_id : HybridFloat.rounding (fun x => x).
Proof. split; intros; try done; reflexivity. Qed.

Lemma add_score_exact (scores : list (str * Q)) (c : str) (x : Q) :
  HybridFloat.add_score (fun x => x) scores c x = add_score scores c x.
Proof.
  induction scores as [|[c' v] scores IH]; simpl; [done|]. by rewrite IH.
Qed.

Lemma contribution_exact (weight : Q) (k : Z) (rank : nat) :
  HybridFloat.contribution (fun x => x) weight k rank = contribution weight k rank.
Proof.
  unfold HybridFloat.contribution, contribution.
  assert (E : Qeq_bool (inject_Z (k + Z.of_nat rank + 1)) 0
              = (k + Z.of_nat rank + 1 =? 0)%Z).
  { unfold Qeq_bool, inject_Z. simpl. by rewrite Z.mul_1_r. }
  by rewrite E.
Qed.

Lemma score_loop_exact (weight : Q) (k : Z) (results : list RetrievalResult) :
  forall rank st,
    HybridFloat.score_loop (fun x => x) weight k rank results st
    = score_loop weight k rank results st.
Proof.
  induction results as [|r results IH]; intros rank [scores chunks]; simpl; [done|].
  rewrite contribution_exact. destruct (contribution weight k rank); simpl; [|done].
  by rewrite add_score_exact, IH.
Qed.

Lemma rrf_fusion_exact (config : HybridConfig) (bm25_results vector_results : list RetrievalResult)
    (k : Z) :
  HybridFloat.rrf_fusion (fun x => x) config bm25_results vector_results k
  = rrf_fusion config bm25_results vector_results k.
Proof.
  unfold HybridFloat.rrf_fusion, rrf_fusion. rewrite score_loop_exact.
  destruct (score_loop (bm25_weight config) k 0 bm25_results ([], ∅)); simpl; [|done].
  by rewrite score_loop_exact.
Qed.

Lemma div_antitone (w d1 d2 : Q) :
  (0 < w)%Q -> (0 < d1)%Q -> (d1 <= d2)%Q -> (w / d2 <= w / d1)%Q.
Proof.
  intros Hw H1 H12.
  assert (H2 : (0 < d2)%Q) by lra.
  apply Qle_shift_div_l; [done|].
  assert (E : (w / d2 * d1 == w * d1 / d2)%Q) by (field; lra).
  rewrite E. apply Qle_shift_div_r; [done|].
  apply Qmult_le_l; done.
Qed.

Lemma div_strict (w d1 d2 : Q) :
  (0 < w)%Q -> (0 < d1)%Q -> (d1 < d2)%Q -> (w / d2 < w / d1)%Q.
Proof.
  intros Hw H1 H12.
  assert (H2 : (0 < d2)%Q) by lra.
  apply Qlt_shift_div_l; [done|].
  assert (E : (w / d2 * d1 == w * d1 / d2)%Q) by (field; lra).
  rewrite E. apply Qlt_shift_div_r; [done|].
  apply Qmult_lt_l; done.
Qed.

Lemma div_pos (w d : Q) : (0 < w)%Q -> (0 < d)%Q -> (0 < w / d)%Q.
Proof. intros Hw Hd. apply Qlt_shift_div_l; [done|]. by rewrite Qmult_0_l. Qed.

Section Rounded.

Variable round : Q -> Q.

Hypothesis Hround : HybridFloat.rounding round.

Lemma round_eq (x y : Q) : (x == y)%Q -> (round x == round y)%Q.
Proof.
  intros E. apply Qle_antisym; apply (HybridFloat.round_le _ Hround); rewrite E;
    apply Qle_refl.
Qed.

Lemma round_nonneg (x : Q) : (0 <= x)%Q -> (0 <= round x)%Q.
Proof.
  intros H. rewrite <- (HybridFloat.round_0 _ Hround).
  by apply (HybridFloat.round_le _ Hround).
Qed.

(** A double grows when a non-negative double is added to it. *)
Lemma round_add_grows (v x : Q) :
  (round v == v)%Q -> (0 <= x)%Q -> (v <= round (v + x))%Q.
Proof.
  intros Hv Hx. rewrite <- Hv at 1. apply (HybridFloat.round_le _ Hround). lra.
Qed.

(** *** The dictionary of scores *)

Lemma score_of_stable (scores : list (str * Q)) (id : str) :
  Forall (fun p => (round p.2 == p.2)%Q) scores ->
  (round (score_of scores id) == score_of scores id)%Q.
Proof.
  induction 1 as [|[c v] scores Hv _ IH]; simpl.
  - apply (HybridFloat.round_0 _ Hround).
  - by case_bool_decide.
Qed.

Lemma add_score_stable (scores : list (str * Q)) (c : str) (x : Q) :
  Forall (fun p => (round p.2 == p.2)%Q) scores ->
  Forall (fun p => (round p.2 == p.2)%Q) (HybridFloat.add_score round scores c x).
Proof.
  induction 1 as [|[c' v] scores Hv Hs IH]; simpl.
  - constructor; [|constructor]. apply (HybridFloat.round_round _ Hround).
  - case_bool_decide.
    + constructor; [|done]. apply (HybridFloat.round_round _ Hround).
    + by constructor.
Qed.

Lemma score_of_add_score_ne (scores : list (str * Q)) (c id : str) (x : Q) :
  c <> id -> score_of (HybridFloat.add_score round scores c x) id = score_of scores id.
Proof.
  intros Hne. induction scores as [|[c' v] scores IH]; simpl.
  - by rewrite bool_decide_eq_false_2.
  - destruct (bool_decide (c' = c)) eqn:E1; simpl.
    + apply bool_decide_eq_true in E1 as ->. by rewrite !bool_decide_eq_false_2.
    + by rewrite IH.
Qed.

Lemma score_of_add_score_eq (scores : list (str * Q)) (c : str) (x : Q) :
  score_of (HybridFloat.add_score round scores c x) c = round (score_of scores c + x).
Proof.
  induction scores as [|[c' v] scores IH]; simpl.
  - by rewrite bool_decide_eq_true_2.
  - destruct (bool_decide (c' = c)) eqn:E1; simpl; rewrite E1; [done|exact IH].
Qed.

Lemma keys_add_score_rounded (scores : list (str * Q)) (c : str) (x : Q) (id : str) :
  id ∈ (HybridFloat.add_score round scores c x).*1 <-> id ∈ scores.*1 \/ id = c.
Proof.
  induction scores as [|[c' v] scores IH]; simpl.
  - rewrite list_elem_of_singleton, elem_of_nil. tauto.
  - case_bool_decide as E; simpl.
    + subst. rewrite !elem_of_cons. intuition congruence.
    + rewrite !elem_of_cons, IH. tauto.
Qed.

Lemma NoDup_add_score_rounded (scores : list (str * Q)) (c : str) (x : Q) :
  NoDup scores.*1 -> NoDup (HybridFloat.add_score round scores c x).*1.
Proof.
  induction scores as [|[c' v] scores IH]; simpl; intros Hnd.
  - apply NoDup_singleton.
  - apply NoDup_cons in Hnd as [Hc' Hnd].
    case_bool_decide as E; simpl.
    + by apply NoDup_cons.
    + apply NoDup_cons. split; [|by apply IH].
      rewrite keys_add_score_rounded. intros [?|?]; [done|congruence].
Qed.

(** *** One contribution *)

Lemma denominator_ge_1 (k : Z) (rank : nat) :
  (0 <= k)%Z -> (1 <= round (inject_Z (k + Z.of_nat rank + 1)))%Q.
Proof.
  intros Hk. rewrite <- (HybridFloat.round_1 _ Hround).
  apply (HybridFloat.round_le _ Hround).
  change 1%Q with (inject_Z 1). rewrite <- Zle_Qle. lia.
Qed.

Lemma contribution_gain (weight : Q) (k : Z) (rank : nat) :
  (0 <= k)%Z ->
  HybridFloat.contribution round weight k rank = Ok (HybridFloat.gain round weight k rank).
Proof.
  intros Hk. unfold HybridFloat.contribution, HybridFloat.gain.
  pose proof (denominator_ge_1 k rank Hk) as Hd.
  destruct (Qeq_bool (round (inject_Z (k + Z.of_nat rank + 1))) 0) eqn:E; [|done].
  apply Qeq_bool_eq in E. rewrite E in Hd. by destruct Hd.
Qed.

Lemma gain_nonneg (weight : Q) (k : Z) (rank : nat) :
  (0 < weight)%Q -> (0 <= k)%Z -> (0 <= HybridFloat.gain round weight k rank)%Q.
Proof.
  intros Hw Hk. apply round_nonneg, Qlt_le_weak, div_pos; [done|].
  pose proof (denominator_ge_1 k rank Hk). lra.
Qed.

Lemma gain_antitone (weight : Q) (k : Z) (rank1 rank2 : nat) :
  (0 < weight)%Q -> (0 <= k)%Z -> (rank1 <= rank2)%nat ->
  (HybridFloat.gain round weight k rank2 <= HybridFloat.gain round weight k rank1)%Q.
Proof.
  intros Hw Hk Hr. apply (HybridFloat.round_le _ Hround), div_antitone; [done| |].
  - pose proof (denominator_ge_1 k rank1 Hk). lra.
  - apply (HybridFloat.round_le _ Hround). rewrite <- Zle_Qle. lia.
Qed.

(** *** One scoring loop *)

Lemma score_loop_rounded (weight : Q) (k : Z) (results : list RetrievalResult) :
  (0 < weight)%Q -> (0 <= k)%Z ->
  forall (rank : nat) (st : list (str * Q) * gmap str RetrievalResult),
  consistent st ->
  Forall (fun p => (round p.2 == p.2)%Q) st.1 ->
  exists st',
    HybridFloat.score_loop round weight k rank results st = Ok st' /\
    consistent st' /\
    Forall (fun p => (round p.2 == p.2)%Q) st'.1 /\
    (forall id, id ∈ st'.1.*1 <-> id ∈ st.1.*1 \/ id ∈ (chunk_id <$> results)) /\
    (forall id, (score_of st.1 id <= score_of st'.1 id)%Q) /\
    (forall id, id ∉ (chunk_id <$> results) -> score_of st'.1 id = score_of st.1 id) /\
    (forall id, (chunk_id <$> results) !! 0%nat = Some id ->
       (round (score_of st.1 id + HybridFloat.gain round weight k rank)
        <= score_of st'.1 id)%Q) /\
    (forall id j, NoDup (chunk_id <$> results) ->
       (chunk_id <$> results) !! j = Some id ->
       score_of st'.1 id
       = round (score_of st.1 id + HybridFloat.gain round weight k (rank + j))).
Proof.
  intros Hw Hk. induction results as [|r results IH]; intros rank [scores chunks] Hc Hs; simpl.
  - exists (scores, chunks). split; [done|]. split; [done|]. split; [done|].
    split; [intros id; rewrite elem_of_nil; tauto|].
    split; [intros id; apply Qle_refl|]. split; [done|]. split; [done|]. by intros id j _ ?.
  - rewrite (contribution_gain weight k rank Hk). simpl.
    set (x := HybridFloat.gain round weight k rank).
    set (chunks' := match chunks !! chunk_id r with
                    | Some _ => chunks
                    | None => <[chunk_id r:=r]> chunks
                    end).
    assert (Hx : (0 <= x)%Q) by (by apply gain_nonneg).
    destruct (IH (S rank) (HybridFloat.add_score round scores (chunk_id r) x, chunks'))
      as [st' [H1 [H2 [H3 [H4 [H5 [H6 [_ H8]]]]]]]].
    { destruct Hc as [Hnd [Hdom Hid]]. simpl in *. split; [|split]; simpl.
      - by apply NoDup_add_score_rounded.
      - intros id. rewrite keys_add_score_rounded, Hdom. unfold chunks'.
        destruct (chunks !! chunk_id r) as [r'|] eqn:E.
        + split; [|tauto]. intros [H| ->]; [done|]. by rewrite E.
        + destruct (decide (id = chunk_id r)) as [->|Hne].
          * rewrite lookup_insert_eq. split; [by eexists|by right].
          * rewrite lookup_insert_ne by done. intuition congruence.
      - intros id r'. unfold chunks'.
        destruct (chunks !! chunk_id r) as [r''|] eqn:E; [apply Hid|].
        destruct (decide (id = chunk_id r)) as [->|Hne].
        + rewrite lookup_insert_eq. congruence.
        + rewrite lookup_insert_ne by done. apply Hid. }
    { simpl. by apply add_score_stable. }
    simpl in *.
    assert (Hstep : forall id,
              (score_of scores id
               <= score_of (HybridFloat.add_score round scores (chunk_id r) x) id)%Q).
    { intros id. destruct (decide (chunk_id r = id)) as [<-|Hne].
      - rewrite score_of_add_score_eq.
        apply round_add_grows; [by apply score_of_stable|done].
      - rewrite score_of_add_score_ne by done. apply Qle_refl. }
    exists st'. split; [done|]. split; [done|]. split; [done|].
    split; [|split; [|split; [|split]]].
    + intros id. rewrite H4. simpl. rewrite keys_add_score_rounded, elem_of_cons.
      intuition congruence.
    + intros id. eapply Qle_trans; [apply Hstep|apply H5].
    + intros id Hid. apply not_elem_of_cons in Hid as [Hne Hid].
      rewrite (H6 id Hid). by apply score_of_add_score_ne.
    + intros id [= <-]. eapply Qle_trans; [|apply H5].
      rewrite score_of_add_score_eq. apply Qle_refl.
    + intros id j Hnd Hj. apply NoDup_cons in Hnd as [Hr Hnd].
      destruct j as [|j]; simpl in Hj.
      * injection Hj as <-. rewrite (H6 _ Hr), score_of_add_score_eq.
        by rewrite Nat.add_0_r.
      * rewrite (H8 id j Hnd Hj). rewrite score_of_add_score_ne.
        -- by rewrite Nat.add_succ_r.
        -- intros E. apply Hr. rewrite E. by eapply list_elem_of_lookup_2.
Qed.

(** *** The last loop *)

Lemma fused_scores (scores : list (str * Q)) (chunks : gmap str RetrievalResult) :
  consistent (scores, chunks) ->
  exists out,
    fused chunks (sort_desc snd scores) = Ok out /\
    (forall r, r ∈ out -> score r = score_of scores (chunk_id r)) /\
    (forall id, id ∈ (chunk_id <$> out) <-> id ∈ scores.*1).
Proof.
  intros [Hnd [Hdom Hid]]. simpl in *.
  destruct (fused_spec chunks (sort_desc snd scores)) as [out [Hout Hrel]].
  { intros id Hin. apply Hdom. by rewrite sort_desc_perm in Hin. }
  { done. }
  assert (Hids : chunk_id <$> out = (sort_desc snd scores).*1).
  { clear -Hrel. induction Hrel as [|p r l out' [Hc _] _ IH]; [done|].
    rewrite !fmap_cons. by f_equal. }
  exists out. split; [done|]. split.
  - intros r Hr.
    apply list_elem_of_lookup in Hr as [i Hi].
    destruct (Forall2_lookup_r _ _ _ _ _ Hrel Hi) as [[c v] [Hp [Hc [Hv _]]]]. simpl in *.
    rewrite Hv, Hc.
    assert (Hin : (c, v) ∈ scores).
    { rewrite <- (sort_desc_perm snd scores). by eapply list_elem_of_lookup_2. }
    clear -Hnd Hin. induction scores as [|[c' v'] scores IH]; [by apply elem_of_nil in Hin|].
    simpl in *. apply NoDup_cons in Hnd as [Hc' Hnd].
    apply elem_of_cons in Hin as [Heq|Hin].
    + injection Heq as -> ->. by rewrite bool_decide_eq_true_2.
    + rewrite bool_decide_eq_false_2; [by apply IH|].
      intros ->. apply Hc'. apply list_elem_of_fmap. by exists (c, v).
  - intros id. by rewrite Hids, sort_desc_perm.
Qed.

(** The fusion returns for a constant that is not negative. The score of a
    result is the entry [s2] of its id after the two loops; [s1] is the
    entry after the first loop. *)
Lemma rrf_fusion_rounded (config : HybridConfig)
    (bm25_results vector_results : list RetrievalResult) (k : Z) :
  (0 < bm25_weight config)%Q -> (0 < vector_weight config)%Q -> (0 <= k)%Z ->
  exists out (s1 s2 : str -> Q),
    HybridFloat.rrf_fusion round config bm25_results vector_results k = Ok out /\
    (forall r, r ∈ out -> score r = s2 (chunk_id r)) /\
    (forall id, id ∈ (chunk_id <$> out) <->
       id ∈ (chunk_id <$> bm25_results) \/ id ∈ (chunk_id <$> vector_results)) /\
    (forall id, (chunk_id <$> bm25_results) !! 0%nat = Some id ->
       (round (0 + HybridFloat.gain round (bm25_weight config) k 0) <= s1 id)%Q) /\
    (forall id, (chunk_id <$> vector_results) !! 0%nat = Some id ->
       (round (s1 id + HybridFloat.gain round (vector_weight config) k 0) <= s2 id)%Q) /\
    (forall id, id ∉ (chunk_id <$> bm25_results) -> s1 id = 0%Q) /\
    (forall id j, NoDup (chunk_id <$> bm25_results) ->
       (chunk_id <$> bm25_results) !! j = Some id ->
       s1 id = round (0 + HybridFloat.gain round (bm25_weight config) k j)) /\
    (forall id, id ∉ (chunk_id <$> vector_results) -> s2 id = s1 id) /\
    (forall id j, NoDup (chunk_id <$> vector_results) ->
       (chunk_id <$> vector_results) !! j = Some id ->
       s2 id = round (s1 id + HybridFloat.gain round (vector_weight config) k j)).
Proof.
  intros Hwb Hwv Hk.
  destruct (score_loop_rounded (bm25_weight config) k bm25_results Hwb Hk 0 ([], ∅))
    as [st1 [H1 [Hc1 [Hs1 [Hk1 [_ [Ha1 [Hh1 Ho1]]]]]]]].
  { split; [constructor|]. split.
    - intros id. simpl. rewrite elem_of_nil. split; [done|]. intros [r Hr].
      by rewrite lookup_empty in Hr.
    - intros id r. simpl. by rewrite lookup_empty. }
  { constructor. }
  destruct (score_loop_rounded (vector_weight config) k vector_results Hwv Hk 0 st1 Hc1 Hs1)
    as [[scores chunks] [H2 [Hc2 [Hs2 [Hk2 [_ [Ha2 [Hh2 Ho2]]]]]]]].
  destruct (fused_scores scores chunks Hc2) as [out [Hout [Hsc Hids]]].
  exists out, (score_of st1.1), (score_of scores). simpl in *.
  split; [|split; [done|split; [|done]]].
  - unfold HybridFloat.rrf_fusion. rewrite H1. simpl. rewrite H2. done.
  - intros id. rewrite Hids, Hk2, Hk1. simpl. rewrite elem_of_nil. tauto.
Qed.

Lemma gain_stable (weight : Q) (k : Z) (rank : nat) :
  (round (0 + HybridFloat.gain round weight k rank)
   == HybridFloat.gain round weight k rank)%Q.
Proof.
  rewrite (round_eq (0 + HybridFloat.gain round weight k rank)
             (HybridFloat.gain round weight k rank)) by ring.
  apply (HybridFloat.round_round _ Hround).
Qed.

(** With exact arithmetic a later rank adds strictly less. *)
Lemma gain_exact (weight : Q) (k : Z) (rank : nat) :
  (forall x, (round x == x)%Q) ->
  (HybridFloat.gain round weight k rank == weight / inject_Z (k + Z.of_nat rank + 1))%Q.
Proof.
  intros Hex. unfold HybridFloat.gain. rewrite Hex.
  by rewrite (Hex (inject_Z (k + Z.of_nat rank + 1))).
Qed.

Lemma gain_strict (weight : Q) (k : Z) :
  (forall x, (round x == x)%Q) -> (0 < weight)%Q -> (0 <= k)%Z ->
  (HybridFloat.gain round weight k 1 < HybridFloat.gain round weight k 0)%Q.
Proof.
  intros Hex Hw Hk. rewrite !gain_exact by done. apply div_strict; [done| |].
  - change 0%Q with (inject_Z 0). rewrite <- Zlt_Qlt. lia.
  - rewrite <- Zlt_Qlt. lia.
Qed.

(** C2, as amended. For strictly positive weights and a constant [k >= 0],
    an id at rank 0 of both lists of one fusion is never scored below an id
    that, in a fusion of any two lists without repeated ids, stands at rank
    0 of exactly one list (wherever it stands in the other, if at all). Both
    fusions return, and each lists its id. This holds for every rounding
    that keeps the order, rounding to the nearest double among them; in
    exact arithmetic the first score is strictly higher. *)
Theorem C2_both_lists_never_score_below_one_list (config : HybridConfig) (k : Z)
    (bm vec bm' vec' : list RetrievalResult) (a b : str) :
  (0 < bm25_weight config)%Q ->
  (0 < vector_weight config)%Q ->
  (0 <= k)%Z ->
  (chunk_id <$> bm) !! 0%nat = Some a ->
  (chunk_id <$> vec) !! 0%nat = Some a ->
  NoDup (chunk_id <$> bm') ->
  NoDup (chunk_id <$> vec') ->
  (((chunk_id <$> bm') !! 0%nat = Some b /\ (chunk_id <$> vec') !! 0%nat <> Some b) \/
   ((chunk_id <$> vec') !! 0%nat = Some b /\ (chunk_id <$> bm') !! 0%nat <> Some b)) ->
  exists out out',
    HybridFloat.rrf_fusion round config bm vec k = Ok out /\
    HybridFloat.rrf_fusion round config bm' vec' k = Ok out' /\
    a ∈ (chunk_id <$> out) /\
    b ∈ (chunk_id <$> out') /\
    forall ra rb, ra ∈ out -> chunk_id ra = a -> rb ∈ out' -> chunk_id rb = b ->
      (score rb <= score ra)%Q /\
      ((forall x, (round x == x)%Q) -> (score rb < score ra)%Q).
Proof.
  intros Hwb Hwv Hk Ha1 Ha2 Hnb Hnv Hb.
  destruct (rrf_fusion_rounded config bm vec k Hwb Hwv Hk)
    as [out [s1 [s2 [Hout [Hsc [Hids [Hbm [Hvec _]]]]]]]].
  destruct (rrf_fusion_rounded config bm' vec' k Hwb Hwv Hk)
    as [out' [t1 [t2 [Hout' [Hsc' [Hids' [_ [_ [Hb0 [Hb1 [Hv0 Hv1]]]]]]]]]]].
  set (A := HybridFloat.gain round (bm25_weight config) k 0) in *.
  set (V := HybridFloat.gain round (vector_weight config) k 0) in *.
  set (A1 := HybridFloat.gain round (bm25_weight config) k 1).
  set (V1 := HybridFloat.gain round (vector_weight config) k 1).
  assert (HA : (round (0 + A) == A)%Q) by apply gain_stable.
  assert (HrA : (round A == A)%Q) by apply (HybridFloat.round_round _ Hround).
  assert (HA0 : (0 <= A)%Q) by (by apply gain_nonneg).
  assert (HV0 : (0 <= V)%Q) by (by apply gain_nonneg).
  assert (HA10 : (0 <= A1)%Q) by (by apply gain_nonneg).
  assert (HV10 : (0 <= V1)%Q) by (by apply gain_nonneg).
  assert (HA1 : (A1 <= A)%Q) by (apply gain_antitone; [done|done|lia]).
  assert (HV1 : (V1 <= V)%Q) by (apply gain_antitone; [done|done|lia]).
  (* the id of both lists *)
  assert (Hlow : (round (A + V) <= s2 a)%Q).
  { eapply Qle_trans; [|apply (Hvec a Ha2)].
    apply (HybridFloat.round_le _ Hround).
    pose proof (Hbm a Ha1) as H. rewrite HA in H. lra. }
  (* the id of one list *)
  assert (Hup : (t2 b <= round (A + V1))%Q \/ (t2 b <= round (A1 + V))%Q).
  { destruct Hb as [[Hb Hnot]|[Hb Hnot]].
    - left. pose proof (Hb1 b 0%nat Hnb Hb) as E1. fold A in E1.
      destruct (decide (b ∈ chunk_id <$> vec')) as [Hin|Hnin].
      + apply list_elem_of_lookup in Hin as [j Hj].
        rewrite (Hv1 b j Hnv Hj), E1.
        apply (HybridFloat.round_le _ Hround).
        assert (HVj : (HybridFloat.gain round (vector_weight config) k j <= V1)%Q).
        { apply gain_antitone; [done|done|]. destruct j; [congruence|lia]. }
        rewrite HA. lra.
      + rewrite (Hv0 b Hnin), E1, HA. rewrite <- HrA at 1.
        apply (HybridFloat.round_le _ Hround). lra.
    - right. pose proof (Hv1 b 0%nat Hnv Hb) as E2. fold V in E2. rewrite E2.
      apply (HybridFloat.round_le _ Hround).
      destruct (decide (b ∈ chunk_id <$> bm')) as [Hin|Hnin].
      + apply list_elem_of_lookup in Hin as [j Hj].
        rewrite (Hb1 b j Hnb Hj), gain_stable.
        assert (HAj : (HybridFloat.gain round (bm25_weight config) k j <= A1)%Q).
        { apply gain_antitone; [done|done|]. destruct j; [congruence|lia]. }
        lra.
      + rewrite (Hb0 b Hnin). lra. }
  exists out, out'. split; [done|]. split; [done|]. split; [|split].
  - apply Hids. left. by eapply list_elem_of_lookup_2.
  - apply Hids'. destruct Hb as [[Hb _]|[Hb _]]; [left|right];
      by eapply list_elem_of_lookup_2.
  - intros ra rb Hra Hida Hrb Hidb.
    rewrite (Hsc ra Hra), (Hsc' rb Hrb), Hida, Hidb. split.
    + eapply Qle_trans; [|exact Hlow].
      destruct Hup as [Hup|Hup]; (eapply Qle_trans; [exact Hup|]);
        apply (HybridFloat.round_le _ Hround); lra.
    + intros Hex.
      pose proof (gain_strict (bm25_weight config) k Hex Hwb Hk) as HsA.
      pose proof (gain_strict (vector_weight config) k Hex Hwv Hk) as HsV.
      fold A A1 in HsA. fold V V1 in HsV.
      rewrite Hex in Hlow. eapply Qlt_le_trans; [|exact Hlow].
      destruct Hup as [Hup|Hup]; rewrite Hex in Hup; lra.
Qed.

End Rounded.

(** In doubles the strict inequality of the claim is lost: with the weights
    0.3 and 1e-19 and the constant 60 the id of both lists gets
    [0.3 / 61 + 1e-19 / 61], which rounds to [0.3 / 61], the score of the id
    of the BM25 list alone. *)
Example rounding_absorbs_a_small_contribution :
  (0 < Hybrid.bm25_weight HybridFloat.tiny_vector_weight)%Q /\
  (0 < Hybrid.vector_weight HybridFloat.tiny_vector_weight)%Q /\
  exists ra rb,
    HybridFloat.rrf_fusion HybridFloat.round64 HybridFloat.tiny_vector_weight
      [Samples.rA] [Samples.rA] 60 = Ok [ra] /\
    chunk_id ra = py "A" /\
    HybridFloat.rrf_fusion HybridFloat.round64 HybridFloat.tiny_vector_weight
      [Samples.rB] [] 60 = Ok [rb] /\
    chunk_id rb = py "B" /\
    (score ra == score rb)%Q /\
    (score rb == 2835052880180771 # 576460752303423488)%Q.
Proof.
  split; [vm_compute; reflexivity|]. split; [vm_compute; reflexivity|].
  eexists _, _. split; [vm_compute; reflexivity|]. split; [reflexivity|].
  split; [vm_compute; reflexivity|]. split; [reflexivity|].
  split; vm_compute; reflexivity.
Qed.

Lemma C2_both_lists_never_score_below_one_list_witness :
  exists out out',
    HybridFloat.rrf_fusion HybridFloat.round64 HybridFloat.tiny_vector_weight
      [Samples.rA] [Samples.rA; Samples.rB] 60 = Ok out /\
    HybridFloat.rrf_fusion HybridFloat.round64 HybridFloat.tiny_vector_weight
      [Samples.rB; Samples.rA] [Samples.rA; Samples.rB] 60 = Ok out' /\
    py "A" ∈ (chunk_id <$> out) /\
    py "B" ∈ (chunk_id <$> out') /\
    forall ra rb, ra ∈ out -> chunk_id ra = py "A" -> rb ∈ out' -> chunk_id rb = py "B" ->
      (score rb <= score ra)%Q /\
      ((forall x, (HybridFloat.round64 x == x)%Q) -> (score rb < score ra)%Q).
Proof.
  apply (C2_both_lists_never_score_below_one_list HybridFloat.round64
           Round64Facts.rounding_round64 HybridFloat.tiny_vector_weight 60
           [Samples.rA] [Samples.rA; Samples.rB]
           [Samples.rB; Samples.rA] [Samples.rA; Samples.rB] (py "A") (py "B")).
  - vm_compute. reflexivity.
  - vm_compute. reflexivity.
  - lia.
  - reflexivity.
  - reflexivity.
  - vm_compute. repeat constructor; rewrite ?elem_of_cons, ?elem_of_nil; intuition discriminate.
  - vm_compute. repeat constructor; rewrite ?elem_of_cons, ?elem_of_nil; intuition discriminate.
  - left. split; [reflexivity|discriminate].
Defined.

End HybridFloatFacts.

(** ** The reranker *)

Module RerankFacts.

Import Retrieval RetrievalFacts Rerank.

Lemma cut_nil {A} (top_k : option Z) : cut (@nil A) top_k = [].
Proof.
  destruct top_k as [k|]; simpl; [|done].
  destruct (k =? 0)%Z; [done|apply slice_to_nil].
Qed.

(** *** Relevance scoring *)

Section Scoring.

Variable float_of_str : str -> option pyfloat.

Variable list_sort : list (Result pyfloat) -> list (Result pyfloat).

Lemma clamp_bounds (x : Q) : (0 <= py_min (py_max x 0) 1 <= 1)%Q.
Proof.
  unfold py_min, py_max.
  destruct (Qlt_bool x 0) eqn:E0.
  - destruct (Qlt_bool 1 0) eqn:E1; [apply Qlt_bool_true in E1; discriminate|].
    split; [apply Qle_refl|discriminate].
  - apply Qlt_bool_false in E0.
    destruct (Qlt_bool 1 x) eqn:E1.
    + split; [discriminate|apply Qle_refl].
    + apply Qlt_bool_false in E1. done.
Qed.

Lemma clamp_id (x : Q) : (0 <= x <= 1)%Q -> py_min (py_max x 0) 1 = x.
Proof.
  intros [H0 H1]. unfold py_min, py_max.
  destruct (Qlt_bool x 0) eqn:E0.
  { apply Qlt_bool_true in E0. exfalso. eapply Qlt_not_le; eauto. }
  destruct (Qlt_bool 1 x) eqn:E1; [|done].
  apply Qlt_bool_true in E1. exfalso. eapply Qlt_not_le; eauto.
Qed.

Lemma clamp_low (x : Q) : (x < 0)%Q -> py_min (py_max x 0) 1 = 0%Q.
Proof.
  intros H. unfold py_min, py_max.
  apply Qlt_bool_true in H. rewrite H. done.
Qed.

Lemma clamp_high (x : Q) : (1 < x)%Q -> py_min (py_max x 0) 1 = 1%Q.
Proof.
  intros H. unfold py_min, py_max.
  destruct (Qlt_bool x 0) eqn:E0.
  { apply Qlt_bool_true in E0. exfalso.
    apply (Qlt_irrefl 0). eapply Qlt_trans; [|exact E0].
    eapply Qlt_trans; [|exact H]. done. }
  apply Qlt_bool_true in H. by rewrite H.
Qed.

(** The clamp of a number is the clamp of numbers. *)
Lemma clamp_finite (x : Q) :
  float_min (float_max (Finite x) (Finite 0)) (Finite 1)
  = Finite (py_min (py_max x 0) 1).
Proof.
  unfold float_min, float_max, py_min, py_max. simpl.
  destruct (Qlt_bool x 0); simpl; [done|]. by destruct (Qlt_bool 1 x).
Qed.

(** A rating is a number between 0 and 1, or NaN. *)
Lemma get_relevance_score_total (generate : nat -> str -> exc str) (n : nat)
    (text query : str) :
  (exists s, _get_relevance_score float_of_str generate n text query = Ok (Finite s) /\
             (0 <= s <= 1)%Q) \/
  _get_relevance_score float_of_str generate n text query = Ok NaN.
Proof.
  unfold _get_relevance_score.
  destruct (generate n (relevance_prompt text query)) as [response|e]; simpl.
  2:{ left. eexists. split; [done|]. split; discriminate. }
  destruct (float_of_str (strip response)) as [[x| | |]|]; simpl.
  - left. rewrite clamp_finite. eexists. split; [done|apply clamp_bounds].
  - left. exists 1%Q. split; [done|]. split; discriminate.
  - left. exists 0%Q. split; [done|]. split; discriminate.
  - by right.
  - left. eexists. split; [done|]. split; discriminate.
Qed.

Lemma score_loop_total (generate : nat -> str -> exc str) (n : nat) (query : str)
    (results : list (Result pyfloat)) :
  exists scored,
    score_loop float_of_str generate n query results = Ok scored /\
    Forall2 (fun r r' => exists s, r' = with_score r s) results scored /\
    forall i r, results !! i = Some r ->
      exists s, _get_relevance_score float_of_str generate (n + i) (text r) query = Ok s /\
                scored !! i = Some (with_score r s).
Proof.
  revert n. induction results as [|r results IH]; intros n; simpl.
  - exists []. split; [done|]. split; [constructor|]. by intros ? ?.
  - assert (Hs : exists s, _get_relevance_score float_of_str generate n (text r) query
                           = Ok s).
    { destruct (get_relevance_score_total generate n (text r) query) as [[s [Hs _]]|Hs];
        by eexists. }
    destruct Hs as [s Hs].
    destruct (IH (S n)) as [scored [Hl [Hf Hi]]].
    rewrite Hs, Hl. simpl. eexists. split; [done|]. split.
    + constructor; [by exists s|done].
    + intros [|i] r' Hr'; simpl in *.
      * injection Hr' as <-. exists s. by rewrite Nat.add_0_r.
      * destruct (Hi i r' Hr') as [s' [H1 H2]]. exists s'.
        by rewrite Nat.add_succ_r.
Qed.

(** C9. The claim holds for every failure and for every answer that is a
    number or an infinity, and fails for an answer that [float] reads as
    NaN. When the call to the language model raises, or the text it returns
    is not a float, the candidate's relevance score is 0.5; a number [x] it
    returns gives [x / 10] clamped to [0, 1], an infinity gives 1 or 0. But
    [float("nan")] is no error, and [min(max(nan, 0.0), 1.0)] is NaN: the
    rating of such an answer is NaN, neither the default nor a number of
    [0, 1]. [_score_relevance] gives every candidate the rating of its own
    call, NaN included, and sorts; [rerank] never raises, with or without a
    collaborator and whatever the collaborator does. *)
Theorem C9_nan_answer_is_neither_defaulted_nor_clamped (config : RerankConfig)
    (generate : nat -> str -> exc str) :
  (forall n text query response,
     generate n (relevance_prompt text query) = Ok response ->
     float_of_str (strip response) = Some NaN ->
     _get_relevance_score float_of_str generate n text query = Ok NaN) /\
  (forall n text query e,
     generate n (relevance_prompt text query) = Raise e ->
     _get_relevance_score float_of_str generate n text query = Ok (Finite (1 # 2))) /\
  (forall n text query response,
     generate n (relevance_prompt text query) = Ok response ->
     float_of_str (strip response) = None ->
     _get_relevance_score float_of_str generate n text query = Ok (Finite (1 # 2))) /\
  (forall n text query response x,
     generate n (relevance_prompt text query) = Ok response ->
     float_of_str (strip response) = Some x ->
     x <> NaN ->
     exists s,
       _get_relevance_score float_of_str generate n text query = Ok (Finite s) /\
       (0 <= s <= 1)%Q /\
       (forall q, x = Finite q ->
          s = py_min (py_max (q / 10) 0) 1 /\
          ((0 <= q / 10 <= 1)%Q -> s = (q / 10)%Q) /\
          ((q / 10 < 0)%Q -> s = 0%Q) /\
          ((1 < q / 10)%Q -> s = 1%Q)) /\
       (x = PosInf -> s = 1%Q) /\
       (x = NegInf -> s = 0%Q)) /\
  (forall results query,
     exists scored,
       _score_relevance (Some generate) float_of_str list_sort results query
         = Ok (list_sort scored) /\
       length scored = length results /\
       forall i r, results !! i = Some r ->
         exists s,
           _get_relevance_score float_of_str generate i (text r) query = Ok s /\
           scored !! i = Some (with_score r s)) /\
  (forall llm_client results query top_k,
     exists out,
       rerank config llm_client float_of_str list_sort results query top_k = Ok out).
Proof.
  split; [|split; [|split; [|split; [|split]]]].
  - intros n text query response H1 H2. unfold _get_relevance_score.
    rewrite H1. simpl. by rewrite H2.
  - intros n text query e H. unfold _get_relevance_score. by rewrite H.
  - intros n text query response H1 H2. unfold _get_relevance_score.
    rewrite H1. simpl. by rewrite H2.
  - intros n text query response x H1 H2 Hx. unfold _get_relevance_score.
    rewrite H1. simpl. rewrite H2. simpl. destruct x as [q| | |]; [| | |done].
    + simpl. rewrite clamp_finite. eexists. split; [done|].
      split; [apply clamp_bounds|]. split; [|split; discriminate].
      intros q' [= <-]. split; [done|].
      split; [apply clamp_id|]. split; [apply clamp_low|apply clamp_high].
    + exists 1%Q. split; [done|]. split; [split; discriminate|].
      split; [discriminate|]. split; [done|discriminate].
    + exists 0%Q. split; [done|]. split; [split; discriminate|].
      split; [discriminate|]. split; [discriminate|done].
  - intros results query.
    destruct (score_loop_total generate 0 query results) as [scored [Hl [Hf Hi]]].
    exists scored. unfold _score_relevance. rewrite Hl. simpl.
    split; [done|]. split; [symmetry; by eapply Forall2_length|].
    exact Hi.
  - intros llm_client results query top_k. unfold rerank.
    destruct (negb (enabled config) || negb (truthy results)); [by eexists|].
    unfold _score_relevance. destruct llm_client as [g|]; simpl; [|by eexists].
    destruct (score_loop_total g 0 query results) as [scored [Hl _]].
    rewrite Hl. simpl. by eexists.
Qed.

End Scoring.

(** C4. Without a collaborator and with the default configuration, results
    whose scores are all at most 1/61 (what rank fusion with the default
    weights and constant assigns) keep their scores and are all removed by
    the relevance threshold: [rerank] returns the empty list. *)
Theorem C4_no_collaborator_drops_fused_scores
    (float_of_str : str -> option pyfloat)
    (list_sort : list (Result pyfloat) -> list (Result pyfloat))
    (results : list RetrievalResult) (query : str) (top_k : option Z) :
  results <> [] ->
  Forall (fun r => (score r <= 1 # 61)%Q) results ->
  _score_relevance None float_of_str list_sort (rated <$> results) query
    = Ok (rated <$> results) /\
  filter (fun r => float_le (Finite (relevance_threshold default_config)) (score r) = true)
         (rated <$> results) = [] /\
  rerank default_config None float_of_str list_sort (rated <$> results) query top_k
    = Ok [].
Proof.
  intros Hne Hsc.
  assert (Hf : filter (fun r => float_le (Finite (relevance_threshold default_config))
                                         (score r) = true)
                      (rated <$> results) = []).
  { clear Hne. induction Hsc as [|r results Hr _ IH]; [done|].
    rewrite fmap_cons, filter_cons, IH. case_decide as Hd; [|done].
    simpl in Hd. apply Qle_bool_iff in Hd. exfalso.
    assert (H : (1 # 2 <= 1 # 61)%Q) by (eapply Qle_trans; eauto).
    revert H. unfold Qle. simpl. lia. }
  split; [done|]. split; [done|].
  unfold rerank, _score_relevance. destruct results as [|r results]; [done|].
  rewrite fmap_cons in *.
  cbn [negb orb enabled default_config truthy bind]. rewrite Hf.
  change (_limit_context default_config (_filter_diversity default_config []))
    with (@nil (Result pyfloat)).
  by rewrite cut_nil.
Qed.

(** *** Diversity *)

Section Diversity.

Context {F : Type}.

Variable config : RerankConfig.

Lemma text_similarity_sym (t1 t2 : str) :
  _text_similarity t1 t2 = _text_similarity t2 t1.
Proof.
  unfold _text_similarity.
  rewrite (orb_comm (bool_decide (word_set t1 = ∅))).
  assert (Hi : word_set t1 ∩ word_set t2 = word_set t2 ∩ word_set t1).
  { apply set_eq. intros x. rewrite !elem_of_intersection. tauto. }
  assert (Hu : word_set t1 ∪ word_set t2 = word_set t2 ∪ word_set t1).
  { apply set_eq. intros x. rewrite !elem_of_union. tauto. }
  by rewrite Hi, Hu.
Qed.

Lemma is_diverse_spec (diverse : list (Result F)) (r a : Result F) :
  is_diverse config diverse r = true -> a ∈ diverse ->
  (_text_similarity (text r) (text a) <= diversity_threshold config)%Q.
Proof.
  unfold is_diverse. rewrite forallb_forall. intros H Ha.
  apply list_elem_of_In in Ha. specialize (H a Ha).
  apply negb_true_iff, Qlt_bool_false in H. done.
Qed.

Lemma pairwise_diverse_snoc (diverse : list (Result F)) (r : Result F) :
  pairwise_diverse config diverse -> is_diverse config diverse r = true ->
  pairwise_diverse config (diverse ++ [r]).
Proof.
  intros Hp Hd i j a b Hij Hi Hj.
  destruct (decide (j < length diverse)%nat) as [Hlt|Hge].
  - rewrite lookup_app_l in Hi, Hj by lia. exact (Hp i j a b Hij Hi Hj).
  - rewrite lookup_app_l in Hi.
    2:{ apply lookup_lt_Some in Hj. rewrite length_app in Hj. simpl in Hj. lia. }
    rewrite lookup_app_r in Hj by lia.
    destruct (j - length diverse)%nat; simpl in Hj; [|done]. injection Hj as <-.
    eapply is_diverse_spec; [done|]. by eapply list_elem_of_lookup_2.
Qed.

Lemma diversity_fold (others diverse : list (Result F)) :
  pairwise_diverse config diverse ->
  pairwise_diverse config
    (fold_left (fun diverse result =>
                  if is_diverse config diverse result then diverse ++ [result] else diverse)
               others diverse) /\
  (diverse <> [] ->
   head (fold_left (fun diverse result =>
                      if is_diverse config diverse result then diverse ++ [result]
                      else diverse)
                   others diverse) = head diverse).
Proof.
  revert diverse. induction others as [|r others IH]; intros diverse Hp; simpl; [done|].
  destruct (is_diverse config diverse r) eqn:E.
  - destruct (IH (diverse ++ [r])) as [H1 H2]; [by apply pairwise_diverse_snoc|].
    split; [done|]. intros Hne. rewrite H2; [|by destruct diverse].
    by destruct diverse.
  - by apply IH.
Qed.

(** C10. Any two results the diversity filter keeps, at different places of
    its output, have a Jaccard similarity of their lowercase word sets at
    most the configured threshold; and the output starts with the first
    input result. *)
Theorem C10_kept_results_pairwise_diverse (results : list (Result F)) :
  (forall i j a b, i <> j ->
     _filter_diversity config results !! i = Some a ->
     _filter_diversity config results !! j = Some b ->
     (_text_similarity (text a) (text b) <= diversity_threshold config)%Q) /\
  head (_filter_diversity config results) = head results.
Proof.
  destruct results as [|first others]; simpl.
  { split; [|done]. by intros i j a b _ ?. }
  destruct (diversity_fold others [first]) as [Hp Hh].
  { intros i j a b Hij Hi Hj. apply lookup_lt_Some in Hj. simpl in Hj. lia. }
  split; [|by apply Hh].
  intros i j a b Hij Hi Hj.
  destruct (decide (i < j)%nat).
  - rewrite text_similarity_sym. by eapply Hp.
  - eapply (Hp j i); [lia|done..].
Qed.

(** *** Context budget *)

Lemma limit_loop_spec (total : Z) (results : list (Result F)) :
  limit_loop config total results `prefix_of` results /\
  (limit_loop config total results = [] \/
   (total + estimated_tokens (limit_loop config total results)
    <= max_context_tokens config)%Z).
Proof.
  revert total. induction results as [|r results IH]; intros total; simpl.
  - split; [done|by left].
  - destruct (total + len (text r) / 4 <=? max_context_tokens config)%Z eqn:E.
    + destruct (IH (total + len (text r) / 4)%Z) as [Hp Hb]. split.
      * by apply prefix_cons.
      * right. simpl. destruct Hb as [->|Hb]; simpl; [apply Z.leb_le in E|]; lia.
    + split; [apply prefix_nil|by left].
Qed.

(** X4. [_limit_context] returns a prefix of its input whose estimated
    token cost, [len(text) // 4] per result, is within the configured
    budget (or nothing at all). *)
Theorem X4_limited_context_fits_the_budget (results : list (Result F)) :
  _limit_context config results `prefix_of` results /\
  (_limit_context config results = [] \/
   (estimated_tokens (_limit_context config results) <= max_context_tokens config)%Z).
Proof.
  destruct (limit_loop_spec 0 results) as [Hp Hb]. split; [done|].
  destruct Hb as [Hb|Hb]; [by left|right]. unfold _limit_context. lia.
Qed.

End Diversity.

(** The diversity filter on four near-duplicates and a distinct result: the
    first and the distinct one are kept (the second shares five of seven
    words with the first, 5/7 > 0.7). *)
Example diversity_scenario :
  chunk_id <$> _filter_diversity default_config Samples.near_duplicates
  = [py "d1"; py "d5"].
Proof. vm_compute. reflexivity. Qed.

(** The stand-in for the sort has the two properties of the sort. *)
Lemma number_of_rated (r : RetrievalResult) : Samples.number_of (rated r) = Some r.
Proof. by destruct r. Qed.

Lemma rated_number_of (r : Result pyfloat) (n : RetrievalResult) :
  Samples.number_of r = Some n -> rated n = r.
Proof.
  unfold Samples.number_of. destruct r as [c t [q| | |] s m]; simpl; [|done..].
  by intros [= <-].
Qed.

Lemma numbers_of_rated (l : list RetrievalResult) :
  mapM Samples.number_of (rated <$> l) = Some l.
Proof.
  induction l as [|r l IH]; [done|].
  rewrite fmap_cons. cbn [mapM]. rewrite number_of_rated. simpl.
  rewrite IH. done.
Qed.

Lemma rated_numbers_of (l : list (Result pyfloat)) (numbers : list RetrievalResult) :
  mapM Samples.number_of l = Some numbers -> rated <$> numbers = l.
Proof.
  revert numbers. induction l as [|r l IH]; intros numbers; cbn [mapM].
  - by intros [= <-].
  - destruct (Samples.number_of r) as [n|] eqn:En; [|done]. simpl.
    destruct (mapM Samples.number_of l) as [ns|]; [|done]. simpl.
    intros [= <-]. rewrite fmap_cons, (rated_number_of r n En), (IH ns); done.
Qed.

Lemma sample_sort_sorts : sorts_by_score Samples.sample_sort.
Proof.
  split.
  - intros l. unfold Samples.sample_sort.
    destruct (mapM Samples.number_of l) as [numbers|] eqn:E; [|done].
    rewrite <- (rated_numbers_of l numbers E).
    apply fmap_Permutation, sort_desc_perm.
  - intros l. unfold Samples.sample_sort. by rewrite numbers_of_rated.
Qed.

(** Reranking with a collaborator that fails: the candidates get 0.7, 0.5
    (failed call), 0.5 (not a number), 1 and 1 (clamped), are sorted by the
    new scores, and the diversity filter runs on that order. *)
Example rerank_with_failing_collaborator :
  match rerank default_config (Some Samples.flaky_generate) Samples.sample_float
          Samples.sample_sort (rated <$> Samples.near_duplicates) (py "features") None with
  | Ok out => (fun r => (chunk_id r, score r)) <$> out
  | Raise _ => []
  end
  = [(py "d4", Finite 1); (py "d5", Finite 1); (py "d2", Finite (1 # 2))].
Proof. vm_compute. reflexivity. Qed.

(** An answer [nan] is rated NaN: the second candidate keeps that rating
    through [_score_relevance], and the threshold filter of [rerank], where
    [nan >= 0.5] is false, removes it without a trace. *)
Example nan_rating_scenario :
  _get_relevance_score Samples.sample_float Samples.nan_generate 1
    (py "deep networks learn features from images") (py "features") = Ok NaN /\
  (exists r1 r2,
     score_loop Samples.sample_float Samples.nan_generate 0 (py "features")
       (rated <$> take 2 Samples.near_duplicates) = Ok [r1; r2] /\
     chunk_id r2 = py "d2" /\ score r2 = NaN) /\
  match rerank default_config (Some Samples.nan_generate) Samples.sample_float
          Samples.sample_sort (rated <$> take 2 Samples.near_duplicates)
          (py "features") None with
  | Ok out => chunk_id <$> out
  | Raise _ => []
  end = [py "d1"].
Proof.
  split; [vm_compute; reflexivity|]. split; [|vm_compute; reflexivity].
  eexists _, _. split; [vm_compute; reflexivity|]. split; reflexivity.
Qed.

End RerankFacts.

(** ** Instances of the reranker properties *)

Module RerankInstances.

Import Retrieval RerankFacts Rerank.

Lemma C4_no_collaborator_drops_fused_scores_witness :
  _score_relevance None (fun _ => None) Samples.sample_sort
    (rated <$> Samples.fused_sample) (py "cat")
    = Ok (rated <$> Samples.fused_sample) /\
  filter (fun r => float_le (Finite (relevance_threshold default_config)) (score r) = true)
         (rated <$> Samples.fused_sample) = [] /\
  rerank default_config None (fun _ => None) Samples.sample_sort
    (rated <$> Samples.fused_sample) (py "cat") (Some 3%Z)
    = Ok [].
Proof.
  apply (C4_no_collaborator_drops_fused_scores (fun _ => None) Samples.sample_sort
           Samples.fused_sample (py "cat") (Some 3%Z)).
  - vm_compute. discriminate.
  - vm_compute. repeat constructor; discriminate.
Defined.

End RerankInstances.


(** ** Ordering, a second time: what a descending sort establishes *)

Module OrderFacts.

Import Retrieval RetrievalFacts.

Lemma insert_desc_sorted {A} (key : A -> Q) (x : A) (l : list A) :
  StronglySorted (fun a b => (key b <= key a)%Q) l ->
  StronglySorted (fun a b => (key b <= key a)%Q) (insert_desc key x l).
Proof.
  intros Hs. induction Hs as [|y l Hs IH Hy]; simpl.
  - repeat constructor.
  - destruct (Qlt_bool (key x) (key y)) eqn:E.
    + apply Qlt_bool_true in E. constructor; [done|].
      rewrite insert_desc_perm. constructor; [by apply Qlt_le_weak|done].
    + apply Qlt_bool_false in E. constructor; [by constructor|].
      constructor; [done|].
      rewrite Forall_forall in Hy |- *. intros z Hz.
      eapply Qle_trans; [by apply Hy|done].
Qed.

Lemma sort_desc_sorted {A} (key : A -> Q) (l : list A) :
  StronglySorted (fun a b => (key b <= key a)%Q) (sort_desc key l).
Proof.
  induction l as [|x l IH]; simpl; [constructor|]. by apply insert_desc_sorted.
Qed.

Lemma slice_to_prefix {A} (l : list A) (k : Z) : slice_to l k `prefix_of` l.
Proof. unfold slice_to. destruct (k <? 0)%Z; apply prefix_take. Qed.

Lemma slice_to_length {A} (l : list A) (k : Z) :
  (0 <= k)%Z -> (len (slice_to l k) <= k)%Z.
Proof.
  intros Hk. unfold slice_to. rewrite (proj2 (Z.ltb_ge _ _) Hk).
  unfold len. rewrite length_take. lia.
Qed.

End OrderFacts.

Module RerankMore.

Import Retrieval RetrievalFacts OrderFacts Rerank RerankFacts.

Lemma jaccard_bounds (a b : nat) :
  (a <= b)%nat -> (0 < b)%nat ->
  (0 <= inject_Z (Z.of_nat a) / inject_Z (Z.of_nat b) <= 1)%Q.
Proof.
  intros Hab Hb.
  assert (Hb' : (0 < inject_Z (Z.of_nat b))%Q).
  { change 0%Q with (inject_Z 0). rewrite <- Zlt_Qlt. lia. }
  split.
  - apply Qle_shift_div_l; [done|]. rewrite Qmult_0_l.
    change 0%Q with (inject_Z 0). rewrite <- Zle_Qle. lia.
  - apply Qle_shift_div_r; [done|]. rewrite Qmult_1_l. rewrite <- Zle_Qle. lia.
Qed.

Lemma jaccard_one (a b : nat) :
  (0 < b)%nat ->
  ((inject_Z (Z.of_nat a) / inject_Z (Z.of_nat b) == 1)%Q <-> a = b).
Proof.
  intros Hb.
  assert (Hb' : ~ (inject_Z (Z.of_nat b) == 0)%Q).
  { change 0%Q with (inject_Z 0). rewrite inject_Z_injective. lia. }
  split.
  - intros H.
    assert (E : (inject_Z (Z.of_nat a) == inject_Z (Z.of_nat b))%Q).
    { rewrite <- (Qmult_div_r (inject_Z (Z.of_nat a)) (inject_Z (Z.of_nat b))) by done.
      rewrite H. ring. }
    rewrite inject_Z_injective in E. lia.
  - intros ->. field. done.
Qed.

Lemma jaccard_zero (a b : nat) :
  (0 < b)%nat ->
  ((inject_Z (Z.of_nat a) / inject_Z (Z.of_nat b) == 0)%Q <-> a = 0%nat).
Proof.
  intros Hb.
  assert (Hb' : ~ (inject_Z (Z.of_nat b) == 0)%Q).
  { change 0%Q with (inject_Z 0). rewrite inject_Z_injective. lia. }
  split.
  - intros H.
    assert (E : (inject_Z (Z.of_nat a) == inject_Z 0)%Q).
    { rewrite <- (Qmult_div_r (inject_Z (Z.of_nat a)) (inject_Z (Z.of_nat b))) by done.
      rewrite H. ring. }
    rewrite inject_Z_injective in E. lia.
  - intros ->. simpl. field. done.
Qed.

(** X5. [_text_similarity] is the Jaccard index of the two lower-case word
    sets: it lies between 0 and 1, does not depend on the order of its
    arguments, is 1 exactly when the two texts have the same words (and at
    least one), and is 0 exactly when they share no word. *)
Theorem X5_text_similarity_is_a_jaccard_index (text1 text2 : str) :
  (0 <= _text_similarity text1 text2 <= 1)%Q /\
  _text_similarity text1 text2 = _text_similarity text2 text1 /\
  ((_text_similarity text1 text2 == 1)%Q <->
     word_set text1 = word_set text2 /\ words (lower text1) <> []) /\
  ((_text_similarity text1 text2 == 0)%Q <->
     forall w, ~ (w ∈ words (lower text1) /\ w ∈ words (lower text2))).
Proof.
  split; [|split; [apply text_similarity_sym|]].
  - unfold _text_similarity.
    destruct (bool_decide (word_set text1 = ∅) || bool_decide (word_set text2 = ∅));
      [done|].
    destruct (0 <? size (word_set text1 ∪ word_set text2))%nat eqn:E; [|done].
    apply Nat.ltb_lt in E. apply jaccard_bounds; [|done].
    apply subseteq_size. set_solver.
  - assert (Hempty : forall t, word_set t = ∅ <-> words (lower t) = []).
    { intros t. unfold word_set. split.
      - intros H. destruct (words (lower t)) as [|w ws]; [done|].
        exfalso. assert (Hw : w ∈ (list_to_set (w :: ws) : gset str)) by set_solver.
        rewrite H in Hw. set_solver.
      - by intros ->. }
    assert (Hin : forall t w, w ∈ word_set t <-> w ∈ words (lower t)).
    { intros t w. unfold word_set. by rewrite elem_of_list_to_set. }
    unfold _text_similarity.
    destruct (bool_decide (word_set text1 = ∅)) eqn:E1.
    { apply bool_decide_eq_true in E1. simpl. split.
      - split; [intros H; discriminate H|]. intros [_ H]. by apply Hempty in E1.
      - split; [|done]. intros _ w [Hw _]. apply Hin in Hw. rewrite E1 in Hw. set_solver. }
    apply bool_decide_eq_false in E1.
    destruct (bool_decide (word_set text2 = ∅)) eqn:E2.
    { apply bool_decide_eq_true in E2. simpl. split.
      - split; [intros H; discriminate H|]. intros [H _]. congruence.
      - split; [|done]. intros _ w [_ Hw]. apply Hin in Hw. rewrite E2 in Hw. set_solver. }
    apply bool_decide_eq_false in E2. simpl.
    assert (Hu : (0 < size (word_set text1 ∪ word_set text2))%nat).
    { destruct (size (word_set text1 ∪ word_set text2)) eqn:Es; [|lia].
      apply size_empty_inv in Es. exfalso. apply E1. set_solver. }
    rewrite (proj2 (Nat.ltb_lt _ _) Hu). split.
    + rewrite jaccard_one by done. split.
      * intros Hs. split; [|by rewrite <- Hempty].
        assert (Heq : word_set text1 ∩ word_set text2 = word_set text1 ∪ word_set text2).
        { apply set_subseteq_size_eq; [set_solver|lia]. }
        apply set_eq. intros w.
        assert (Hw : w ∈ word_set text1 ∩ word_set text2 <-> w ∈ word_set text1 ∪ word_set text2)
          by (by rewrite Heq).
        rewrite elem_of_intersection, elem_of_union in Hw. tauto.
      * intros [Hs _]. rewrite <- Hs.
        f_equal; apply set_eq; intros w;
          rewrite ?elem_of_intersection, ?elem_of_union; tauto.
    + rewrite jaccard_zero by done. split.
      * intros Hs w [H1 H2]. apply size_empty_inv in Hs.
        apply Hin in H1, H2. set_solver.
      * intros H. apply size_empty_iff, elem_of_equiv_empty. intros w Hw.
        apply elem_of_intersection in Hw as [H1 H2]. apply Hin in H1, H2.
        by apply (H w).
Qed.

Section Pipeline.

Context {F : Type}.

Variable config : RerankConfig.

Lemma is_diverse_false (diverse : list (Result F)) (r : Result F) :
  is_diverse config diverse r = false ->
  exists a, a ∈ diverse /\
    (diversity_threshold config < _text_similarity (text r) (text a))%Q.
Proof.
  unfold is_diverse. induction diverse as [|a diverse IH]; simpl; [done|].
  destruct (Qlt_bool (diversity_threshold config) (_text_similarity (text r) (text a)))
    eqn:E; simpl.
  - intros _. exists a. split; [apply list_elem_of_here|by apply Qlt_bool_true].
  - intros H. destruct (IH H) as [b [Hb Hs]]. exists b.
    split; [by apply list_elem_of_further|done].
Qed.

Lemma diversity_fold_kept (others diverse : list (Result F)) :
  exists kept,
    fold_left (fun diverse result =>
                 if is_diverse config diverse result then diverse ++ [result] else diverse)
              others diverse = diverse ++ kept /\
    sublist kept others /\
    forall r, r ∈ others ->
      r ∈ diverse ++ kept \/
      exists a, a ∈ diverse ++ kept /\
        (diversity_threshold config < _text_similarity (text r) (text a))%Q.
Proof.
  revert diverse. induction others as [|r others IH]; intros diverse; simpl.
  - exists []. rewrite app_nil_r. split; [done|]. split; [done|].
    by intros r ?%elem_of_nil.
  - destruct (is_diverse config diverse r) eqn:E.
    + destruct (IH (diverse ++ [r])) as [kept [Hf [Hs Hc]]].
      exists (r :: kept). rewrite Hf, <- app_assoc. split; [done|].
      split; [by apply sublist_skip|].
      intros r' [->|Hr']%elem_of_cons.
      * left. set_solver.
      * rewrite <- app_assoc in Hc. by apply Hc.
    + destruct (IH diverse) as [kept [Hf [Hs Hc]]].
      exists kept. split; [done|]. split; [by apply sublist_cons|].
      intros r' [->|Hr']%elem_of_cons; [|by apply Hc].
      right. destruct (is_diverse_false diverse r E) as [a [Ha Hsim]].
      exists a. split; [set_solver|done].
Qed.

Lemma filter_diversity_sublist (results : list (Result F)) :
  sublist (_filter_diversity config results) results.
Proof.
  destruct results as [|first others]; simpl; [done|].
  destruct (diversity_fold_kept others [first]) as [kept [-> [Hs _]]].
  simpl. by apply sublist_skip.
Qed.

(** X6. The diversity filter keeps a subsequence of its input, and it drops
    a result only for a reason: every input result is either kept or more
    similar than the threshold to a result that is kept. *)
Theorem X6_diversity_filter_drops_only_near_duplicates (results : list (Result F)) :
  sublist (_filter_diversity config results) results /\
  forall r, r ∈ results ->
    r ∈ _filter_diversity config results \/
    exists a, a ∈ _filter_diversity config results /\
      (diversity_threshold config < _text_similarity (text r) (text a))%Q.
Proof.
  split; [apply filter_diversity_sublist|].
  destruct results as [|first others]; simpl; [by intros r ?%elem_of_nil|].
  destruct (diversity_fold_kept others [first]) as [kept [-> [_ Hc]]].
  intros r [->|Hr]%elem_of_cons; [left; set_solver|by apply Hc].
Qed.

Lemma estimated_tokens_nonneg (results : list (Result F)) :
  (0 <= estimated_tokens results)%Z.
Proof.
  induction results as [|r results IH]; simpl; [done|].
  assert (0 <= len (text r) / 4)%Z by (apply Z.div_pos; unfold len; lia). lia.
Qed.

Lemma estimated_tokens_app (l k : list (Result F)) :
  estimated_tokens (l ++ k) = (estimated_tokens l + estimated_tokens k)%Z.
Proof. induction l as [|r l IH]; simpl; [done|]. rewrite IH. lia. Qed.

Lemma limit_loop_stop (total : Z) (results : list (Result F)) :
  limit_loop config total results = results \/
  exists r rest,
    results = limit_loop config total results ++ r :: rest /\
    (max_context_tokens config
     < total + estimated_tokens (limit_loop config total results) + len (text r) / 4)%Z.
Proof.
  revert total. induction results as [|r results IH]; intros total; simpl; [by left|].
  destruct (total + len (text r) / 4 <=? max_context_tokens config)%Z eqn:E.
  - destruct (IH (total + len (text r) / 4)%Z) as [->|[r' [rest [Hr Hlt]]]]; [by left|].
    right. exists r', rest. simpl. split; [by rewrite <- Hr|lia].
  - right. exists r, results. apply Z.leb_gt in E. simpl. split; [done|lia].
Qed.

(** X7. [_limit_context] stops at the first result that does not fit: it
    returns the whole list, or the result that follows its output would push
    the estimated token count past [max_context_tokens] (every later result
    is left out too, whatever its size). *)
Theorem X7_limit_context_stops_at_first_overflow (results : list (Result F)) :
  _limit_context config results = results \/
  exists r rest,
    results = _limit_context config results ++ r :: rest /\
    (max_context_tokens config
     < estimated_tokens (_limit_context config results) + len (text r) / 4)%Z.
Proof.
  unfold _limit_context.
  destruct (limit_loop_stop 0 results) as [H|[r [rest [H1 H2]]]]; [by left|].
  right. exists r, rest. split; [done|lia].
Qed.

Lemma cut_prefix {A} (l : list A) (top_k : option Z) : cut l top_k `prefix_of` l.
Proof.
  destruct top_k as [k|]; simpl; [|done].
  destruct (k =? 0)%Z; [done|apply slice_to_prefix].
Qed.

Lemma prefix_sublist {A} (l k : list A) : l `prefix_of` k -> sublist l k.
Proof. intros [t ->]. by apply sublist_inserts_r. Qed.

Lemma pairwise_diverse_sublist (l k : list (Result F)) :
  sublist k l -> pairwise_diverse config l -> pairwise_diverse config k.
Proof.
  intros Hsub Hp.
  assert (Hs : StronglySorted
                 (fun a b => (_text_similarity (text b) (text a)
                              <= diversity_threshold config)%Q) l).
  { apply StronglySorted_of_lookup. intros i j a b Hij Hi Hj. by eapply Hp. }
  intros i j a b Hij Hi Hj.
  exact (StronglySorted_lookup _ k i j a b
           (StronglySorted_sublist _ l k Hsub Hs) Hij Hi Hj).
Qed.

End Pipeline.

Section EndToEnd.

Variable config : RerankConfig.

Variable float_of_str : str -> option pyfloat.

Variable list_sort : list (Result pyfloat) -> list (Result pyfloat).

Lemma float_le_finite (a b : Q) : float_le (Finite a) (Finite b) = true <-> (a <= b)%Q.
Proof. simpl. apply Qle_bool_iff. Qed.

(** Results whose scores are all numbers are rated results. *)
Lemma all_numbers_rated (l : list (Result pyfloat)) :
  Forall (fun r => exists q, score r = Finite q) l ->
  exists numbers : list RetrievalResult, l = rated <$> numbers.
Proof.
  induction 1 as [|r l [q Hq] _ [numbers ->]]; [by exists []|].
  exists (with_score r q :: numbers). rewrite fmap_cons. f_equal.
  destruct r as [c t s src m]. simpl in Hq. subst s. done.
Qed.

Lemma rated_sorted (l : list RetrievalResult) :
  StronglySorted (fun a b => (score b <= score a)%Q) l ->
  StronglySorted (fun a b => float_le (score b) (score a) = true) (rated <$> l).
Proof.
  induction 1 as [|r l _ IH Hr]; [constructor|].
  rewrite fmap_cons. constructor; [done|].
  apply Forall_fmap. eapply Forall_impl; [exact Hr|].
  intros b Hb. by apply float_le_finite.
Qed.

(** X8. What [rerank] returns when it is enabled and has candidates, for a
    sort that permutes its list and sorts numbers: every result is an input
    result, possibly with a new score, and its score reaches the relevance
    threshold (so it is not NaN); the results are pairwise diverse and fit
    the token budget; there are at most [top_k] of them for a positive
    [top_k]. With a collaborator none of whose ratings is NaN they are in
    descending score order. *)
Theorem X8_rerank_output_is_relevant_diverse_and_bounded
    (llm_client : option (nat -> str -> exc str)) (results : list (Result pyfloat))
    (query : str) (top_k : option Z) :
  sorts_by_score list_sort ->
  enabled config = true -> results <> [] ->
  exists out,
    rerank config llm_client float_of_str list_sort results query top_k = Ok out /\
    Forall (fun o => float_le (Finite (relevance_threshold config)) (score o) = true /\
              score o <> NaN /\
              exists r s, r ∈ results /\ o = with_score r s) out /\
    pairwise_diverse config out /\
    (out = [] \/ (estimated_tokens out <= max_context_tokens config)%Z) /\
    (length out <= length results)%nat /\
    (forall k, top_k = Some k -> (0 < k)%Z -> (len out <= k)%Z) /\
    (forall generate, llm_client = Some generate ->
       (forall i r, results !! i = Some r ->
          _get_relevance_score float_of_str generate i (text r) query <> Ok NaN) ->
       StronglySorted (fun a b => float_le (score b) (score a) = true) out).
Proof.
  intros [Hperm Hsort] Hen Hne. unfold rerank. rewrite Hen.
  destruct results as [|r0 results']; [done|]. set (results := r0 :: results') in *.
  change (negb true || negb (truthy results)) with false. cbv iota.
  assert (Hscored : exists scored,
            _score_relevance llm_client float_of_str list_sort results query = Ok scored /\
            Forall (fun o => exists r s, r ∈ results /\ o = with_score r s) scored /\
            length scored = length results /\
            (forall generate, llm_client = Some generate ->
               (forall i r, results !! i = Some r ->
                  _get_relevance_score float_of_str generate i (text r) query <> Ok NaN) ->
               StronglySorted (fun a b => float_le (score b) (score a) = true) scored)).
  { unfold _score_relevance. destruct llm_client as [generate|].
    - destruct (score_loop_total float_of_str generate 0 query results)
        as [scored [Hl [Hf Hi]]].
      rewrite Hl. simpl. eexists. split; [done|]. split; [|split].
      + rewrite Hperm. apply Forall_forall. intros o Ho.
        apply list_elem_of_lookup in Ho as [i Ho].
        destruct (Forall2_lookup_r _ _ _ _ _ Hf Ho) as [r [Hr [s ->]]].
        exists r, s. split; [by eapply list_elem_of_lookup_2|done].
      + rewrite Hperm. symmetry. exact (Forall2_length _ _ _ Hf).
      + intros g [= <-] Hnan.
        assert (Hnum : Forall (fun r => exists q, score r = Finite q) scored).
        { apply Forall_forall. intros o Ho.
          apply list_elem_of_lookup in Ho as [i Ho].
          destruct (Forall2_lookup_r _ _ _ _ _ Hf Ho) as [r [Hr _]].
          destruct (Hi i r Hr) as [s [Hs Hsc]]. simpl in Hs.
          rewrite Ho in Hsc. injection Hsc as ->.
          destruct (get_relevance_score_total float_of_str generate i (text r) query)
            as [[q [Hq _]]|Hq].
          - rewrite Hq in Hs. injection Hs as <-. by exists q.
          - by destruct (Hnan i r Hr). }
        destruct (all_numbers_rated scored Hnum) as [numbers ->].
        rewrite Hsort. apply rated_sorted, sort_desc_sorted.
    - eexists. split; [done|]. split; [|split; [done|done]].
      apply Forall_forall. intros o Ho. exists o, (score o).
      split; [done|by destruct o]. }
  destruct Hscored as [scored [-> [Hfrom [Hlen Hsorted]]]]. cbn [bind].
  set (filtered := filter (fun r => float_le (Finite (relevance_threshold config))
                                             (score r) = true)
                          scored).
  set (limited := _limit_context config (_filter_diversity config filtered)).
  assert (Hsub : sublist (cut limited top_k) scored).
  { etrans; [apply prefix_sublist, cut_prefix|].
    etrans; [apply prefix_sublist, (limit_loop_spec config 0)|].
    etrans; [apply filter_diversity_sublist|]. apply sublist_filter. }
  assert (Hsubf : sublist (cut limited top_k) filtered).
  { etrans; [apply prefix_sublist, cut_prefix|].
    etrans; [apply prefix_sublist, (limit_loop_spec config 0)|].
    apply filter_diversity_sublist. }
  eexists. split; [done|]. split; [|split; [|split; [|split; [|split]]]].
  - apply Forall_forall. intros o Ho.
    assert (Hle : float_le (Finite (relevance_threshold config)) (score o) = true).
    { eapply elem_of_sublist in Ho; [|exact Hsubf].
      by apply list_elem_of_filter in Ho as [Ho _]. }
    split; [done|]. split.
    + intros E. by rewrite E in Hle.
    + eapply elem_of_sublist in Ho; [|exact Hsub].
      rewrite Forall_forall in Hfrom. by apply Hfrom.
  - eapply pairwise_diverse_sublist.
    + etrans; [apply prefix_sublist, cut_prefix|].
      apply prefix_sublist, (limit_loop_spec config 0).
    + destruct filtered as [|first others]; [by intros i j a b _ ?|]. simpl.
      apply diversity_fold.
      intros i j a b Hij Hi Hj. apply lookup_lt_Some in Hj. simpl in Hj. lia.
  - destruct (cut_prefix limited top_k) as [rest Hrest].
    destruct (limit_loop_spec config 0 (_filter_diversity config filtered)) as [_ [Hl|Hl]].
    + left. fold (_limit_context config (_filter_diversity config filtered)) in Hl.
      fold limited in Hl. rewrite Hl. apply cut_nil.
    + right. fold (_limit_context config (_filter_diversity config filtered)) in Hl.
      fold limited in Hl. rewrite Hrest, estimated_tokens_app in Hl.
      pose proof (estimated_tokens_nonneg rest). lia.
  - etrans; [exact (sublist_length _ _ Hsub)|]. by rewrite Hlen.
  - intros k -> Hk. simpl. rewrite (proj2 (Z.eqb_neq k 0)) by lia.
    apply slice_to_length. lia.
  - intros g Hg Hnan. eapply StronglySorted_sublist; [exact Hsub|by eapply Hsorted].
Qed.

End EndToEnd.

Lemma X8_rerank_output_is_relevant_diverse_and_bounded_witness :
  exists out,
    rerank default_config (Some Samples.flaky_generate) Samples.sample_float
      Samples.sample_sort (rated <$> Samples.near_duplicates) (py "features") (Some 2%Z)
      = Ok out /\
    Forall (fun o => float_le (Finite (relevance_threshold default_config)) (score o) = true /\
              score o <> NaN /\
              exists r s, r ∈ rated <$> Samples.near_duplicates /\ o = with_score r s) out /\
    pairwise_diverse default_config out /\
    (out = [] \/ (estimated_tokens out <= max_context_tokens default_config)%Z) /\
    (length out <= length (rated <$> Samples.near_duplicates))%nat /\
    (forall k, Some 2%Z = Some k -> (0 < k)%Z -> (len out <= k)%Z) /\
    (forall generate, Some Samples.flaky_generate = Some generate ->
       (forall i r, (rated <$> Samples.near_duplicates) !! i = Some r ->
          _get_relevance_score Samples.sample_float generate i (text r) (py "features")
          <> Ok NaN) ->
       StronglySorted (fun a b => float_le (score b) (score a) = true) out).
Proof.
  apply (X8_rerank_output_is_relevant_diverse_and_bounded default_config
           Samples.sample_float Samples.sample_sort (Some Samples.flaky_generate)
           (rated <$> Samples.near_duplicates) (py "features") (Some 2%Z)).
  - exact sample_sort_sorts.
  - reflexivity.
  - discriminate.
Defined.

End RerankMore.


(** ** The hybrid retriever *)

Module HybridRetrieverFacts.

Import Retrieval RetrievalFacts OrderFacts BM25 BM25Facts Hybrid HybridFacts HybridRetriever.

(** *** Stability of the descending sort *)

(** [x] stands in front of [y] in [l]. *)
Lemma insert_desc_stable {A} (key : A -> Q) (B : A -> A -> Prop) (x : A) (l : list A) :
  Forall (B x) l ->
  StronglySorted (fun a b => (key b <= key a)%Q /\ ((key a == key b)%Q -> B a b)) l ->
  StronglySorted (fun a b => (key b <= key a)%Q /\ ((key a == key b)%Q -> B a b))
                 (insert_desc key x l).
Proof.
  intros HB Hs. induction Hs as [|y l Hs IH Hy]; simpl.
  - repeat constructor.
  - apply Forall_cons in HB as [Hxy HB].
    destruct (Qlt_bool (key x) (key y)) eqn:E.
    + apply Qlt_bool_true in E. constructor; [by apply IH|].
      rewrite insert_desc_perm. constructor; [|done].
      split; [by apply Qlt_le_weak|].
      intros Heq. rewrite Heq in E. by apply Qlt_irrefl in E.
    + apply Qlt_bool_false in E. constructor; [by constructor|].
      constructor; [by split|].
      rewrite Forall_forall in Hy, HB |- *. intros z Hz.
      destruct (Hy z Hz) as [Hzy _]. split.
      * eapply Qle_trans; eauto.
      * intros _. by apply HB.
Qed.

Lemma sort_desc_stable {A} (key : A -> Q) (l : list A) :
  StronglySorted
    (fun a b => (key b <= key a)%Q /\
       ((key a == key b)%Q ->
        exists i j, (i < j)%nat /\ l !! i = Some a /\ l !! j = Some b))
    (sort_desc key l).
Proof.
  induction l as [|x l IH]; simpl; [constructor|].
  apply insert_desc_stable.
  - rewrite Forall_forall. intros y Hy. rewrite sort_desc_perm in Hy.
    apply list_elem_of_lookup in Hy as [j Hj]. exists 0%nat, (S j).
    split; [lia|done].
  - clear -IH. induction IH as [|a k Hs IH Ha]; constructor; [done|].
    eapply Forall_impl; [exact Ha|]. intros b [H1 H2]. split; [done|].
    intros Heq. destruct (H2 Heq) as (i & j & Hij & Hi & Hj).
    exists (S i), (S j). split; [lia|done].
Qed.

(** *** The order of first appearance *)

Lemma add_score_keys (scores : list (str * Q)) (c : str) (x : Q) :
  (add_score scores c x).*1
  = if decide (c ∈ scores.*1) then scores.*1 else scores.*1 ++ [c].
Proof.
  induction scores as [|[c' v] scores IH].
  - destruct (decide (c ∈ ([] : list (str * Q)).*1)) as [Hin|Hin]; [|done].
    by apply elem_of_nil in Hin.
  - cbn [add_score]. case_bool_decide as E.
    + subst. destruct (decide (c ∈ ((c, v) :: scores).*1)) as [Hin|Hin]; [done|].
      exfalso. apply Hin. apply list_elem_of_here.
    + rewrite fmap_cons, IH. cbn [fst].
      destruct (decide (c ∈ scores.*1)) as [Hin|Hin];
        destruct (decide (c ∈ ((c', v) :: scores).*1)) as [Hin'|Hin']; try done.
      * exfalso. apply Hin'. by apply list_elem_of_further.
      * exfalso. rewrite fmap_cons in Hin'.
        apply elem_of_cons in Hin' as [?|?]; [by subst|done].
Qed.

Lemma first_seen_step (K P : list str) (c : str) :
  first_seen K P ->
  first_seen (if decide (c ∈ K) then K else K ++ [c]) (P ++ [c]).
Proof.
  intros (Hnd & Hdom & Hord). destruct (decide (c ∈ K)) as [Hin|Hin].
  - split; [done|]. split.
    + intros id. rewrite elem_of_app, list_elem_of_singleton, <- Hdom.
      split; [tauto|]. intros [?| ->]; done.
    + intros i j a b Hij Hi Hj.
      destruct (Hord i j a b Hij Hi Hj) as [p [Hp Hq]].
      exists p. split; [by apply lookup_app_l_Some|].
      intros q Hq'. apply lookup_app_Some in Hq' as [Hq'|[Hge Hq']]; [by apply Hq|].
      apply lookup_lt_Some in Hp. lia.
  - split; [|split].
    + apply NoDup_app. split; [done|]. split; [|apply NoDup_singleton].
      intros x Hx ->%list_elem_of_singleton. done.
    + intros id. rewrite !elem_of_app, Hdom. tauto.
    + intros i j a b Hij Hi Hj.
      apply lookup_app_Some in Hj as [Hj|[Hge Hj]].
      * rewrite lookup_app_l in Hi by (apply lookup_lt_Some in Hj; lia).
        destruct (Hord i j a b Hij Hi Hj) as [p [Hp Hq]].
        exists p. split; [by apply lookup_app_l_Some|].
        intros q Hq'. apply lookup_app_Some in Hq' as [Hq'|[Hge Hq']]; [by apply Hq|].
        apply lookup_lt_Some in Hp. lia.
      * destruct (j - length K)%nat eqn:Ej; simpl in Hj; [|done]. injection Hj as <-.
        rewrite lookup_app_l in Hi by lia.
        assert (Ha : a ∈ P) by (apply Hdom; by eapply list_elem_of_lookup_2).
        apply list_elem_of_lookup in Ha as [p Hp].
        exists p. split; [by apply lookup_app_l_Some|].
        intros q Hq'. apply lookup_app_Some in Hq' as [Hq'|[Hge' Hq']].
        -- exfalso. apply Hin, Hdom. by eapply list_elem_of_lookup_2.
        -- apply lookup_lt_Some in Hp. lia.
Qed.

Lemma score_loop_first_seen (weight : Q) (k : Z) (results : list RetrievalResult) :
  forall (rank : nat) (st st' : list (str * Q) * gmap str RetrievalResult) (P : list str),
  first_seen st.1.*1 P ->
  score_loop weight k rank results st = Ok st' ->
  first_seen st'.1.*1 (P ++ (chunk_id <$> results)).
Proof.
  induction results as [|r results IH]; intros rank [scores chunks] st' P Hfs; simpl.
  - intros [= <-]. by rewrite app_nil_r.
  - destruct (contribution weight k rank) as [x|e]; simpl; [|done].
    intros Hloop. apply (IH _ _ _ (P ++ [chunk_id r])) in Hloop.
    + by rewrite <- app_assoc in Hloop.
    + simpl. rewrite add_score_keys. by apply first_seen_step.
Qed.

Lemma first_seen_nil : first_seen [] [].
Proof.
  split; [constructor|]. split; [done|]. by intros i j a b _ ?.
Qed.

(** The fusion for a non-negative constant: its results, in order, are the
    entries of the sorted score table, whose keys stand in the order of
    first appearance. *)
Lemma rrf_fusion_order (config : HybridConfig)
    (bm25_results vector_results : list RetrievalResult) (k : Z) :
  (0 <= k)%Z ->
  exists scores out,
    rrf_fusion config bm25_results vector_results k = Ok out /\
    first_seen scores.*1 (chunk_id <$> bm25_results ++ vector_results) /\
    Forall2 (fun p r => chunk_id r = p.1 /\ score r = p.2 /\ source r = py "hybrid")
            (sort_desc snd scores) out.
Proof.
  intros Hk. unfold rrf_fusion.
  destruct (score_loop_spec (bm25_weight config) k bm25_results Hk 0 ([], ∅))
    as [st1 [H1 [Hc1 _]]].
  { split; [constructor|]. split.
    - intros id. simpl. rewrite elem_of_nil. split; [done|]. intros [r Hr].
      by rewrite lookup_empty in Hr.
    - intros id r. simpl. by rewrite lookup_empty. }
  destruct (score_loop_spec (vector_weight config) k vector_results Hk 0 st1 Hc1)
    as [[scores chunks] [H2 [Hc2 _]]].
  pose proof (score_loop_first_seen _ _ _ 0%nat ([], ∅) st1 [] first_seen_nil H1) as Hf1.
  pose proof (score_loop_first_seen _ _ _ _ _ _ _ Hf1 H2) as Hf2.
  rewrite H1. simpl. rewrite H2. simpl.
  destruct Hc2 as [Hnd [Hdom Hid]]. simpl in *.
  destruct (fused_spec chunks (sort_desc snd scores)) as [out [Hout Hrel]].
  { intros id Hin. apply Hdom. by rewrite sort_desc_perm in Hin. }
  { done. }
  exists scores, out. split; [done|]. split; [|done].
  by rewrite fmap_app.
Qed.

(** X9. For a constant [k >= 0], [rrf_fusion] returns its results in
    descending order of the fused score, and of two results with the same
    score the one whose id appears first in the BM25 list followed by the
    vector list comes first. *)
Theorem X9_fusion_orders_by_score_then_first_appearance (config : HybridConfig)
    (bm25_results vector_results : list RetrievalResult) (k : Z) :
  (0 <= k)%Z ->
  exists out,
    rrf_fusion config bm25_results vector_results k = Ok out /\
    forall i j a b, (i < j)%nat -> out !! i = Some a -> out !! j = Some b ->
      (score b <= score a)%Q /\
      ((score a == score b)%Q ->
       exists p, (chunk_id <$> bm25_results ++ vector_results) !! p = Some (chunk_id a) /\
         forall q, (chunk_id <$> bm25_results ++ vector_results) !! q = Some (chunk_id b) ->
           (p < q)%nat).
Proof.
  intros Hk.
  destruct (rrf_fusion_order config bm25_results vector_results k Hk)
    as (scores & out & Hout & (_ & _ & Hord) & Hrel).
  exists out. split; [done|]. intros i j a b Hij Hi Hj.
  destruct (Forall2_lookup_r _ _ _ _ _ Hrel Hi) as [pa [Hpa [Hca [Hsa _]]]].
  destruct (Forall2_lookup_r _ _ _ _ _ Hrel Hj) as [pb [Hpb [Hcb [Hsb _]]]].
  pose proof (StronglySorted_lookup _ _ i j pa pb (sort_desc_stable snd scores) Hij Hpa Hpb)
    as [Hle Htie].
  rewrite Hsa, Hsb, Hca, Hcb. split; [done|].
  intros Heq. destruct (Htie Heq) as (i' & j' & Hij' & Hi' & Hj').
  apply (Hord i' j'); [done|..]; rewrite list_lookup_fmap; [by rewrite Hi'|by rewrite Hj'].
Qed.

Lemma X9_fusion_orders_by_score_then_first_appearance_witness :
  exists out,
    rrf_fusion default_config [Samples.rA; Samples.rB] [Samples.rB; Samples.rA] 60 = Ok out /\
    forall i j a b, (i < j)%nat -> out !! i = Some a -> out !! j = Some b ->
      (score b <= score a)%Q /\
      ((score a == score b)%Q ->
       exists p, (chunk_id <$> [Samples.rA; Samples.rB] ++ [Samples.rB; Samples.rA]) !! p
                 = Some (chunk_id a) /\
         forall q, (chunk_id <$> [Samples.rA; Samples.rB] ++ [Samples.rB; Samples.rA]) !! q
                   = Some (chunk_id b) -> (p < q)%nat).
Proof.
  apply (X9_fusion_orders_by_score_then_first_appearance default_config
           [Samples.rA; Samples.rB] [Samples.rB; Samples.rA] 60).
  lia.
Defined.

(** *** The lexical index behind the retriever *)

Section Index.

Variable okapi_score : BM25Okapi -> list str -> list str -> Q.

Lemma top_indices_NoDup (index : BM25Okapi) (query : str) (top_k : Z) :
  NoDup (top_indices okapi_score index query top_k).*1.
Proof.
  unfold top_indices.
  eapply sublist_NoDup; [|apply (fmap_sublist fst), slice_to_sublist].
  rewrite sort_desc_perm.
  apply NoDup_alt. intros i j x Hi Hj.
  rewrite list_lookup_fmap, list_lookup_imap in Hi, Hj.
  destruct (get_scores okapi_score index (_tokenize query) !! i); [|done].
  destruct (get_scores okapi_score index (_tokenize query) !! j); [|done].
  simpl in *. congruence.
Qed.

(** The search on a built index: its results are the positive hits among
    the top indices, each the copy of the indexed chunk at its position. *)
Lemma search_built (self : BM25Index) (chunks : list Chunking.Chunk) (query : str)
    (top_k : Z) :
  exists (hits : list (nat * Q)) (results : list RetrievalResult),
    search okapi_score (build_index self chunks) query top_k = Ok results /\
    Forall2 (fun hit r => exists chunk, chunks !! hit.1 = Some chunk /\
                             r = hit_result chunk hit.2) hits results /\
    NoDup hits.*1 /\
    ((0 <= top_k)%Z -> (len hits <= top_k)%Z).
Proof.
  destruct chunks as [|c0 chunks'] eqn:Echunks.
  { exists [], []. split; [done|]. split; [constructor|]. split; [constructor|].
    unfold len. simpl. lia. }
  rewrite <- Echunks. set (index := built_index self chunks).
  set (top := top_indices okapi_score index query top_k).
  assert (Hsearch : search okapi_score (build_index self chunks) query top_k
                    = collect chunks top).
  { subst top index. rewrite Echunks. reflexivity. }
  destruct (collect_hits (fun _ _ => True) chunks top) as [results [Hres Hrel]].
  { rewrite Forall_forall. intros p Hp.
    apply top_indices_spec in Hp as [doc [Hdoc _]].
    unfold index, built_index in Hdoc. simpl in Hdoc. rewrite list_lookup_fmap in Hdoc.
    destruct (chunks !! p.1) as [chunk|] eqn:E; [|done]. by exists chunk. }
  exists (filter (fun p => Qlt_bool 0 p.2 = true) top), results.
  split; [by rewrite Hsearch|]. split; [|split].
  - eapply Forall2_impl; [exact Hrel|]. intros p r (chunk & H1 & H2 & _). by exists chunk.
  - eapply sublist_NoDup; [apply top_indices_NoDup|].
    apply (fmap_sublist fst), sublist_filter.
  - intros Hk. etrans; [|apply (slice_to_length
                                  (sort_desc snd (imap (fun i s => (i, s))
                                     (get_scores okapi_score index (_tokenize query))))
                                  top_k Hk)].
    unfold len. apply inj_le. apply sublist_length, sublist_filter.
Qed.

(** X10. On the index built from [chunks], [search] returns (it never
    raises): its results are the [bm25]-tagged copies of chunks at pairwise
    different positions of [chunks], so there are at most [len(chunks)] of
    them, and at most [top_k] for a non-negative [top_k] (none for 0). *)
Theorem X10_search_returns_distinct_chunks_at_most_top_k
    (self : BM25Index) (chunks : list Chunking.Chunk) (query : str) (top_k : Z) :
  exists (positions : list nat) (results : list RetrievalResult),
    search okapi_score (build_index self chunks) query top_k = Ok results /\
    NoDup positions /\
    Forall2 (fun i r => exists chunk,
               chunks !! i = Some chunk /\
               chunk_id r = Chunking.id chunk /\ text r = Chunking.text chunk /\
               source r = py "bm25" /\ metadata r = Chunking.metadata chunk)
            positions results /\
    (length results <= length chunks)%nat /\
    ((0 <= top_k)%Z -> (len results <= top_k)%Z).
Proof.
  destruct (search_built self chunks query top_k) as (hits & results & Hs & Hrel & Hnd & Hk).
  exists hits.*1, results. split; [done|]. split; [done|].
  assert (Hlen : length hits = length results) by (by eapply Forall2_length).
  split; [|split].
  - apply Forall2_fmap_l. eapply Forall2_impl; [exact Hrel|].
    intros hit r (chunk & Hc & ->). by exists chunk.
  - rewrite <- Hlen, <- (length_fmap fst).
    assert (Hsub : hits.*1 ⊆ seq 0 (length chunks)).
    { intros i Hi. apply list_elem_of_fmap in Hi as [hit [-> Hin]].
      apply list_elem_of_lookup in Hin as [n Hn].
      destruct (Forall2_lookup_l _ _ _ _ _ Hrel Hn) as (r & _ & chunk & Hc & _).
      apply elem_of_seq. apply lookup_lt_Some in Hc. lia. }
    rewrite <- (length_seq (length chunks) 0).
    by apply submseteq_length, NoDup_submseteq.
  - intros H0. unfold len in *. rewrite <- Hlen. by apply Hk.
Qed.

End Index.

Lemma token_count_from (corpus : list (list str)) (n : nat) :
  fold_left (fun total tokens => (total + length tokens)%nat) corpus n
  = (n + sum_list (length <$> corpus))%nat.
Proof.
  revert n. induction corpus as [|d corpus IH]; intros n; [simpl; lia|].
  rewrite fmap_cons. cbn [fold_left sum_list sum_list_with]. rewrite IH.
  unfold id. lia.
Qed.

(** X11. After [build_index(chunks)] the statistics describe [chunks] and
    nothing else: the number of documents is [len(chunks)], the token total
    is the number of tokens of their texts, and the average is the double
    nearest to the quotient of the two. After a build from no chunk they are
    all 0, whatever was indexed before. *)
Theorem X11_index_stats_describe_the_last_build
    (round : Q -> Q) (self : BM25Index) (chunks : list Chunking.Chunk) :
  let stats := BM25Stats.get_index_stats round (build_index self chunks) in
  let tokens := sum_list ((fun chunk => length (_tokenize (Chunking.text chunk))) <$> chunks) in
  BM25Stats.num_documents stats = length chunks /\
  BM25Stats.total_tokens stats = tokens /\
  (chunks <> [] ->
   BM25Stats.avg_doc_length stats
   = round (inject_Z (Z.of_nat tokens) / inject_Z (len chunks))%Q) /\
  BM25Stats.get_index_stats round (build_index (build_index self chunks) [])
    = {| BM25Stats.num_documents := 0; BM25Stats.avg_doc_length := 0;
         BM25Stats.total_tokens := 0 |}.
Proof.
  destruct chunks as [|c0 chunks'] eqn:E; [by repeat split|].
  rewrite <- E. assert (Hb : build_index self chunks
    = {| config := config self; _index := Some (built_index self chunks);
         _chunks := chunks; _tokenized_corpus := corpus (built_index self chunks) |}).
  { by rewrite E. }
  unfold BM25Stats.get_index_stats. rewrite Hb. cbn [_chunks _tokenized_corpus].
  assert (Ht : truthy chunks = true) by (by rewrite E). rewrite Ht. cbn [negb].
  cbn [BM25Stats.num_documents BM25Stats.total_tokens BM25Stats.avg_doc_length].
  assert (Hc : BM25Stats.token_count (corpus (built_index self chunks))
               = sum_list ((fun chunk => length (_tokenize (Chunking.text chunk))) <$> chunks)).
  { unfold BM25Stats.token_count. rewrite token_count_from. simpl.
    unfold built_index. cbn [corpus]. by rewrite <- list_fmap_compose. }
  split; [done|]. split; [done|]. split; [|done].
  intros _. by rewrite Hc.
Qed.

(** *** [retrieve] *)

Section Retrieve.

Variable okapi_score : BM25Okapi -> list str -> list str -> Q.
Variable _vector_search : str -> Z -> list RetrievalResult.
Variable config : HybridConfig.

(** X12. With a constant [rrf_k >= 0] and a built index, [retrieve]
    returns: its results carry pairwise different chunk ids, each the id of
    an indexed chunk or of a vector result, all tagged [hybrid], in
    descending order of the fused score, and at most [final_k] of them when
    [final_k], the requested size or the configured one, is not negative. A
    requested size of 0 stands for the configured one. *)
Theorem X12_retrieve_returns_ranked_distinct_results
    (self : BM25Index) (chunks : list Chunking.Chunk) (query : str) (top_k : option Z) :
  (0 <= rrf_k config)%Z ->
  exists out,
    retrieve okapi_score _vector_search config (build_index self chunks) query top_k
      = Ok out /\
    NoDup (chunk_id <$> out) /\
    Forall (fun r =>
              source r = py "hybrid" /\
              (chunk_id r ∈ (Chunking.id <$> chunks) \/
               chunk_id r ∈ (chunk_id <$> _vector_search query (top_k_vector config))))
           out /\
    StronglySorted (fun a b => (score b <= score a)%Q) out /\
    ((0 <= final_k config top_k)%Z -> (len out <= final_k config top_k)%Z) /\
    retrieve okapi_score _vector_search config (build_index self chunks) query (Some 0%Z)
    = retrieve okapi_score _vector_search config (build_index self chunks) query None.
Proof.
  intros Hk. unfold retrieve.
  destruct (search_built okapi_score self chunks query (top_k_bm25 config))
    as (hits & bm25_results & -> & Hhits & _ & _).
  cbn [bind].
  destruct (rrf_fusion_order config bm25_results
              (_vector_search query (top_k_vector config)) (rrf_k config) Hk)
    as (scores & merged & -> & (Hnd & Hdom & _) & Hrel).
  cbn [bind]. eexists. split; [done|].
  assert (Hids : chunk_id <$> merged = (sort_desc snd scores).*1).
  { clear -Hrel. induction Hrel as [|p r l out' [Hc _] _ IH]; [done|].
    rewrite !fmap_cons. by f_equal. }
  pose proof (slice_to_sublist merged (final_k config top_k)) as Hsub.
  split; [|split; [|split; [|split]]].
  - eapply sublist_NoDup; [|exact (fmap_sublist chunk_id _ _ Hsub)].
    by rewrite Hids, sort_desc_perm.
  - apply Forall_forall. intros r Hr. eapply elem_of_sublist in Hr; [|exact Hsub].
    split.
    + apply list_elem_of_lookup in Hr as [i Hi].
      by destruct (Forall2_lookup_r _ _ _ _ _ Hrel Hi) as (p & _ & _ & _ & ?).
    + assert (Hin : chunk_id r ∈ chunk_id <$> merged) by (by apply list_elem_of_fmap_2).
      rewrite Hids, sort_desc_perm in Hin. apply Hdom in Hin.
      rewrite fmap_app, elem_of_app in Hin. destruct Hin as [Hin|Hin]; [left|by right].
      apply list_elem_of_fmap in Hin as [b [-> Hb]].
      apply list_elem_of_lookup in Hb as [i Hi].
      destruct (Forall2_lookup_r _ _ _ _ _ Hhits Hi) as (hit & _ & chunk & Hc & ->).
      simpl. apply list_elem_of_fmap_2. by eapply list_elem_of_lookup_2.
  - eapply StronglySorted_sublist; [exact Hsub|].
    apply StronglySorted_of_lookup. intros i j a b Hij Hi Hj.
    destruct (Forall2_lookup_r _ _ _ _ _ Hrel Hi) as [pa [Hpa [_ [-> _]]]].
    destruct (Forall2_lookup_r _ _ _ _ _ Hrel Hj) as [pb [Hpb [_ [-> _]]]].
    exact (StronglySorted_lookup _ _ i j pa pb (sort_desc_sorted snd scores) Hij Hpa Hpb).
  - apply slice_to_length.
  - reflexivity.
Qed.

End Retrieve.

Lemma X12_retrieve_returns_ranked_distinct_results_witness :
  exists out,
    retrieve (fun _ _ _ => 1%Q) (fun _ _ => [Samples.rB]) default_config
      (build_index (init BM25.default_config) [Samples.chunk150]) (py "results") (Some 1%Z)
      = Ok out /\
    NoDup (chunk_id <$> out) /\
    Forall (fun r =>
              source r = py "hybrid" /\
              (chunk_id r ∈ (Chunking.id <$> [Samples.chunk150]) \/
               chunk_id r ∈ (chunk_id <$> [Samples.rB])))
           out /\
    StronglySorted (fun a b => (score b <= score a)%Q) out /\
    ((0 <= final_k default_config (Some 1%Z))%Z ->
     (len out <= final_k default_config (Some 1%Z))%Z) /\
    retrieve (fun _ _ _ => 1%Q) (fun _ _ => [Samples.rB]) default_config
      (build_index (init BM25.default_config) [Samples.chunk150]) (py "results") (Some 0%Z)
    = retrieve (fun _ _ _ => 1%Q) (fun _ _ => [Samples.rB]) default_config
        (build_index (init BM25.default_config) [Samples.chunk150]) (py "results") None.
Proof.
  apply (X12_retrieve_returns_ranked_distinct_results (fun _ _ _ => 1%Q)
           (fun _ _ => [Samples.rB]) default_config (init BM25.default_config)
           [Samples.chunk150] (py "results") (Some 1%Z)).
  simpl. lia.
Defined.

(** *** [get_retrieval_stats] *)

Lemma size_list_to_set_le_fmap (results : list RetrievalResult) :
  (size (id_set results) <= length results)%nat.
Proof.
  unfold id_set. rewrite <- (length_fmap chunk_id results).
  generalize (chunk_id <$> results). intros l.
  induction l as [|x l IH].
  { change (list_to_set [] : gset str) with (∅ : gset str). by rewrite size_empty. }
  cbn [list_to_set length]. rewrite size_union_alt, size_singleton.
  assert (size (list_to_set l ∖ {[x]} : gset str) <= size (list_to_set l : gset str))%nat
    by (apply subseteq_size; set_solver).
  lia.
Qed.

(** X13. The statistics of a fusion add up: the number of merged results
    is the number of ids the two lists share plus the ids only the BM25 list
    has plus the ids only the vector list has; neither list is shorter than
    the number of different ids it contributes. *)
Theorem X13_retrieval_stats_of_a_fusion_add_up (config : HybridConfig)
    (bm25_results vector_results : list RetrievalResult) (k : Z) :
  (0 <= k)%Z ->
  exists merged,
    rrf_fusion config bm25_results vector_results k = Ok merged /\
    let stats := get_retrieval_stats bm25_results vector_results merged in
    merged_count stats = (overlap_count stats + bm25_only stats + vector_only stats)%nat /\
    (overlap_count stats + bm25_only stats <= bm25_count stats)%nat /\
    (overlap_count stats + vector_only stats <= vector_count stats)%nat.
Proof.
  intros Hk.
  destruct (rrf_fusion_order config bm25_results vector_results k Hk)
    as (scores & merged & Hm & (Hnd & Hdom & _) & Hrel).
  exists merged. split; [done|]. simpl.
  assert (Hids : chunk_id <$> merged = (sort_desc snd scores).*1).
  { clear -Hrel. induction Hrel as [|p r l out' [Hc _] _ IH]; [done|].
    rewrite !fmap_cons. by f_equal. }
  set (A := id_set bm25_results). set (B := id_set vector_results).
  assert (HA : (size (A ∩ B) + size (A ∖ B) = size A)%nat).
  { rewrite <- size_union by set_solver. f_equal. apply set_eq. intros x.
    rewrite elem_of_union, elem_of_intersection, elem_of_difference.
    destruct (decide (x ∈ B)); tauto. }
  assert (HB : (size (A ∩ B) + size (B ∖ A) = size B)%nat).
  { rewrite <- size_union by set_solver. f_equal. apply set_eq. intros x.
    rewrite elem_of_union, elem_of_intersection, elem_of_difference.
    destruct (decide (x ∈ A)); tauto. }
  split; [|split].
  - rewrite <- (length_fmap chunk_id), Hids, sort_desc_perm.
    rewrite <- (size_list_to_set (C := gset str)) by done.
    assert (Hset : (list_to_set scores.*1 : gset str) = A ∪ (B ∖ A)).
    { apply set_eq. intros x. rewrite elem_of_list_to_set, Hdom, fmap_app, elem_of_app.
      unfold A, B, id_set. rewrite elem_of_union, elem_of_difference, !elem_of_list_to_set.
      destruct (decide (x ∈ chunk_id <$> bm25_results)); tauto. }
    rewrite Hset, size_union by set_solver. lia.
  - rewrite HA. apply size_list_to_set_le_fmap.
  - rewrite HB. apply size_list_to_set_le_fmap.
Qed.

Lemma X13_retrieval_stats_of_a_fusion_add_up_witness :
  exists merged,
    rrf_fusion default_config [Samples.rA; Samples.rB] [Samples.rB] 60 = Ok merged /\
    let stats := get_retrieval_stats [Samples.rA; Samples.rB] [Samples.rB] merged in
    merged_count stats = (overlap_count stats + bm25_only stats + vector_only stats)%nat /\
    (overlap_count stats + bm25_only stats <= bm25_count stats)%nat /\
    (overlap_count stats + vector_only stats <= vector_count stats)%nat.
Proof.
  apply (X13_retrieval_stats_of_a_fusion_add_up default_config
           [Samples.rA; Samples.rB] [Samples.rB] 60).
  lia.
Defined.

End HybridRetrieverFacts.


(** ** The matcher is sound *)

Module ReFacts.

Import ReSpec.

(** A successful run of the matcher is a match of the pattern, followed by
    a success of the continuation. *)
Lemma run_sound (r : regex) :
  forall (s m : pos) (k : pos -> option pos),
  run r s k = Some m -> exists s1, steps r s s1 /\ k s1 = Some m.
Proof.
  induction r as [|p|r1 IH1 r2 IH2|r1 IH1 r2 IH2|r IH|r IH| | |]; intros s m k; simpl.
  - intros H. exists s. split; [constructor|done].
  - destruct s as [b [|c t] g]; simpl; [done|].
    destruct (p c) eqn:E; [|done]. intros H. eexists. split; [by constructor|done].
  - intros H. apply IH1 in H as [s1 [H1 H]]. apply IH2 in H as [s2 [H2 H]].
    exists s2. split; [by econstructor|done].
  - destruct (run r1 s k) as [m1|] eqn:E1.
    + intros [= <-]. apply IH1 in E1 as [s1 [H1 H]]. exists s1.
      split; [by apply steps_alt_l|done].
    + intros H. apply IH2 in H as [s1 [H1 H]]. exists s1.
      split; [by apply steps_alt_r|done].
  - generalize (length (rest s)). intros n. revert s.
    induction n as [|n IHn]; intros s.
    + intros H. exists s. split; [constructor|done].
    + destruct (run r s _) as [m1|] eqn:E1.
      * intros [= <-]. apply IH in E1 as [s1 [H1 H]].
        destruct (length (rest s1) <? length (rest s))%nat; [|done].
        apply IHn in H as [s2 [H2 H]]. exists s2.
        split; [by econstructor|done].
      * intros H. exists s. split; [constructor|done].
  - intros H. apply IH in H as [s1 [H1 H]]. eexists.
    split; [by constructor|done].
  - intros H. exists s. split; [|by destruct (before s) as [c|]; [destruct (is_nl c)|]].
    constructor. destruct (before s) as [c|]; [|done]. by destruct (is_nl c).
  - intros H. exists s. split; [|by destruct (rest s) as [|c t]; [|destruct (is_nl c)]].
    constructor. destruct (rest s) as [|c t]; [done|]. by destruct (is_nl c).
  - intros H.
    destruct (xorb _ _) eqn:E; [|done].
    exists s. split; [by constructor|done].
Qed.

(** A match consumes a prefix of the text, made of characters of the
    pattern's classes. *)
Lemma steps_consumes (P : ascii -> bool) (r : regex) (s s1 : pos) :
  classes_within P r -> steps r s s1 ->
  exists w, rest s = w ++ rest s1 /\ Forall (fun c => P c = true) w.
Proof.
  intros Hc Hs. induction Hs; simpl in *.
  - by exists [].
  - exists [c]. split; [done|]. repeat constructor. by apply Hc.
  - destruct Hc as [Hc1 Hc2].
    destruct (IHHs1 Hc1) as [w1 [E1 F1]]. destruct (IHHs2 Hc2) as [w2 [E2 F2]].
    exists (w1 ++ w2). rewrite E1, E2, app_assoc. split; [done|by apply Forall_app].
  - apply IHHs, Hc.
  - apply IHHs, Hc.
  - by exists [].
  - destruct (IHHs1 Hc) as [w1 [E1 F1]]. destruct (IHHs2 Hc) as [w2 [E2 F2]].
    exists (w1 ++ w2). rewrite E1, E2, app_assoc. split; [done|by apply Forall_app].
  - by apply IHHs.
  - by exists [].
  - by exists [].
  - by exists [].
Qed.

(** The texts [findall] returns are matches of the pattern somewhere in
    the subject. *)
Lemma findall_go_sound (r : regex) (s : str) :
  forall (skip : nat) (b : option ascii) (w : str),
  w ∈ findall_go r skip b s ->
  exists b0 s0 m pre,
    s = pre ++ s0 /\ run r (Pos b0 s0 None) Some = Some m /\
    w = take (length s0 - length (rest m)) s0.
Proof.
  induction s as [|c s IH]; intros skip b w.
  - destruct skip as [|skip]; simpl; [|by intros ?%elem_of_nil].
    destruct (run r (Pos b [] None) Some) as [m|] eqn:E; [|by intros ?%elem_of_nil].
    intros ->%list_elem_of_singleton. by exists b, [], m, [].
  - destruct skip as [|skip]; simpl.
    + destruct (run r (Pos b (c :: s) None) Some) as [m|] eqn:E.
      * intros [->|Hw]%elem_of_cons; [by exists b, (c :: s), m, []|].
        apply IH in Hw as (b0 & s0 & m0 & pre & -> & H1 & H2).
        by exists b0, s0, m0, (c :: pre).
      * intros Hw. apply IH in Hw as (b0 & s0 & m0 & pre & -> & H1 & H2).
        by exists b0, s0, m0, (c :: pre).
    + intros Hw. apply IH in Hw as (b0 & s0 & m0 & pre & -> & H1 & H2).
      by exists b0, s0, m0, (c :: pre).
Qed.

Lemma findall_within (P : ascii -> bool) (r : regex) (s w : str) :
  classes_within P r -> w ∈ re_findall r s ->
  Forall (fun c => P c = true) w /\ exists pre post, s = pre ++ w ++ post.
Proof.
  intros Hc Hw. apply findall_go_sound in Hw as (b0 & s0 & m & pre & -> & Hrun & ->).
  apply run_sound in Hrun as [s1 [Hs [= <-]]].
  destruct (steps_consumes P r _ _ Hc Hs) as [w [E F]]. simpl in E.
  rewrite E, length_app, Nat.add_sub, take_app_length. split; [done|].
  by exists pre, (rest s1).
Qed.

End ReFacts.

(** ** The tokenizer *)

Module TokenizerFacts.

Import ReSpec ReFacts BM25.

Lemma lower_char_idemp (c : ascii) : lower_char (lower_char c) = lower_char c.
Proof.
  destruct c as [[] [] [] [] [] [] [] []]; vm_compute; reflexivity.
Qed.

Lemma lower_idemp (s : str) : lower (lower s) = lower s.
Proof.
  unfold lower. rewrite <- list_fmap_compose. apply list_fmap_ext.
  intros i c _. apply lower_char_idemp.
Qed.

(** X14. Every token of [_tokenize] is a piece of the lower-cased text made
    of word characters and hyphens, in lower case, at least two characters
    long, not a number and not a stopword; and the tokens do not depend on
    the case of the text. *)
Theorem X14_tokens_are_lowercase_words (text t : str) :
  (t ∈ _tokenize text ->
     Forall (fun c => isword c || Ascii.eqb c "-"%char = true) t /\
     (exists pre post, lower text = pre ++ t ++ post) /\
     lower t = t /\
     (2 <= length t)%nat /\
     forallb isdigit_char t = false /\
     t ∉ stopwords) /\
  _tokenize (lower text) = _tokenize text.
Proof.
  split; [|unfold _tokenize; by rewrite lower_idemp].
  unfold _tokenize. intros Ht.
  apply list_elem_of_filter in Ht as [Hstop Ht].
  apply list_elem_of_filter in Ht as [[Hlen Hdig] Ht].
  apply (findall_within (fun c => isword c || Ascii.eqb c "-"%char)) in Ht
    as [Hcls (pre & post & Hsub)].
  2:{ simpl. unfold Plus. simpl. done. }
  split; [done|]. split; [by exists pre, post|]. split; [|done].
  assert (E : lower (lower text) = lower text) by apply lower_idemp.
  rewrite Hsub in E. unfold lower in E. rewrite !fmap_app in E.
  apply app_inj_1 in E as [_ E]; [|by rewrite length_fmap].
  apply app_inj_1 in E as [E _]; [done|by rewrite length_fmap].
Qed.

End TokenizerFacts.


(** ** Splitting and joining *)

Module JoinFacts.

Import PyFacts PyJoin.

Lemma join_cons (sep p : str) (ps : list str) :
  ps <> [] -> join sep (p :: ps) = p ++ sep ++ join sep ps.
Proof. by destruct ps. Qed.

Section Split.

Variable sep : str.
Hypothesis sep_nonempty : sep <> [].

(** Joining the parts of a split with the separator gives the text back. *)
Lemma join_split_go (skip : nat) (s : str) :
  join sep (split_go sep skip s) = drop skip s.
Proof.
  revert skip. induction s as [|c s IH]; intros skip.
  - by destruct skip.
  - destruct skip as [|skip]; [|apply IH]. cbn [split_go drop].
    destruct (startswith (c :: s) sep) eqn:E.
    + apply startswith_spec in E as [t Ht].
      rewrite join_cons by (by apply split_go_nonempty).
      rewrite IH. destruct sep as [|d sep']; [done|].
      injection Ht as -> ->. simpl. rewrite Nat.sub_0_r.
      by rewrite drop_app_length.
    + specialize (IH 0). rewrite drop_0 in IH.
      destruct (split_go sep 0 s) as [|p ps] eqn:Ego.
      { by apply split_go_nonempty in Ego. }
      rewrite <- IH. by destruct ps.
Qed.

Lemma join_split (s : str) : join sep (split s sep) = s.
Proof. apply join_split_go. Qed.

End Split.

(** *** Lines and their positions *)

Lemma line_start_0 (lines : list str) : line_start lines 0 = 0.
Proof. unfold line_start. by rewrite take_0. Qed.

Lemma line_start_cons (line : str) (lines : list str) (idx : nat) :
  line_start (line :: lines) (S idx) = length line + 1 + line_start lines idx.
Proof. reflexivity. Qed.

Lemma line_start_S (lines : list str) (idx : nat) (line : str) :
  lines !! idx = Some line ->
  line_start lines (S idx) = line_start lines idx + length line + 1.
Proof.
  unfold line_start. intros H. rewrite (take_S_r _ _ _ H), fmap_app, sum_list_with_app.
  simpl. lia.
Qed.

Lemma line_start_lt (lines : list str) (i j : nat) (line : str) :
  i < j -> j <= length lines -> lines !! i = Some line ->
  line_start lines i + length line + 1 <= line_start lines j.
Proof.
  intros Hij Hj Hi. induction j as [|j IH]; [lia|].
  destruct (decide (i = j)) as [->|Hne].
  - by rewrite (line_start_S _ _ _ Hi).
  - destruct (lookup_lt_is_Some_2 lines j) as [lj Hlj]; [lia|].
    rewrite (line_start_S _ _ _ Hlj). specialize (IH ltac:(lia) ltac:(lia)). lia.
Qed.

Lemma cumulative_lookup (lines : list str) (pos idx : nat) :
  idx < length lines ->
  Chunking.cumulative lines pos !! idx = Some (pos + line_start lines idx).
Proof.
  revert pos idx. induction lines as [|line lines IH]; intros pos idx Hidx; simpl in *; [lia|].
  destruct idx as [|idx]; simpl.
  - rewrite line_start_0. f_equal. lia.
  - rewrite IH by lia. rewrite line_start_cons. f_equal. lia.
Qed.

Lemma drop_line_start (lines : list str) (idx : nat) :
  idx < length lines ->
  drop (line_start lines idx) (join nl lines) = join nl (drop idx lines).
Proof.
  revert idx. induction lines as [|line lines IH]; intros idx Hidx; simpl in Hidx; [lia|].
  destruct idx as [|idx]; [done|].
  assert (Hne : lines <> []) by (destruct lines; [simpl in Hidx; lia|done]).
  rewrite join_cons by done. rewrite line_start_cons. cbn [drop].
  rewrite <- IH by lia.
  replace (length line + 1 + line_start lines idx)
    with (length line + (1 + line_start lines idx)) by lia.
  by rewrite drop_app_add.
Qed.

Lemma take_line_start (lines : list str) (idx : nat) :
  0 < idx < length lines ->
  exists before, take (line_start lines idx) (join nl lines) = before ++ nl.
Proof.
  revert idx. induction lines as [|line lines IH]; intros idx Hidx; simpl in Hidx; [lia|].
  destruct idx as [|idx]; [lia|].
  assert (Hne : lines <> []) by (destruct lines; [simpl in Hidx; lia|done]).
  rewrite join_cons by done. rewrite line_start_cons.
  replace (length line + 1 + line_start lines idx)
    with (length line + (1 + line_start lines idx)) by lia.
  rewrite take_app_add. change (nl ++ join nl lines) with ("010"%char :: join nl lines).
  cbn [take Nat.add]. destruct idx as [|idx].
  - exists line. by rewrite line_start_0, take_0.
  - destruct (IH (S idx)) as [before Hb]; [lia|]. rewrite Hb.
    exists (line ++ "010"%char :: before). by rewrite <- app_assoc.
Qed.

Lemma join_lookup_bound (lines : list str) (idx : nat) (line : str) :
  lines !! idx = Some line ->
  exists rest, join nl (drop idx lines) = line ++ rest /\
               (rest = [] \/ exists rest', rest = nl ++ rest').
Proof.
  intros H. rewrite (drop_S _ _ _ H).
  destruct (drop (S idx) lines) as [|l' ls] eqn:E.
  - exists []. simpl. rewrite app_nil_r. split; [done|by left].
  - exists (nl ++ join nl (l' :: ls)). split; [done|]. right. by eexists.
Qed.

End JoinFacts.

(** ** The chunker, continued *)

Module ChunkerMore.

Import PyFacts PyJoin JoinFacts Chunking ChunkingFacts.

(** *** [detect_sections] *)

Lemma heading_of_known (stripped name : str) :
  heading_of stripped = Some name -> name ∈ SECTION_PATTERNS.*1.
Proof.
  unfold heading_of.
  destruct (List.find _ SECTION_PATTERNS) as [[n r]|] eqn:E; [|done].
  intros [= <-]. apply find_some in E as [Hin _].
  apply list_elem_of_In in Hin. by apply (list_elem_of_fmap_2 fst) in Hin.
Qed.

Lemma heading_of_nil : heading_of (strip []) = None.
Proof. vm_compute. reflexivity. Qed.

Lemma scan_lines_spec (lines : list str) (i current_pos : nat) :
  StronglySorted (fun a b : str * nat * nat => a.2 < b.2) (scan_lines lines i current_pos) /\
  Forall (fun entry : str * nat * nat =>
            i <= entry.2 /\
            exists line, lines !! (entry.2 - i) = Some line /\
                         heading_of (strip line) = Some entry.1.1)
         (scan_lines lines i current_pos).
Proof.
  revert i current_pos. induction lines as [|line lines IH]; intros i current_pos; simpl.
  - split; constructor.
  - destruct (IH (S i) (current_pos + length line + 1)) as [Hs Hf].
    assert (Hf' : Forall (fun entry : str * nat * nat =>
                    i < entry.2 /\
                    exists l, (line :: lines) !! (entry.2 - i) = Some l /\
                              heading_of (strip l) = Some entry.1.1)
                  (scan_lines lines (S i) (current_pos + length line + 1))).
    { eapply Forall_impl; [exact Hf|]. intros [[n p] idx] [Hle [l [Hl Hh]]]. simpl in *.
      split; [lia|]. exists l. split; [|done].
      replace (idx - i) with (S (idx - S i)) by lia. done. }
    destruct (heading_of (strip line)) as [name|] eqn:E.
    + split.
      * constructor; [done|]. eapply Forall_impl; [exact Hf'|].
        intros [[n p] idx] [Hlt _]. simpl in *. lia.
      * constructor.
        -- simpl. split; [lia|]. exists line. by rewrite Nat.sub_diag.
        -- eapply Forall_impl; [exact Hf'|]. intros entry [Hlt Hl]. split; [lia|done].
    + split; [done|]. eapply Forall_impl; [exact Hf'|].
      intros entry [Hlt Hl]. split; [lia|done].
Qed.

Lemma detect_sections_spec (text : str) (i : nat) (name : str) (start stop : nat) :
  detect_sections text !! i = Some (name, start, stop) ->
  (start < stop <= length text)%nat /\
  stop = match detect_sections text !! S i with
         | Some (_, next, _) => next
         | None => length text
         end /\
  name ∈ SECTION_PATTERNS.*1 /\
  (exists line rest,
     drop start text = line ++ rest /\
     heading_of (strip line) = Some name /\
     (rest = [] \/ exists rest', rest = nl ++ rest')) /\
  (start = 0%nat \/ exists before, take start text = before ++ nl).
Proof.
  unfold detect_sections.
  set (lines := split text nl).
  assert (Htext : join nl lines = text) by (by apply join_split).
  destruct (scan_lines_spec lines 0 0) as [Hsorted Hvalid].
  set (sections := scan_lines lines 0 0) in *.
  destruct (negb (truthy sections)); [done|].
  assert (Hentry : forall j n p idx, sections !! j = Some (n, p, idx) ->
            exists line, lines !! idx = Some line /\ heading_of (strip line) = Some n).
  { intros j n p idx Hj. rewrite Forall_forall in Hvalid.
    destruct (Hvalid (n, p, idx)) as [_ [line [Hl Hh]]]; [by eapply list_elem_of_lookup_2|].
    simpl in *. rewrite Nat.sub_0_r in Hl. by exists line. }
  assert (Hat : forall j, (imap (fun i '(section_name, _, line_idx) =>
              let start_pos := default 0%nat (cumulative lines 0 !! line_idx) in
              let end_pos :=
                match sections !! S i with
                | Some (_, _, next_line_idx) =>
                    default (length text) (cumulative lines 0 !! next_line_idx)
                | None => length text
                end in
              (section_name, start_pos, end_pos)) sections) !! j
            = (fun '(n, _, idx) =>
                 (n, line_start lines idx,
                  match sections !! S j with
                  | Some (_, _, next) => line_start lines next
                  | None => length text
                  end)) <$> sections !! j).
  { intros j. rewrite list_lookup_imap.
    destruct (sections !! j) as [[[n p] idx]|] eqn:Ej; [|done]. simpl.
    destruct (Hentry j n p idx Ej) as [line [Hl _]].
    rewrite cumulative_lookup by (by eapply lookup_lt_Some). simpl.
    destruct (sections !! S j) as [[[n' p'] idx']|] eqn:Ej'; [|done].
    destruct (Hentry (S j) n' p' idx' Ej') as [line' [Hl' _]].
    rewrite cumulative_lookup by (by eapply lookup_lt_Some). done. }
  rewrite !Hat.
  destruct (sections !! i) as [[[n p] idx]|] eqn:Ei; [|done]. simpl.
  intros [= -> <- <-].
  destruct (Hentry i name p idx Ei) as [line [Hl Hh]].
  assert (Hidx : idx < length lines) by (by eapply lookup_lt_Some).
  assert (Hline : 0 < length line).
  { destruct line; [|simpl; lia]. by rewrite heading_of_nil in Hh. }
  destruct (join_lookup_bound lines idx line Hl) as [rest [Hrest Hnl]].
  assert (Hdrop : drop (line_start lines idx) text = line ++ rest).
  { by rewrite <- Htext, drop_line_start. }
  assert (Hbound : line_start lines idx + length line <= length text).
  { apply (f_equal length) in Hdrop. rewrite length_drop, length_app in Hdrop. lia. }
  split; [|split; [|split; [by eapply heading_of_known|split]]].
  - destruct (sections !! S i) as [[[n' p'] idx']|] eqn:Ei'; simpl; [|lia].
    destruct (Hentry (S i) n' p' idx' Ei') as [line' [Hl' Hh']].
    assert (Hidx' : idx' < length lines) by (by eapply lookup_lt_Some).
    assert (Hlt : idx < idx').
    { exact (RetrievalFacts.StronglySorted_lookup _ _ i (S i) _ _ Hsorted ltac:(lia) Ei Ei'). }
    pose proof (line_start_lt lines idx idx' line Hlt ltac:(lia) Hl).
    destruct (join_lookup_bound lines idx' line' Hl') as [rest' [Hrest' _]].
    assert (Hdrop' : drop (line_start lines idx') text = line' ++ rest').
    { by rewrite <- Htext, drop_line_start. }
    apply (f_equal length) in Hdrop'. rewrite length_drop, length_app in Hdrop'.
    assert (0 < length line').
    { destruct line'; [|simpl; lia]. by rewrite heading_of_nil in Hh'. }
    lia.
  - by destruct (sections !! S i) as [[[n' p'] idx']|].
  - exists line, rest. done.
  - destruct idx as [|idx']; [by left|right].
    rewrite <- Htext. apply take_line_start. lia.
Qed.

(** X15. The sections [detect_sections] returns tile the text from the
    first heading to the end: each one starts at the beginning of a line
    whose stripped text matches the pattern of its label, ends where the
    next one starts (the last one at the end of the text), and is not
    empty. *)
Theorem X15_detected_sections_tile_the_text (text : str) (i : nat)
    (name : str) (start stop : nat) :
  detect_sections text !! i = Some (name, start, stop) ->
  (start < stop <= length text)%nat /\
  stop = match detect_sections text !! S i with
         | Some (_, next, _) => next
         | None => length text
         end /\
  name ∈ SECTION_PATTERNS.*1 /\
  (exists line rest,
     drop start text = line ++ rest /\
     heading_of (strip line) = Some name /\
     (rest = [] \/ exists rest', rest = nl ++ rest')) /\
  (start = 0%nat \/ exists before, take start text = before ++ nl).
Proof. apply detect_sections_spec. Qed.

Lemma X15_detected_sections_tile_the_text_witness :
  (28 < 64 <= length Samples.two_sections)%nat /\
  64%nat = match detect_sections Samples.two_sections !! 2%nat with
           | Some (_, next, _) => next
           | None => length Samples.two_sections
           end /\
  py "introduction" ∈ SECTION_PATTERNS.*1 /\
  (exists line rest,
     drop 28 Samples.two_sections = line ++ rest /\
     heading_of (strip line) = Some (py "introduction") /\
     (rest = [] \/ exists rest', rest = nl ++ rest')) /\
  (28%nat = 0%nat \/ exists before, take 28 Samples.two_sections = before ++ nl).
Proof.
  apply (X15_detected_sections_tile_the_text Samples.two_sections 1
           (py "introduction") 28 64).
  vm_compute. reflexivity.
Defined.

Section Chunks.

Local Open Scope Z_scope.

Variable config : ChunkConfig.

(** *** [_apply_overlap]: what the text of a chunk is *)

Lemma overlap_tail_suffix (t : str) : exists front, t = front ++ overlap_tail config t.
Proof.
  unfold overlap_tail, slice_from.
  destruct (overlap_chars config <? len t); [|by exists []].
  destruct (- overlap_chars config <? 0); eexists; by rewrite take_drop.
Qed.

Lemma overlap_tail_whole (t : str) :
  overlap_chars config = 0 \/ len t <= overlap_chars config -> overlap_tail config t = t.
Proof.
  unfold overlap_tail, slice_from. intros H.
  destruct (overlap_chars config <? len t) eqn:E; [|done].
  apply Z.ltb_lt in E. destruct H as [H|H]; [|lia]. rewrite H. done.
Qed.

Lemma overlap_tail_exact (t : str) :
  0 < overlap_chars config < len t -> len (overlap_tail config t) = overlap_chars config.
Proof.
  unfold overlap_tail, slice_from. intros H.
  rewrite (proj2 (Z.ltb_lt _ _)) by lia. rewrite (proj2 (Z.ltb_lt _ _)) by lia.
  unfold len in *. rewrite length_drop. lia.
Qed.

(** X16. The text of a chunk is the text of its raw chunk, preceded (after
    the first chunk) by the overlap tail of the previous raw chunk and one
    space, unless the raw text already starts with that tail. The tail is a
    suffix of the previous raw chunk: its last [overlap_chars] characters
    when [0 < overlap_chars < len], and the whole previous chunk when
    [overlap_chars] is 0 or at least its length. A text that is blank gives
    no chunk; a run raises only when [chunk_size] is 0. *)
Theorem X16_chunk_text_is_overlap_tail_then_raw_text
    (rnd : nat -> str) (text source : str) :
  match chunk config rnd text source with
  | Ok chunks =>
      (strip text = [] /\ chunks = []) \/
      exists raw,
        raw_chunks config text = Ok raw /\ length chunks = length raw /\
        forall i c, chunks !! i = Some c ->
          exists cur, raw !! i = Some (cur, section (metadata c)) /\
            match i with
            | O => Chunking.text c = cur /\ overlap_with_prev (metadata c) = 0
            | S j =>
                exists prev prev_section,
                  raw !! j = Some (prev, prev_section) /\
                  (exists front, prev = front ++ overlap_tail config prev) /\
                  (if startswith cur (overlap_tail config prev)
                   then Chunking.text c = cur /\ overlap_with_prev (metadata c) = 0
                   else Chunking.text c = overlap_tail config prev ++ py " " ++ cur /\
                        overlap_with_prev (metadata c) = len (overlap_tail config prev)) /\
                  (overlap_chars config = 0 \/ len prev <= overlap_chars config ->
                   overlap_tail config prev = prev) /\
                  (0 < overlap_chars config < len prev ->
                   len (overlap_tail config prev) = overlap_chars config)
            end
  | Raise e => e = ValueError /\ chunk_size config = 0
  end.
Proof.
  unfold chunk.
  destruct (negb (truthy text) || negb (truthy (strip text))) eqn:Eblank.
  { left. split; [|done]. destruct text as [|c text]; [done|]. simpl in Eblank.
    by destruct (strip (c :: text)). }
  pose proof (raw_chunks_within config text) as Hraw.
  destruct (raw_chunks config text) as [raw|e]; simpl; [|exact Hraw].
  right. exists raw. split; [done|].
  split; [unfold _create_chunks, _apply_overlap; by rewrite !length_imap|].
  intros i c Hc.
  apply create_chunks_lookup in Hc as (t & s & p & n & Hdata & Ht & Hm).
  rewrite Hm, Ht. cbn [section overlap_with_prev].
  unfold _apply_overlap in Hdata. rewrite list_lookup_imap in Hdata.
  destruct (raw !! i) as [[cur sec]|] eqn:Ei; [|done]. simpl in Hdata.
  destruct i as [|j].
  - injection Hdata as <- <- <- <-. by exists cur.
  - destruct (raw !! j) as [[prev sp]|] eqn:Ej.
    2:{ apply lookup_lt_Some in Ei. apply lookup_ge_None in Ej. lia. }
    exists cur.
    destruct (startswith cur (overlap_tail config prev)) eqn:Es; simpl in Hdata;
      injection Hdata as <- <- <- <-; (split; [done|]); exists prev, sp;
      (split; [done|]); (split; [apply overlap_tail_suffix|]); rewrite Es;
      (split; [by split|]); (split; [apply overlap_tail_whole|apply overlap_tail_exact]).
Qed.

End Chunks.

End ChunkerMore.


(** ** Numbers in identifiers *)

Module DigitFacts.

Lemma string_of_uint_digits (d : Decimal.uint) :
  Forall (fun c => isdecimal c = true) (py (NilEmpty.string_of_uint d)).
Proof.
  unfold py. induction d; simpl; constructor; solve [reflexivity | assumption].
Qed.

Lemma str_of_nat_digits (n : nat) : Forall (fun c => isdecimal c = true) (str_of_nat n).
Proof.
  unfold str_of_nat, NilZero.string_of_uint.
  destruct (Nat.to_uint n) eqn:E; try (rewrite <- E; apply string_of_uint_digits).
  by repeat constructor.
Qed.

Lemma int_of_digits_acc (d : Decimal.uint) (acc : nat) :
  fold_left (fun acc c => (10 * acc + Z.of_nat (code c - 48))%Z)
            (py (NilEmpty.string_of_uint d)) (Z.of_nat acc)
  = Z.of_nat (Nat.of_uint_acc d acc).
Proof.
  unfold py. revert acc.
  induction d as [|d IH|d IH|d IH|d IH|d IH|d IH|d IH|d IH|d IH|d IH];
    intros acc; cbn [NilEmpty.string_of_uint list_ascii_of_string fold_left Nat.of_uint_acc];
    [done|..]; rewrite <- IH; f_equal; rewrite Nat.tail_mul_spec;
    match goal with |- context [Z.of_nat (code ?c - 48)] =>
      let v := eval vm_compute in (Z.of_nat (code c - 48)) in
      change (Z.of_nat (code c - 48)) with v
    end; lia.
Qed.

(** [int(str(n)) == n]. *)
Lemma int_of_digits_str_of_nat (n : nat) : int_of_digits (str_of_nat n) = Z.of_nat n.
Proof.
  rewrite <- (Unsigned.of_to n) at 2. unfold Nat.of_uint.
  rewrite <- (int_of_digits_acc (Nat.to_uint n) 0).
  unfold int_of_digits, str_of_nat, NilZero.string_of_uint.
  by destruct (Nat.to_uint n).
Qed.

Lemma str_of_nat_inj (n m : nat) : str_of_nat n = str_of_nat m -> n = m.
Proof.
  intros H. apply (f_equal int_of_digits) in H.
  rewrite !int_of_digits_str_of_nat in H. lia.
Qed.

Lemma int_of_digits_zeros (k : nat) (digits : str) :
  int_of_digits (repeat "0"%char k ++ digits) = int_of_digits digits.
Proof.
  unfold int_of_digits. rewrite fold_left_app. f_equal.
  induction k as [|k IH]; simpl; [done|]. exact IH.
Qed.

(** [int(f"{n:04d}") == n]. *)
Lemma int_of_digits_fmt_04d (n : nat) : int_of_digits (Enricher.fmt_04d n) = Z.of_nat n.
Proof.
  unfold Enricher.fmt_04d. by rewrite int_of_digits_zeros, int_of_digits_str_of_nat.
Qed.

Lemma fmt_04d_inj (n m : nat) : Enricher.fmt_04d n = Enricher.fmt_04d m -> n = m.
Proof.
  intros H. apply (f_equal int_of_digits) in H.
  rewrite !int_of_digits_fmt_04d in H. lia.
Qed.

Lemma fmt_04d_digits (n : nat) : Forall (fun c => isdecimal c = true) (Enricher.fmt_04d n).
Proof.
  unfold Enricher.fmt_04d. apply Forall_app. split; [|apply str_of_nat_digits].
  induction (4 - length (str_of_nat n))%nat; simpl; constructor; done.
Qed.

(** The field after the last separator of an identifier. *)
Lemma first_field_inj (c : ascii) (x y u v : str) :
  c ∉ x -> c ∉ y -> x ++ c :: u = y ++ c :: v -> x = y.
Proof.
  revert y. induction x as [|a x IH]; intros [|b y] Hx Hy H; simpl in *.
  - done.
  - injection H as -> _. exfalso. apply Hy. apply list_elem_of_here.
  - injection H as -> _. exfalso. apply Hx. apply list_elem_of_here.
  - injection H as -> H. f_equal. apply IH; [| |done].
    + intros ?. apply Hx. by apply list_elem_of_further.
    + intros ?. apply Hy. by apply list_elem_of_further.
Qed.

Lemma last_field_inj (c : ascii) (a b x y : str) :
  c ∉ x -> c ∉ y -> a ++ c :: x = b ++ c :: y -> x = y.
Proof.
  intros Hx Hy H. apply (f_equal (@rev ascii)) in H.
  rewrite !rev_app_distr in H. simpl in H. rewrite <- !app_assoc in H. simpl in H.
  apply first_field_inj in H.
  - apply (f_equal (@rev ascii)) in H. by rewrite !rev_involutive in H.
  - intros Hin. apply Hx. apply list_elem_of_In. apply in_rev. by apply list_elem_of_In.
  - intros Hin. apply Hy. apply list_elem_of_In. apply in_rev. by apply list_elem_of_In.
Qed.

Lemma digits_no_underscore (s : str) :
  Forall (fun c => isdecimal c = true) s -> "_"%char ∉ s.
Proof.
  intros H Hin. rewrite Forall_forall in H. by specialize (H _ Hin).
Qed.

End DigitFacts.

(** ** The chunker: identifiers, labels and short texts *)

Module ChunkerIds.

Import PyFacts Chunking ChunkingFacts ChunkerSpec DigitFacts.

Section Ids.

Local Open Scope Z_scope.

Variable config : ChunkConfig.

Lemma create_chunks_id (rnd : nat -> str) (data : list (str * str * Z * Z))
    (src : str) (i : nat) (c : Chunk) :
  _create_chunks rnd data src !! i = Some c ->
  exists section, id c = ((src ++ py "_" ++ section) ++ "_"%char :: str_of_nat i)
                         ++ "_"%char :: rnd i.
Proof.
  unfold _create_chunks. rewrite list_lookup_imap.
  destruct (data !! i) as [[[[t s] p] n]|]; [|done].
  simpl. intros [= <-]. exists s. simpl. by rewrite <- !app_assoc.
Qed.

(** X17. The identifiers the chunker gives the chunks of one run are
    pairwise different, whatever the random parts are, as long as these have
    one length (they are 8 hexadecimal digits): the position of the chunk is
    part of the identifier. *)
Theorem X17_chunk_ids_are_pairwise_distinct (rnd : nat -> str) (text source : str) :
  (forall i j, length (rnd i) = length (rnd j)) ->
  match chunk config rnd text source with
  | Ok chunks => NoDup (id <$> chunks)
  | Raise e => e = ValueError /\ chunk_size config = 0
  end.
Proof.
  intros Hrnd. unfold chunk.
  destruct (negb (truthy text) || negb (truthy (strip text))); [constructor|].
  pose proof (raw_chunks_within config text) as Hraw.
  destruct (raw_chunks config text) as [raw|e]; simpl; [|exact Hraw].
  apply NoDup_alt. intros i j x Hi Hj. rewrite list_lookup_fmap in Hi, Hj.
  destruct (_create_chunks rnd (_apply_overlap config raw) source !! i) as [ci|] eqn:Ei;
    [|done].
  destruct (_create_chunks rnd (_apply_overlap config raw) source !! j) as [cj|] eqn:Ej;
    [|done].
  apply create_chunks_id in Ei as [si Hci]. apply create_chunks_id in Ej as [sj Hcj].
  simpl in Hi, Hj. injection Hi as Hi. injection Hj as Hj.
  rewrite Hci in Hi. rewrite Hcj in Hj. rewrite <- Hj in Hi.
  apply app_inj_2 in Hi as [Hi _]; [|simpl; by rewrite (Hrnd i j)].
  apply last_field_inj in Hi.
  - by apply str_of_nat_inj.
  - apply digits_no_underscore, str_of_nat_digits.
  - apply digits_no_underscore, str_of_nat_digits.
Qed.

End Ids.

Lemma X17_chunk_ids_are_pairwise_distinct_witness :
  match chunk Samples.small_config (fun _ => py "00000000")
          (py "aaaaaaaa bbbbbbbb") (py "paper.pdf") with
  | Ok chunks => NoDup (id <$> chunks)
  | Raise e => e = ValueError /\ chunk_size Samples.small_config = 0%Z
  end.
Proof.
  apply (X17_chunk_ids_are_pairwise_distinct Samples.small_config
           (fun _ => py "00000000") (py "aaaaaaaa bbbbbbbb") (py "paper.pdf")).
  reflexivity.
Defined.

(** *** The labels of the chunks *)

Section Labels.

Local Open Scope Z_scope.

Variable config : ChunkConfig.

Lemma hard_split_labelled (text section : str) :
  labelled section (_hard_split config text section).
Proof.
  unfold _hard_split. destruct (range0 _ _) as [starts|e]; simpl; [|done].
  apply Forall_forall. intros [t s] Hin.
  apply list_elem_of_omap in Hin as [i [_ Hi]].
  destruct (truthy _); [|done]. by injection Hi as <- <-.
Qed.

Section Merge.

Variable split_again : str -> str -> exc (list (str * str)).
Variable section : str.
Hypothesis split_again_labelled : forall part, labelled section (split_again part section).

Lemma merge_loop_labelled (separator : str) (parts : list str)
    (st : list (str * str) * str) :
  Forall (fun c => c.2 = section) st.1 ->
  match merge_loop config split_again separator section st parts with
  | Ok st' => Forall (fun c => c.2 = section) st'.1
  | Raise _ => True
  end.
Proof.
  revert st. induction parts as [|part parts IH]; intros [chunks current] Hst; simpl; [done|].
  destruct (len _ <=? chunk_size config); simpl; [by apply IH|].
  set (chunks' := if truthy current && (min_chunk_size config <=? len current)
                  then chunks ++ [(strip current, section)] else chunks).
  assert (Hchunks' : Forall (fun c : str * str => c.2 = section) chunks').
  { unfold chunks'. destruct (truthy current && _); [|done].
    apply Forall_app. split; [done|]. by repeat constructor. }
  destruct (chunk_size config <? len part); simpl; [|by apply IH].
  pose proof (split_again_labelled part) as Hrec.
  destruct (split_again part section) as [sub|e]; simpl in *; [|done].
  apply IH. simpl. by apply Forall_app.
Qed.

Lemma merge_splits_labelled (separator : str) (parts : list str) :
  labelled section (_merge_splits config split_again parts separator section).
Proof.
  unfold _merge_splits.
  pose proof (merge_loop_labelled separator parts ([], []) ltac:(constructor)) as H.
  destruct (merge_loop config split_again separator section ([], []) parts)
    as [[chunks current]|e]; simpl in *; [|done].
  destruct (truthy current && (min_chunk_size config <=? len (strip current))).
  { apply Forall_app. split; [done|]. by repeat constructor. }
  destruct (truthy current && truthy chunks); [|done].
  destruct (last chunks) as [[prev_text prev_section]|] eqn:Elast; [|done].
  apply Forall_app. split.
  - rewrite removelast_firstn_len. by apply Forall_take.
  - repeat constructor. simpl. apply last_Some_elem_of in Elast.
    rewrite Forall_forall in H. exact (H _ Elast).
Qed.

Lemma try_separators_labelled (seps : list str) (text : str) :
  labelled section (try_separators config split_again seps text section).
Proof.
  induction seps as [|sep seps IH]; simpl; [apply hard_split_labelled|].
  destruct (1 <? length (split text sep))%nat; [|exact IH].
  pose proof (merge_splits_labelled sep (split text sep)) as H.
  destruct (_merge_splits config split_again (split text sep) sep section)
    as [chunks|e]; simpl in *; [|done].
  by destruct (truthy chunks).
Qed.

End Merge.

Lemma recursive_split_fuel_labelled (fuel : nat) (text section : str) :
  labelled section (recursive_split_fuel config fuel text section).
Proof.
  revert text section. induction fuel as [|fuel IH]; intros text section; [done|].
  rewrite recursive_split_fuel_S. destruct (len text <=? chunk_size config).
  - simpl. destruct (truthy (strip text)); by repeat constructor.
  - apply try_separators_labelled. intros part. apply IH.
Qed.

Lemma split_sections_labelled (text : str) (sections : list (str * nat * nat)) :
  match split_sections config text sections with
  | Ok chunks => Forall (fun c => c.2 ∈ sections.*1.*1) chunks
  | Raise _ => True
  end.
Proof.
  induction sections as [|[[name start] stop] sections IH]; simpl; [constructor|].
  assert (H1 : labelled name
            (if truthy (strip (slice text start stop))
             then _recursive_split config (strip (slice text start stop)) name
             else Ok [])).
  { destruct (truthy _); [apply recursive_split_fuel_labelled|constructor]. }
  destruct (if truthy (strip (slice text start stop)) then _ else _) as [a|e];
    simpl in *; [|done].
  destruct (split_sections config text sections) as [b|e]; simpl in *; [|done].
  apply Forall_app. split.
  - eapply Forall_impl; [exact H1|]. intros c ->. apply list_elem_of_here.
  - eapply Forall_impl; [exact IH|]. intros c Hc. by apply list_elem_of_further.
Qed.

Lemma detect_sections_names (text : str) :
  Forall (fun name => name ∈ SECTION_PATTERNS.*1) (detect_sections text).*1.*1.
Proof.
  apply Forall_forall. intros name Hin.
  apply list_elem_of_fmap in Hin as [[n start] [-> Hin]].
  apply list_elem_of_fmap in Hin as [[[n' start'] stop] [[= <- <-] Hin]].
  apply list_elem_of_lookup in Hin as [i Hi].
  by apply ChunkerMore.detect_sections_spec in Hi as (_ & _ & ? & _).
Qed.

Lemma raw_chunks_labelled (text : str) :
  match raw_chunks config text with
  | Ok raw =>
      Forall (fun c => c.2 ∈ chunk_labels) raw /\
      (section_detection config = false -> Forall (fun c => c.2 = py "body") raw)
  | Raise _ => True
  end.
Proof.
  unfold raw_chunks.
  assert (Hbody : match _recursive_split config text (py "body") with
                  | Ok raw =>
                      Forall (fun c => c.2 ∈ chunk_labels) raw /\
                      (section_detection config = false ->
                       Forall (fun c => c.2 = py "body") raw)
                  | Raise _ => True
                  end).
  { pose proof (recursive_split_fuel_labelled (S (length text)) text (py "body")) as H.
    fold (_recursive_split config text (py "body")) in H.
    destruct (_recursive_split config text (py "body")) as [raw|e]; [|done].
    split; [|done]. eapply Forall_impl; [exact H|]. intros c ->. apply list_elem_of_here. }
  destruct (section_detection config) eqn:Edet; [|exact Hbody].
  destruct (truthy (detect_sections text)) eqn:Et; [|exact Hbody]. clear Hbody.
  unfold _recursive_split_with_sections.
  set (preamble := match detect_sections text with
                   | (_, S start, _) :: _ =>
                       if truthy (strip (slice text 0 (S start)))
                       then _recursive_split config (strip (slice text 0 (S start)))
                              (py "preamble")
                       else Ok []
                   | _ => Ok []
                   end).
  assert (Hpre : labelled (py "preamble") preamble).
  { unfold preamble. destruct (detect_sections text) as [|[[name [|start]] stop] sections];
      try constructor.
    destruct (truthy (strip (slice text 0 (S start))));
      [apply recursive_split_fuel_labelled|constructor]. }
  destruct preamble as [pre|e]; simpl in *; [|done].
  pose proof (split_sections_labelled text (detect_sections text)) as Hsec.
  destruct (split_sections config text (detect_sections text)) as [chunks|e];
    simpl in *; [|done].
  split; [|done]. apply Forall_app. split.
  - eapply Forall_impl; [exact Hpre|]. intros c ->.
    apply list_elem_of_further, list_elem_of_here.
  - eapply Forall_impl; [exact Hsec|]. intros c Hc.
    do 2 apply list_elem_of_further.
    pose proof (detect_sections_names text) as Hn. rewrite Forall_forall in Hn.
    by apply Hn.
Qed.

Lemma chunk_sections_known (rnd : nat -> str) (text source : str) :
  match chunk config rnd text source with
  | Ok chunks =>
      Forall (fun c => section (metadata c) ∈ chunk_labels) chunks /\
      (section_detection config = false ->
       Forall (fun c => section (metadata c) = py "body") chunks)
  | Raise e => e = ValueError /\ chunk_size config = 0
  end.
Proof.
  unfold chunk.
  destruct (negb (truthy text) || negb (truthy (strip text))); [by split|].
  pose proof (raw_chunks_within config text) as Hraw.
  pose proof (raw_chunks_labelled text) as Hlab.
  destruct (raw_chunks config text) as [raw|e]; simpl; [|exact Hraw].
  destruct Hlab as [H1 H2].
  assert (Hsec : forall c, c ∈ _create_chunks rnd (_apply_overlap config raw) source ->
            exists r, r ∈ raw /\ section (metadata c) = r.2).
  { intros c Hc. apply list_elem_of_lookup in Hc as [i Hi].
    apply create_chunks_lookup in Hi as (t & s & p & n & Hdata & _ & ->).
    apply apply_overlap_lookup in Hdata as (cur & Hcur & _).
    exists (cur, s). split; [by eapply list_elem_of_lookup_2|done]. }
  split.
  - apply Forall_forall. intros c Hc. destruct (Hsec c Hc) as [r [Hr ->]].
    rewrite Forall_forall in H1. by apply H1.
  - intros Hoff. specialize (H2 Hoff). apply Forall_forall. intros c Hc.
    destruct (Hsec c Hc) as [r [Hr ->]]. rewrite Forall_forall in H2. by apply H2.
Qed.

(** X18. Every chunk of a run carries one of nine labels: [body],
    [preamble] or a key of [SECTION_PATTERNS]; with section detection
    switched off every chunk is labelled [body]. *)
Theorem X18_chunk_labels_are_known (rnd : nat -> str) (text source : str) :
  match chunk config rnd text source with
  | Ok chunks =>
      Forall (fun c => section (metadata c) ∈ chunk_labels) chunks /\
      (section_detection config = false ->
       Forall (fun c => section (metadata c) = py "body") chunks)
  | Raise e => e = ValueError /\ chunk_size config = 0
  end.
Proof. apply chunk_sections_known. Qed.

(** X19. A text of at most [chunk_size] characters that is not blank and
    has no heading line (or is chunked with section detection off) becomes
    exactly one chunk: its text is the whole text, unstripped, its label is
    [body], its index 0 and its overlaps 0. *)
Theorem X19_short_text_is_one_unchanged_chunk (rnd : nat -> str) (text source : str) :
  len text <= chunk_size config ->
  strip text <> [] ->
  section_detection config = false \/ detect_sections text = [] ->
  chunk config rnd text source
  = Ok [ {| id := source ++ py "_body_0_" ++ rnd 0%nat;
            Chunking.text := text;
            metadata := {| Chunking.source := source; page := 0; section := py "body";
                           chunk_index := 0; parent_chunk_id := None;
                           overlap_with_prev := 0; overlap_with_next := 0;
                           semantic_tags := [] |} |} ].
Proof.
  intros Hlen Hstrip Hsec. unfold chunk.
  assert (Ht : truthy (strip text) = true) by (by destruct (strip text)).
  assert (Ht' : truthy text = true).
  { destruct text; [|done]. by vm_compute in Ht. }
  rewrite Ht, Ht'. cbn [negb orb].
  assert (Hraw : raw_chunks config text = Ok [(text, py "body")]).
  { unfold raw_chunks.
    assert (Hs : (if section_detection config then detect_sections text else []) = []).
    { destruct Hsec as [->| ->]; [done|by destruct (section_detection config)]. }
    rewrite Hs. cbn [truthy]. unfold _recursive_split. rewrite recursive_split_fuel_S.
    by rewrite (proj2 (Z.leb_le _ _) Hlen), Ht. }
  rewrite Hraw. reflexivity.
Qed.

End Labels.

Lemma X19_short_text_is_one_unchanged_chunk_witness :
  chunk default_config (fun _ => py "1a2b3c4d") (py " hello world ") (py "paper.pdf")
  = Ok [ {| id := py "paper.pdf" ++ py "_body_0_" ++ py "1a2b3c4d";
            Chunking.text := py " hello world ";
            metadata := {| Chunking.source := py "paper.pdf"; page := 0;
                           section := py "body";
                           chunk_index := 0; parent_chunk_id := None;
                           overlap_with_prev := 0; overlap_with_next := 0;
                           semantic_tags := [] |} |} ].
Proof.
  apply (X19_short_text_is_one_unchanged_chunk default_config (fun _ => py "1a2b3c4d")
           (py " hello world ") (py "paper.pdf")).
  - vm_compute. discriminate.
  - vm_compute. discriminate.
  - right. vm_compute. reflexivity.
Defined.

End ChunkerIds.


(** ** The metadata enricher, continued *)

Module EnricherMore.

Import PyFacts Chunking Enricher EnricherFacts DigitFacts.

(** *** Pages *)

Global Instance item_le_total : Total item_le.
Proof. intros a b. unfold item_le. lia. Qed.

Global Instance item_le_trans : Transitive item_le.
Proof. intros a b c. unfold item_le. lia. Qed.

Lemma page_loop_none (chunk_start : Z) (items : list (Z * Z)) :
  Forall (fun item => (chunk_start < item.1)%Z) items -> page_loop chunk_start items = 0%Z.
Proof.
  induction 1 as [|[offset page] items H _ IH]; simpl; [done|].
  simpl in H. by rewrite (proj2 (Z.leb_gt _ _) H).
Qed.

Lemma int_of_digits_nonneg (s : str) : (0 <= int_of_digits s)%Z.
Proof.
  unfold int_of_digits.
  assert (H : forall acc, (0 <= acc)%Z ->
            (0 <= fold_left (fun acc c => 10 * acc + Z.of_nat (code c - 48)) s acc)%Z).
  { induction s as [|c s IH]; intros acc Hacc; simpl; [done|]. apply IH. lia. }
  by apply H.
Qed.

(** X20. With a page map that is not empty (its keys are integer offsets),
    [_extract_page_number] reads the lowest boundary only: it returns the
    page of the lowest offset when that offset does not exceed the start
    offset of the chunk (0 for a chunk without a recorded offset), and 0
    otherwise. Without a page map it returns the number that the digits of
    the first match of the marker pattern spell, which is never negative,
    and 0 when the pattern does not match. *)
Theorem X20_page_lookup_reads_the_lowest_boundary_only (chunk : Chunk) (pdf : PdfMetadata) :
  (forall m, page_map pdf = Some m -> m <> ∅ ->
     exists offset page,
       m !! offset = Some page /\
       (forall o p, m !! o = Some p -> (offset <= o)%Z) /\
       _extract_page_number chunk pdf
       = if (offset <=? default 0%Z (default ∅ (chunk_offsets pdf) !! id chunk))%Z
         then page else 0%Z) /\
  (page_map pdf = None \/ page_map pdf = Some ∅ ->
     (0 <= _extract_page_number chunk pdf)%Z /\
     (forall mt, re_search page_pattern (text chunk) = Some mt ->
        _extract_page_number chunk pdf = int_of_digits (default [] (group1 mt))) /\
     (re_search page_pattern (text chunk) = None -> _extract_page_number chunk pdf = 0%Z)).
Proof.
  split.
  - intros m Hm Hne. unfold _extract_page_number. rewrite Hm.
    change (default ∅ (Some m)) with m.
    rewrite bool_decide_eq_false_2 by done.
    set (chunk_start := default 0%Z (default ∅ (chunk_offsets pdf) !! id chunk)).
    pose proof (StronglySorted_merge_sort item_le (map_to_list m)) as Hs.
    pose proof (merge_sort_Permutation item_le (map_to_list m)) as Hp.
    fold (sorted_items m) in Hs, Hp.
    destruct (sorted_items m) as [|[offset page] items] eqn:E.
    { apply Permutation_nil_l in Hp. symmetry in Hp.
      by apply map_to_list_empty_iff in Hp. }
    apply StronglySorted_inv in Hs as [_ Hall].
    assert (Hmin : forall o p, m !! o = Some p -> (offset <= o)%Z).
    { intros o p Hop. apply elem_of_map_to_list in Hop. rewrite <- Hp in Hop.
      apply elem_of_cons in Hop as [[= -> ->]|Hop]; [lia|].
      rewrite Forall_forall in Hall. exact (Hall _ Hop). }
    exists offset, page. split; [|split; [done|]].
    + apply elem_of_map_to_list. rewrite <- Hp. apply list_elem_of_here.
    + cbn [page_loop]. destruct (offset <=? chunk_start)%Z eqn:El; [done|].
      apply Z.leb_gt in El. apply page_loop_none.
      eapply Forall_impl; [exact Hall|]. intros [o p] Hle. unfold item_le in Hle.
      simpl in *. lia.
  - intros Hnone. unfold _extract_page_number.
    assert (Hm : default ∅ (page_map pdf) = ∅) by (by destruct Hnone as [->| ->]).
    rewrite Hm. rewrite bool_decide_eq_true_2 by done.
    destruct (re_search page_pattern (text chunk)) as [mt|]; [|done].
    split; [apply int_of_digits_nonneg|]. split; [|done]. by intros mt' [= <-].
Qed.

(** *** What [enrich] leaves alone *)

Section Enrich.

Variable md5_hexdigest : str -> str.
Variable config : EnricherConfig.

Lemma enrich_chunk_frame (c : Chunk) (i n : nat) (pdf : option PdfMetadata) :
  let c' := _enrich_chunk md5_hexdigest config c i n pdf in
  text c' = text c /\
  source (metadata c') = source (metadata c) /\
  chunk_index (metadata c') = chunk_index (metadata c) /\
  parent_chunk_id (metadata c') = parent_chunk_id (metadata c) /\
  overlap_with_prev (metadata c') = overlap_with_prev (metadata c) /\
  overlap_with_next (metadata c') = overlap_with_next (metadata c) /\
  semantic_tags (metadata c') = semantic_tags (metadata c) /\
  (hierarchical_ids config = false -> id c' = id c) /\
  (extract_page_numbers config = false \/ pdf_truthy pdf = false ->
   page (metadata c') = page (metadata c)).
Proof.
  unfold _enrich_chunk. cbn [text metadata id].
  set (m1 := match pdf with
             | Some d => if extract_page_numbers config && pdf_truthy pdf
                         then with_page (metadata c) (_extract_page_number c d)
                         else metadata c
             | None => metadata c
             end).
  assert (H1 : source m1 = source (metadata c) /\
               chunk_index m1 = chunk_index (metadata c) /\
               parent_chunk_id m1 = parent_chunk_id (metadata c) /\
               overlap_with_prev m1 = overlap_with_prev (metadata c) /\
               overlap_with_next m1 = overlap_with_next (metadata c) /\
               semantic_tags m1 = semantic_tags (metadata c) /\
               (extract_page_numbers config = false \/ pdf_truthy pdf = false ->
                page m1 = page (metadata c))).
  { unfold m1. destruct pdf as [d|]; [|by repeat split].
    destruct (extract_page_numbers config && pdf_truthy (Some d)) eqn:E;
      [|by repeat split].
    repeat split. intros [H|H]; apply andb_true_iff in E as [E1 E2]; congruence. }
  set (m2 := if negb (truthy (section m1)) || bool_decide (section m1 = py "body")
             then match _detect_section (text c) with
                  | Some section => with_section m1 section
                  | None => m1
                  end
             else m1).
  assert (H2 : source m2 = source m1 /\ chunk_index m2 = chunk_index m1 /\
               parent_chunk_id m2 = parent_chunk_id m1 /\
               overlap_with_prev m2 = overlap_with_prev m1 /\
               overlap_with_next m2 = overlap_with_next m1 /\
               semantic_tags m2 = semantic_tags m1 /\ page m2 = page m1).
  { unfold m2. destruct (negb _ || _); [|by repeat split].
    destruct (_detect_section (text c)); by repeat split. }
  destruct H1 as (? & ? & ? & ? & ? & ? & Hp), H2 as (? & ? & ? & ? & ? & ? & ?).
  repeat split; try congruence.
  - intros Hh. by rewrite Hh.
  - intros Hoff. specialize (Hp Hoff). congruence.
Qed.

Lemma assign_loop_frame (m : gmap str str) (chunks : list Chunk) :
  Forall2 (fun c c' => id c' = id c /\ text c' = text c /\
                       exists parent, metadata c' = with_parent (metadata c) parent)
          chunks (assign_loop m chunks).
Proof.
  revert m. induction chunks as [|c chunks IH]; intros m; simpl; [constructor|].
  destruct (m !! section (metadata c)); constructor; try apply IH;
    (split; [done|]); (split; [done|]); by eexists.
Qed.

(** X21. [enrich] returns as many chunks as it is given, in the same
    order, and changes neither the text of a chunk nor its source, index,
    overlap counts and tags. The label of a chunk changes only if it was
    empty or [body]; the page only if page extraction is on and page
    metadata is given; the identifier and the parent only if hierarchical
    identifiers are on. *)
Theorem X21_enrich_keeps_texts_positions_and_overlaps
    (chunks : list Chunk) (pdf_metadata : option PdfMetadata) :
  Forall2 (fun c c' =>
             text c' = text c /\
             source (metadata c') = source (metadata c) /\
             chunk_index (metadata c') = chunk_index (metadata c) /\
             overlap_with_prev (metadata c') = overlap_with_prev (metadata c) /\
             overlap_with_next (metadata c') = overlap_with_next (metadata c) /\
             semantic_tags (metadata c') = semantic_tags (metadata c) /\
             (section (metadata c) <> [] -> section (metadata c) <> py "body" ->
              section (metadata c') = section (metadata c)) /\
             (extract_page_numbers config = false \/ pdf_truthy pdf_metadata = false ->
              page (metadata c') = page (metadata c)) /\
             (hierarchical_ids config = false ->
              id c' = id c /\
              parent_chunk_id (metadata c') = parent_chunk_id (metadata c)))
          chunks (enrich md5_hexdigest config chunks pdf_metadata).
Proof.
  unfold enrich. destruct chunks as [|c0 chunks']; [constructor|].
  change (negb (truthy (c0 :: chunks'))) with false. cbv iota.
  set (chunks := c0 :: chunks').
  set (enriched := imap (fun i chunk =>
                           _enrich_chunk md5_hexdigest config chunk i (length chunks)
                             pdf_metadata) chunks).
  assert (He : Forall2 (fun c c' =>
                 exists i, c' = _enrich_chunk md5_hexdigest config c i (length chunks)
                                  pdf_metadata) chunks enriched).
  { apply Forall2_same_length_lookup. split; [by unfold enriched; rewrite length_imap|].
    intros i c c' Hc Hc'. unfold enriched in Hc'. rewrite list_lookup_imap, Hc in Hc'.
    injection Hc' as <-. by exists i. }
  assert (Hsec : forall c i, section (metadata c) <> [] -> section (metadata c) <> py "body" ->
            section (metadata (_enrich_chunk md5_hexdigest config c i (length chunks)
                                 pdf_metadata)) = section (metadata c)).
  { intros c i Hne Hnb. rewrite enrich_chunk_section. unfold corrected_section.
    destruct (section (metadata c)) as [|a s] eqn:Es; [done|]. simpl.
    by rewrite bool_decide_eq_false_2. }
  destruct (hierarchical_ids config) eqn:Eh.
  - unfold _assign_parent_relationships.
    pose proof (assign_loop_frame ∅ enriched) as Ha.
    apply Forall2_same_length_lookup. split.
    { rewrite <- (Forall2_length _ _ _ Ha). by eapply Forall2_length. }
    intros i c c'' Hc Hc''.
    destruct (Forall2_lookup_l _ _ _ _ _ He Hc) as (c' & Hc' & j & ->).
    destruct (Forall2_lookup_l _ _ _ _ _ Ha Hc') as (c2 & Hc2 & Hid & Htext & parent & Hmeta).
    rewrite Hc'' in Hc2. injection Hc2 as <-.
    destruct (enrich_chunk_frame c j (length chunks) pdf_metadata)
      as (F1 & F2 & F3 & F4 & F5 & F6 & F7 & F8 & F9).
    rewrite Htext, Hmeta. cbn [source chunk_index overlap_with_prev overlap_with_next
                                 semantic_tags section page with_parent].
    repeat split; try done. by apply Hsec.
  - eapply Forall2_impl; [exact He|]. intros c c' [i ->].
    destruct (enrich_chunk_frame c i (length chunks) pdf_metadata)
      as (F1 & F2 & F3 & F4 & F5 & F6 & F7 & F8 & F9).
    repeat split; try done; [by apply Hsec|by apply F8].
Qed.

End Enrich.

(** *** Parents *)

Lemma assign_loop_parent (m : gmap str str) (chunks : list Chunk) (i : nat) (c' : Chunk) :
  assign_loop m chunks !! i = Some c' ->
  exists c, chunks !! i = Some c /\
    parent_chunk_id (metadata c') =
      match m !! section (metadata c) with
      | Some p => Some p
      | None =>
          (fun found : nat * Chunk => id found.2)
            <$> list_find (fun d => section (metadata d) = section (metadata c))
                          (take i chunks)
      end.
Proof.
  revert m i. induction chunks as [|c0 chunks IH]; intros m i; [done|].
  cbn [assign_loop]. destruct i as [|i].
  - destruct (m !! section (metadata c0)) as [first|] eqn:E0; cbn [lookup list_lookup];
      intros [= <-]; exists c0; (split; [done|]); cbn [metadata with_parent parent_chunk_id];
      by rewrite E0.
  - assert (Hstep : forall m', assign_loop m' chunks !! i = Some c' ->
              (forall s, s <> section (metadata c0) -> m' !! s = m !! s) ->
              m' !! section (metadata c0)
              = Some (default (id c0) (m !! section (metadata c0))) ->
              exists c, (c0 :: chunks) !! S i = Some c /\
                parent_chunk_id (metadata c') =
                  match m !! section (metadata c) with
                  | Some p => Some p
                  | None =>
                      (fun found : nat * Chunk => id found.2)
                        <$> list_find (fun d => section (metadata d) = section (metadata c))
                                      (take (S i) (c0 :: chunks))
                  end).
    { intros m' Hc' Hother Hown. destruct (IH m' i Hc') as [c [Hc Hp]].
      exists c. split; [done|]. rewrite Hp. cbn [take list_find].
      destruct (decide (section (metadata c0) = section (metadata c))) as [Heq|Hne].
      - rewrite <- Heq, Hown. by destruct (m !! section (metadata c0)).
      - rewrite Hother by done.
        destruct (m !! section (metadata c)); [done|].
        by destruct (list_find _ (take i chunks)) as [[j d]|]. }
    destruct (m !! section (metadata c0)) as [first|] eqn:E0; cbn [lookup list_lookup];
      intros Hc'; apply (Hstep _ Hc').
    + done.
    + by rewrite E0.
    + intros s Hs. by rewrite lookup_insert_ne.
    + by rewrite lookup_insert_eq.
Qed.

(** X22. [_assign_parent_relationships] changes nothing of a chunk but its
    parent: a chunk has no parent exactly when no earlier chunk of the list
    carries its label, and otherwise its parent is the identifier of the
    first chunk of the list that carries its label, whatever lies between
    the two. *)
Theorem X22_parent_is_the_first_chunk_of_the_section
    (chunks : list Chunk) (i : nat) (c' : Chunk) :
  _assign_parent_relationships chunks !! i = Some c' ->
  exists c,
    chunks !! i = Some c /\ id c' = id c /\ text c' = text c /\
    metadata c' = with_parent (metadata c) (parent_chunk_id (metadata c')) /\
    match parent_chunk_id (metadata c') with
    | None =>
        forall j d, (j < i)%nat -> chunks !! j = Some d ->
          section (metadata d) <> section (metadata c)
    | Some parent =>
        exists j d,
          (j < i)%nat /\ chunks !! j = Some d /\
          section (metadata d) = section (metadata c) /\ id d = parent /\
          forall j' d', (j' < j)%nat -> chunks !! j' = Some d' ->
            section (metadata d') <> section (metadata c)
    end.
Proof.
  unfold _assign_parent_relationships. intros Hc'.
  destruct (assign_loop_parent ∅ chunks i c' Hc') as [c [Hc Hp]].
  rewrite lookup_empty in Hp.
  destruct (Forall2_lookup_l _ _ _ _ _ (assign_loop_frame ∅ chunks) Hc)
    as (c2 & Hc2 & Hid & Htext & parent & Hmeta).
  rewrite Hc' in Hc2. injection Hc2 as <-.
  exists c. split; [done|]. split; [done|]. split; [done|]. split.
  { rewrite Hmeta. by destruct (metadata c). }
  rewrite Hp.
  destruct (list_find (fun d => section (metadata d) = section (metadata c)) (take i chunks))
    as [[j d]|] eqn:Ef; cbn [fmap option_fmap option_map].
  - apply list_find_Some in Ef as (Hj & Hs & Hfirst).
    apply lookup_take_Some in Hj as [Hj Hlt].
    exists j, d. split; [done|]. split; [done|]. split; [done|]. split; [done|].
    intros j' d' Hlt' Hd'. apply (Hfirst j' d'); [|done].
    apply lookup_take_Some. split; [done|lia].
  - intros j d Hlt Hd Hs.
    apply list_find_None in Ef. rewrite Forall_forall in Ef.
    apply (Ef d); [|done]. apply list_elem_of_lookup. exists j.
    apply lookup_take_Some. by split.
Qed.

Lemma X22_parent_is_the_first_chunk_of_the_section_witness :
  exists c' c,
    _assign_parent_relationships [Samples.chunk150; Samples.chunk150] !! 1%nat = Some c' /\
    [Samples.chunk150; Samples.chunk150] !! 1%nat = Some c /\
    id c' = id c /\ text c' = text c /\
    metadata c' = with_parent (metadata c) (parent_chunk_id (metadata c')) /\
    match parent_chunk_id (metadata c') with
    | None =>
        forall j d, (j < 1)%nat -> [Samples.chunk150; Samples.chunk150] !! j = Some d ->
          section (metadata d) <> section (metadata c)
    | Some parent =>
        exists j d,
          (j < 1)%nat /\ [Samples.chunk150; Samples.chunk150] !! j = Some d /\
          section (metadata d) = section (metadata c) /\ id d = parent /\
          forall j' d', (j' < j)%nat ->
            [Samples.chunk150; Samples.chunk150] !! j' = Some d' ->
            section (metadata d') <> section (metadata c)
    end.
Proof.
  eexists.
  destruct (X22_parent_is_the_first_chunk_of_the_section
              [Samples.chunk150; Samples.chunk150] 1 _ eq_refl) as [c H].
  exists c. split; [reflexivity|exact H].
Defined.

(** *** Identifiers *)

Section Ids.

Variable md5_hexdigest : str -> str.
Variable config : EnricherConfig.

(** X23. With hierarchical identifiers on and a digest function whose
    digests have 32 characters, the identifiers of the chunks [enrich]
    returns are pairwise different, whatever the digests, sources and labels
    are: the position of a chunk is part of its identifier. *)
Theorem X23_hierarchical_ids_are_pairwise_distinct
    (chunks : list Chunk) (pdf_metadata : option PdfMetadata) :
  hierarchical_ids config = true ->
  (forall s, length (md5_hexdigest s) = 32%nat) ->
  NoDup (id <$> enrich md5_hexdigest config chunks pdf_metadata).
Proof.
  intros Hh Hlen. rewrite (enrich_ids md5_hexdigest config chunks pdf_metadata Hh).
  apply NoDup_alt. intros i j x Hi Hj. rewrite list_lookup_imap in Hi, Hj.
  destruct (chunks !! i) as [ci|]; [|done]. destruct (chunks !! j) as [cj|]; [|done].
  simpl in Hi, Hj. rewrite <- Hj in Hi. injection Hi as Hi.
  unfold _generate_hierarchical_id in Hi.
  set (ai := take 8 (md5_hexdigest (source (metadata ci))) ++ py "_"
             ++ (if truthy (corrected_section ci)
                 then lower (replace_char " " "_" (corrected_section ci))
                 else py "unknown")) in Hi.
  set (aj := take 8 (md5_hexdigest (source (metadata cj))) ++ py "_"
             ++ (if truthy (corrected_section cj)
                 then lower (replace_char " " "_" (corrected_section cj))
                 else py "unknown")) in Hi.
  assert (E : forall (a b : str) n t,
            a ++ py "_" ++ b ++ py "_" ++ fmt_04d n ++ py "_" ++ take 6 (md5_hexdigest t)
            = ((a ++ py "_" ++ b) ++ "_"%char :: fmt_04d n)
              ++ "_"%char :: take 6 (md5_hexdigest t)).
  { intros a b n t. by rewrite <- !app_assoc. }
  rewrite !E in Hi.
  apply app_inj_2 in Hi as [Hi _].
  2:{ simpl. rewrite !length_take, !Hlen. done. }
  apply last_field_inj in Hi.
  - by apply fmt_04d_inj.
  - apply digits_no_underscore, fmt_04d_digits.
  - apply digits_no_underscore, fmt_04d_digits.
Qed.

End Ids.

Lemma X23_hierarchical_ids_are_pairwise_distinct_witness :
  NoDup (id <$> enrich (fun _ => py "d41d8cd98f00b204e9800998ecf8427e") default_config
                  [Samples.chunk150; Samples.chunk150] None).
Proof.
  apply (X23_hierarchical_ids_are_pairwise_distinct
           (fun _ => py "d41d8cd98f00b204e9800998ecf8427e") default_config
           [Samples.chunk150; Samples.chunk150] None).
  - reflexivity.
  - intros s. reflexivity.
Defined.

(** *** Labels through the pipeline *)

Lemma first_heading_known (lines : list str) (name : str) :
  first_heading lines = Some name -> name ∈ SECTION_PATTERNS.*1.
Proof.
  induction lines as [|line lines IH]; simpl; [done|].
  destruct (heading_of (strip line)) as [n|] eqn:E; [|done].
  intros [= <-]. by eapply ChunkerMore.heading_of_known.
Qed.

Lemma detect_section_known (text name : str) :
  _detect_section text = Some name -> name ∈ SECTION_PATTERNS.*1.
Proof.
  unfold _detect_section.
  destruct (first_heading (take 5 (split text nl))) as [n|] eqn:E.
  { intros [= <-]. by eapply first_heading_known. }
  repeat (match goal with |- context [if ?b then _ else _] => destruct b end;
          [intros [= <-]; apply (bool_decide_unpack _); vm_compute; exact I|]).
  done.
Qed.

Lemma corrected_section_known (c : Chunk) :
  section (metadata c) ∈ ChunkerSpec.chunk_labels ->
  corrected_section c ∈ ChunkerSpec.chunk_labels.
Proof.
  intros H. unfold corrected_section.
  destruct (negb _ || _); [|done].
  destruct (_detect_section (text c)) as [name|] eqn:E; [|done]. simpl.
  apply detect_section_known in E. unfold ChunkerSpec.chunk_labels.
  by do 2 apply list_elem_of_further.
Qed.

Section Pipeline.

Variable md5_hexdigest : str -> str.
Variable config : EnricherConfig.

Lemma enrich_sections (chunks : list Chunk) (pdf_metadata : option PdfMetadata) :
  Forall2 (fun c c' => section (metadata c') = corrected_section c)
          chunks (enrich md5_hexdigest config chunks pdf_metadata).
Proof.
  unfold enrich. destruct chunks as [|c0 chunks']; [constructor|].
  change (negb (truthy (c0 :: chunks'))) with false. cbv iota.
  set (chunks := c0 :: chunks').
  set (enriched := imap (fun i chunk =>
                           _enrich_chunk md5_hexdigest config chunk i (length chunks)
                             pdf_metadata) chunks).
  assert (He : Forall2 (fun c c' => section (metadata c') = corrected_section c)
                       chunks enriched).
  { apply Forall2_same_length_lookup. split; [by unfold enriched; rewrite length_imap|].
    intros i c c' Hc Hc'. unfold enriched in Hc'. rewrite list_lookup_imap, Hc in Hc'.
    injection Hc' as <-. apply enrich_chunk_section. }
  destruct (hierarchical_ids config); [|done].
  unfold _assign_parent_relationships.
  pose proof (assign_loop_frame ∅ enriched) as Ha.
  apply Forall2_same_length_lookup. split.
  { rewrite <- (Forall2_length _ _ _ Ha). by eapply Forall2_length. }
  intros i c c'' Hc Hc''.
  destruct (Forall2_lookup_l _ _ _ _ _ He Hc) as (c' & Hc' & Hs).
  destruct (Forall2_lookup_l _ _ _ _ _ Ha Hc') as (c2 & Hc2 & _ & _ & parent & Hmeta).
  rewrite Hc'' in Hc2. injection Hc2 as <-. by rewrite Hmeta.
Qed.

(** X29. Chunking a text and enriching the chunks keeps the labels within
    the nine known ones: where the enricher replaces a [body] label, by a
    heading among the first five lines of the chunk or by a keyword of its
    text, the new label is a key of [SECTION_PATTERNS]. The enricher returns
    as many chunks as the chunker. *)
Theorem X29_enriched_chunks_keep_known_labels
    (chunk_config : ChunkConfig) (rnd : nat -> str) (text source : str)
    (pdf_metadata : option PdfMetadata) :
  match chunk chunk_config rnd text source with
  | Ok chunks =>
      length (enrich md5_hexdigest config chunks pdf_metadata) = length chunks /\
      Forall (fun c => section (metadata c) ∈ ChunkerSpec.chunk_labels)
             (enrich md5_hexdigest config chunks pdf_metadata)
  | Raise e => e = ValueError /\ chunk_size chunk_config = 0%Z
  end.
Proof.
  pose proof (ChunkerIds.chunk_sections_known chunk_config rnd text source) as H.
  destruct (chunk chunk_config rnd text source) as [chunks|e]; [|done].
  destruct H as [H _]. pose proof (enrich_sections chunks pdf_metadata) as He.
  split; [symmetry; by eapply Forall2_length|].
  apply Forall_forall. intros c' Hc'. apply list_elem_of_lookup in Hc' as [i Hi].
  destruct (Forall2_lookup_r _ _ _ _ _ He Hi) as (c & Hc & ->).
  apply corrected_section_known. rewrite Forall_forall in H. apply H.
  by eapply list_elem_of_lookup_2.
Qed.

End Pipeline.

End EnricherMore.


Module TaggingFacts.

Import PyFacts Chunking Enricher Tagging.

(** A response with a line of prose, two tag lines and a line that is not
    one (a space in front of the colon). *)
Example parse_tags_sample :
  (fun i => _parse_tags_response
     (py "Here are the tags:" ++ nl ++ py "Chunk 0: deep learning, vision " ++ nl
      ++ py "chunk  2 :x" ++ nl ++ py "CHUNK 1:a,,b") 3 !! i) <$> [0; 1; 2; 3]%Z
  = [Some [py "deep learning"; py "vision"]; Some [py "a"; py ""; py "b"]; Some []; None].
Proof. vm_compute. reflexivity. Qed.

(** *** Groups do not change what a pattern matches *)

Lemma run_erase (r : regex) :
  forall (s s' : pos) (k k' : pos -> option pos),
  same_place s s' ->
  (forall a a', same_place a a' -> same_outcome (k a) (k' a')) ->
  same_outcome (run r s k) (run (erase r) s' k').
Proof.
  induction r as [|p|r1 IH1 r2 IH2|r1 IH1 r2 IH2|r IH|r IH| | |];
    intros s s' k k' Hs Hk; simpl.
  - by apply Hk.
  - destruct Hs as [Hb Hr]. rewrite <- Hr. destruct (rest s) as [|c t]; [done|].
    destruct (p c); [|done]. by apply Hk.
  - apply IH1; [done|]. intros a a' Ha. by apply IH2.
  - pose proof (IH1 s s' k k' Hs Hk) as H1.
    destruct (run r1 s k), (run (erase r1) s' k'); try done.
    by apply IH2.
  - assert (Hlen : length (rest s) = length (rest s')) by (by destruct Hs as [_ ->]).
    rewrite <- Hlen. generalize (length (rest s)). intros n. clear Hlen.
    revert s s' Hs. induction n as [|n IHn]; intros s s' Hs; simpl; [exact (Hk _ _ Hs)|].
    match goal with
    | |- same_outcome (match ?x with _ => _ end) (match ?y with _ => _ end) =>
        assert (H1 : same_outcome x y)
    end.
    { apply IH; [done|]. intros a a' Ha.
      assert (Hl : length (rest a) = length (rest a')) by (by destruct Ha as [_ ->]).
      assert (Hl' : length (rest s) = length (rest s')) by (by destruct Hs as [_ ->]).
      rewrite <- Hl, <- Hl'. destruct (length (rest a) <? length (rest s))%nat; [|done].
      by apply IHn. }
    match goal with
    | |- same_outcome (match ?x with _ => _ end) (match ?y with _ => _ end) =>
        destruct x, y; try done
    end.
    by apply Hk.
  - apply IH; [done|]. intros a a' Ha. apply Hk. by destruct Ha.
  - pose proof Hs as [Hb Hr]. rewrite <- Hb. destruct (before s) as [c|]; [|by apply Hk].
    destruct (is_nl c); [by apply Hk|done].
  - pose proof Hs as [Hb Hr]. rewrite <- Hr. destruct (rest s) as [|c t]; [by apply Hk|].
    destruct (is_nl c); [by apply Hk|done].
  - pose proof Hs as [Hb Hr]. rewrite <- Hb, <- Hr.
    destruct (xorb _ _); [by apply Hk|done].
Qed.

(** The two patterns of a tag line match the same lines. *)
Lemma tag_line_patterns_agree (line : str) :
  is_Some (re_match tag_line_index line) <-> is_Some (re_match tag_line_tags line).
Proof.
  unfold re_match.
  assert (Hk : forall a a', same_place a a' -> same_outcome (Some a) (Some a')) by done.
  pose proof (run_erase tag_line_index (Pos None line None) (Pos None line None)
                Some Some ltac:(done) Hk) as H1.
  pose proof (run_erase tag_line_tags (Pos None line None) (Pos None line None)
                Some Some ltac:(done) Hk) as H2.
  change (erase tag_line_tags) with (erase tag_line_index) in H2.
  destruct (run tag_line_index _ _), (run tag_line_tags _ _),
    (run (erase tag_line_index) _ _); try done; split; by eexists.
Qed.

(** *** [strip] *)

Lemma lstrip_idemp (s : str) : lstrip (lstrip s) = lstrip s.
Proof.
  induction s as [|c s IH]; simpl; [done|].
  destruct (isspace c) eqn:E; [done|]. simpl. by rewrite E.
Qed.

Lemma lstrip_snoc (s : str) (c : ascii) :
  isspace c = false -> lstrip (s ++ [c]) = lstrip s ++ [c].
Proof.
  intros Hc. induction s as [|d s IH]; simpl; [by rewrite Hc|].
  by destruct (isspace d).
Qed.

Lemma lstrip_rstrip (s : str) : lstrip s = s -> lstrip (rstrip s) = rstrip s.
Proof.
  destruct s as [|c s]; [done|]. intros H.
  assert (Hc : isspace c = false).
  { destruct (isspace c) eqn:E; [|done]. simpl in H. rewrite E in H.
    pose proof (lstrip_length s) as Hl. rewrite H in Hl. simpl in Hl. lia. }
  unfold rstrip. simpl. rewrite lstrip_snoc by done.
  rewrite rev_app_distr. simpl. by rewrite Hc.
Qed.

Lemma rstrip_idemp (s : str) : rstrip (rstrip s) = rstrip s.
Proof. unfold rstrip. by rewrite rev_involutive, lstrip_idemp. Qed.

(** [s.strip().strip() == s.strip()]. *)
Lemma strip_idemp (s : str) : strip (strip s) = strip s.
Proof.
  unfold strip. rewrite (lstrip_rstrip (lstrip s)) by apply lstrip_idemp.
  apply rstrip_idemp.
Qed.

Lemma lstrip_elem (s : str) (c : ascii) : c ∈ lstrip s -> c ∈ s.
Proof.
  induction s as [|d s IH]; simpl; [done|].
  destruct (isspace d); [|done]. intros H. by apply list_elem_of_further, IH.
Qed.

Lemma strip_elem (s : str) (c : ascii) : c ∈ strip s -> c ∈ s.
Proof.
  unfold strip, rstrip. intros H. apply lstrip_elem.
  apply list_elem_of_In, in_rev, list_elem_of_In in H.
  apply lstrip_elem in H. by apply list_elem_of_In, in_rev, list_elem_of_In in H.
Qed.

Lemma contains_char (s : str) (c : ascii) : c ∈ s -> contains s [c] = true.
Proof.
  intros H. apply list_elem_of_split in H as (a & b & ->).
  apply contains_spec. by exists a, b.
Qed.

(** *** [_parse_tags_response] *)

Lemma read_lines_app (l1 l2 : list str) (m : gmap Z (list str)) :
  read_lines (l1 ++ l2) m = read_lines l2 (read_lines l1 m).
Proof. apply fold_left_app. Qed.

Lemma read_lines_skip (lines : list str) (m : gmap Z (list str)) (idx : Z) :
  Forall (fun l => forall t, parse_line l <> Some (idx, t)) lines ->
  read_lines lines m !! idx = m !! idx.
Proof.
  intros H. revert m. induction H as [|l lines Hl _ IH]; intros m; [done|].
  unfold read_lines in *. simpl. rewrite IH.
  destruct (parse_line l) as [[i t]|] eqn:E; [|done].
  rewrite lookup_insert_ne; [done|]. intros ->. by apply (Hl t).
Qed.

Lemma read_lines_origin (lines : list str) (m : gmap Z (list str)) (idx : Z)
    (tags : list str) :
  read_lines lines m !! idx = Some tags ->
  m !! idx = Some tags \/
  exists line, line ∈ lines /\ parse_line line = Some (idx, tags).
Proof.
  revert m. induction lines as [|l lines IH]; intros m; [by left|].
  unfold read_lines in *. simpl. intros H. apply IH in H as [H|[line [Hin Hp]]].
  - destruct (parse_line l) as [[i t]|] eqn:E; [|by left].
    destruct (decide (i = idx)) as [->|Hne].
    + rewrite lookup_insert_eq in H. injection H as ->. right. exists l.
      split; [apply list_elem_of_here|done].
    + rewrite lookup_insert_ne in H by done. by left.
  - right. exists line. split; [by apply list_elem_of_further|done].
Qed.

Lemma fill_missing_lookup (n : nat) (m : gmap Z (list str)) (idx : Z) :
  fill_missing n m !! idx
  = match m !! idx with
    | Some tags => Some tags
    | None => if bool_decide (0 <= idx < Z.of_nat n)%Z then Some [] else None
    end.
Proof.
  unfold fill_missing. revert idx. induction n as [|n IH]; intros idx.
  - simpl. destruct (m !! idx); [done|]. by rewrite bool_decide_eq_false_2 by lia.
  - rewrite seq_S, fold_left_app. simpl.
    set (m' := fold_left _ (seq 0 n) m) in *.
    destruct (m' !! Z.of_nat n) as [t|] eqn:En.
    + rewrite IH. destruct (m !! idx) as [tags|] eqn:Em; [done|].
      destruct (decide (idx = Z.of_nat n)) as [->|Hne].
      * rewrite IH, Em in En. case_bool_decide; [lia|done].
      * repeat case_bool_decide; try done; lia.
    + destruct (decide (idx = Z.of_nat n)) as [->|Hne].
      * rewrite lookup_insert_eq. rewrite IH in En.
        destruct (m !! Z.of_nat n); [done|]. by rewrite bool_decide_eq_true_2 by lia.
      * rewrite lookup_insert_ne by done. rewrite IH.
        destruct (m !! idx); [done|]. repeat case_bool_decide; try done; lia.
Qed.

Lemma comma_nonempty : py "," <> [].
Proof. discriminate. Qed.

Lemma parse_line_shape (line : str) (idx : Z) (tags : list str) :
  parse_line line = Some (idx, tags) ->
  (0 <= idx)%Z /\ tags <> [] /\
  Forall (fun t => strip t = t /\ ","%char ∉ t) tags.
Proof.
  unfold parse_line.
  destruct (re_match tag_line_index line) as [m1|]; [|done].
  destruct (re_match tag_line_tags line) as [m2|]; [|done].
  intros [= <- <-]. split; [apply EnricherMore.int_of_digits_nonneg|]. split.
  - pose proof (split_go_nonempty (py ",") 0 (default [] (group1 m2))) as H.
    unfold split. by destruct (split_go _ _ _).
  - apply Forall_forall. intros t Ht.
    apply list_elem_of_In, in_map_iff in Ht as [part [<- Hpart]].
    apply list_elem_of_In in Hpart. split; [apply strip_idemp|].
    intros Hc. apply strip_elem in Hc.
    apply (split_parts (py ",") comma_nonempty) in Hpart as [_ Hno].
    apply contains_char in Hc. change [","%char] with (py ",") in Hc. congruence.
Qed.

(** X24. The mapping [_parse_tags_response] returns has an entry for every
    chunk index below [num_chunks]. An entry is the tag list of the last
    line [Chunk i: ...] of the response that names its index, and the empty
    list when no line does. The tags of a line are never an empty list, are
    stripped of white space at both ends and contain no comma. A line gives
    tags exactly when the pattern of the source matches it. *)
Theorem X24_parsed_tags_cover_every_chunk (response : str) (num_chunks : nat) :
  (forall i, (i < num_chunks)%nat ->
     is_Some (_parse_tags_response response num_chunks !! Z.of_nat i)) /\
  (forall idx tags, _parse_tags_response response num_chunks !! idx = Some tags ->
     (tags = [] /\ (0 <= idx < Z.of_nat num_chunks)%Z /\
      Forall (fun l => forall t, parse_line l <> Some (idx, t)) (split response nl)) \/
     (exists line, line ∈ split response nl /\ parse_line line = Some (idx, tags))) /\
  (forall before line after idx tags,
     split response nl = before ++ line :: after ->
     parse_line line = Some (idx, tags) ->
     Forall (fun l => forall t, parse_line l <> Some (idx, t)) after ->
     _parse_tags_response response num_chunks !! idx = Some tags) /\
  (forall line idx tags, parse_line line = Some (idx, tags) ->
     (0 <= idx)%Z /\ tags <> [] /\
     Forall (fun t => strip t = t /\ ","%char ∉ t) tags) /\
  (forall line, is_Some (parse_line line) <-> is_Some (re_match tag_line_index line)).
Proof.
  unfold _parse_tags_response. split; [|split; [|split; [|split]]].
  - intros i Hi. rewrite fill_missing_lookup.
    destruct (read_lines _ _ !! _); [by eexists|].
    rewrite bool_decide_eq_true_2 by lia. by eexists.
  - intros idx tags. rewrite fill_missing_lookup.
    destruct (read_lines (split response nl) ∅ !! idx) as [t|] eqn:E.
    + intros [= ->]. right. apply read_lines_origin in E as [E|E]; [|done].
      by rewrite lookup_empty in E.
    + case_bool_decide as Hr; [|done]. intros [= <-]. left.
      split; [done|]. split; [done|].
      apply Forall_forall. intros l Hl t Hp.
      apply list_elem_of_split in Hl as (l1 & l2 & Hsplit).
      rewrite Hsplit in E.
      assert (Hsome : forall later m, is_Some (read_lines (l :: later) m !! idx)).
      { clear -Hp. intros later.
        induction later as [|x later IH] using rev_ind; intros m.
        - unfold read_lines. simpl. rewrite Hp, lookup_insert_eq. by eexists.
        - rewrite app_comm_cons, read_lines_app. unfold read_lines at 1. simpl.
          destruct (parse_line x) as [[i t']|]; [|apply IH].
          destruct (decide (i = idx)) as [->|Hne].
          + rewrite lookup_insert_eq. by eexists.
          + rewrite lookup_insert_ne by done. apply IH. }
      rewrite read_lines_app in E. destruct (Hsome l2 (read_lines l1 ∅)) as [x Hx].
      congruence.
  - intros before line after idx tags Hsplit Hp Hafter.
    rewrite fill_missing_lookup, Hsplit, read_lines_app.
    unfold read_lines at 1. simpl. rewrite Hp.
    fold (read_lines after (<[idx := tags]> (read_lines before ∅))).
    rewrite read_lines_skip by done. by rewrite lookup_insert_eq.
  - apply parse_line_shape.
  - intros line. pose proof (tag_line_patterns_agree line) as H. unfold parse_line.
    destruct (re_match tag_line_index line) as [m1|].
    + destruct (proj1 H ltac:(by eexists)) as [m2 ->]. split; by eexists.
    + split; by intros [? ?].
Qed.

(** *** [_tag_batch] and [enrich_with_semantic_tags] *)

Lemma no_tags_lookup (n : nat) (i : Z) : default [] (no_tags n !! i) = [].
Proof.
  destruct (no_tags n !! i) as [t|] eqn:E; [|done]. simpl.
  unfold no_tags in E. apply elem_of_list_to_map_2 in E.
  apply list_elem_of_fmap in E as [j [[= _ ->] _]]. done.
Qed.

Lemma take_add_drop {A} (l : list A) (a b : nat) :
  take (a + b) l = take a l ++ take b (drop a l).
Proof.
  revert l. induction a as [|a IH]; intros l; simpl; [by rewrite drop_0|].
  destruct l as [|x l]; simpl; [by rewrite take_nil|]. by rewrite IH.
Qed.

Section Tags.

Variable config : EnricherConfig.
Variable llm_client : option (nat -> str -> exc str).

(** A chunk and its tagged copy. *)
Lemma tag_batch_frame (n : nat) (chunks : list Chunk) :
  exists out,
    _tag_batch llm_client n chunks = Ok out /\
    Forall2 (fun c c' => id c' = id c /\ text c' = text c /\
                         exists tags, metadata c' = with_tags (metadata c) tags)
            chunks out /\
    (forall generate, llm_client = Some generate ->
       (forall k prompt, exists e, generate k prompt = Raise e) ->
       Forall2 (fun c c' => c' = {| id := id c; text := text c;
                                    metadata := with_tags (metadata c) [] |})
               chunks out).
Proof.
  unfold _tag_batch. destruct llm_client as [generate|].
  2:{ exists chunks. split; [done|]. split; [|done].
      apply Forall2_same_length_lookup. split; [done|].
      intros i c c' Hc Hc'. rewrite Hc in Hc'. injection Hc' as <-.
      split; [done|]. split; [done|]. exists (semantic_tags (metadata c)).
      by destruct (metadata c). }
  set (tags_map := try_except _ _).
  assert (Hm : exists m, tags_map = Ok m /\
            ((forall k prompt, exists e, generate k prompt = Raise e) ->
             m = no_tags (length chunks))).
  { unfold tags_map. destruct (generate n (_build_tagging_prompt chunks)) as [r|e] eqn:E;
      simpl; eexists; (split; [done|]); [|done].
    intros Hall. destruct (Hall n (_build_tagging_prompt chunks)) as [e He]. congruence. }
  destruct Hm as [m [-> Hraise]]. simpl. eexists. split; [done|]. split.
  - apply Forall2_same_length_lookup. split; [by rewrite length_imap|].
    intros i c c' Hc Hc'. rewrite list_lookup_imap, Hc in Hc'. injection Hc' as <-.
    simpl. split; [done|]. split; [done|]. by eexists.
  - intros g [= <-] Hall. rewrite (Hraise Hall).
    apply Forall2_same_length_lookup. split; [by rewrite length_imap|].
    intros i c c' Hc Hc'. rewrite list_lookup_imap, Hc in Hc'. injection Hc' as <-.
    simpl. by rewrite no_tags_lookup.
Qed.

Lemma tag_batches_frame (chunks : list Chunk) (batch_size : Z) (k : nat) :
  (1 <= batch_size)%Z ->
  forall (s n : nat),
  exists out,
    tag_batches llm_client chunks batch_size n
      ((fun j => (Z.of_nat j * batch_size)%Z) <$> seq s k) = Ok out /\
    Forall2 (fun c c' => id c' = id c /\ text c' = text c /\
                         exists tags, metadata c' = with_tags (metadata c) tags)
            (take (k * Z.to_nat batch_size) (drop (s * Z.to_nat batch_size) chunks)) out /\
    (forall generate, llm_client = Some generate ->
       (forall k prompt, exists e, generate k prompt = Raise e) ->
       Forall2 (fun c c' => c' = {| id := id c; text := text c;
                                    metadata := with_tags (metadata c) [] |})
               (take (k * Z.to_nat batch_size) (drop (s * Z.to_nat batch_size) chunks))
               out).
Proof.
  intros Hb. induction k as [|k IH]; intros s n.
  - exists []. simpl. split; [done|]. split; [constructor|]. intros; constructor.
  - cbn [seq fmap list_fmap tag_batches].
    assert (Hslice : slice_list chunks (Z.to_nat (Z.of_nat s * batch_size))
                       (Z.to_nat (Z.of_nat s * batch_size + batch_size))
                     = take (Z.to_nat batch_size) (drop (s * Z.to_nat batch_size) chunks)).
    { unfold slice_list. f_equal; [|f_equal]; nia. }
    rewrite Hslice.
    destruct (tag_batch_frame n
                (take (Z.to_nat batch_size) (drop (s * Z.to_nat batch_size) chunks)))
      as (tagged & -> & Ht & Ht').
    destruct (IH (S s) (S n)) as (out & Hout & Ho & Ho').
    change (list_fmap nat Z (fun j => (Z.of_nat j * batch_size)%Z) (seq (S s) k))
      with ((fun j => (Z.of_nat j * batch_size)%Z) <$> seq (S s) k).
    cbn [bind]. rewrite Hout. cbn [bind]. eexists. split; [done|].
    assert (Hsplit : take (S k * Z.to_nat batch_size) (drop (s * Z.to_nat batch_size) chunks)
                     = take (Z.to_nat batch_size) (drop (s * Z.to_nat batch_size) chunks)
                       ++ take (k * Z.to_nat batch_size)
                            (drop (S s * Z.to_nat batch_size) chunks)).
    { replace (S k * Z.to_nat batch_size)%nat
        with (Z.to_nat batch_size + k * Z.to_nat batch_size)%nat by lia.
      rewrite take_add_drop, drop_drop. do 3 f_equal. lia. }
    rewrite Hsplit. split; [by apply Forall2_app|].
    intros g Hg Hall. apply Forall2_app; [by eapply Ht'|by eapply Ho'].
Qed.

(** X25. [enrich_with_semantic_tags] returns its input when tagging is off
    or there is no collaborator. Otherwise, for a batch size of at least 1,
    it returns (whatever the collaborator does) as many chunks, in the same
    order, each with the identifier, text and metadata of the input chunk
    but for the tags; every chunk has the empty tag list when every call of
    the collaborator fails. A batch size of 0 raises [ValueError], and a
    negative one returns no chunk at all. *)
Theorem X25_semantic_tagging_keeps_the_chunks (chunks : list Chunk) (batch_size : Z) :
  (semantic_tagging config = false \/ llm_client = None ->
   enrich_with_semantic_tags config llm_client chunks batch_size = Ok chunks) /\
  (semantic_tagging config = true -> llm_client <> None ->
   ((1 <= batch_size)%Z ->
    exists out,
      enrich_with_semantic_tags config llm_client chunks batch_size = Ok out /\
      Forall2 (fun c c' => id c' = id c /\ text c' = text c /\
                           exists tags, metadata c' = with_tags (metadata c) tags)
              chunks out /\
      (forall generate, llm_client = Some generate ->
         (forall k prompt, exists e, generate k prompt = Raise e) ->
         Forall2 (fun c c' => c' = {| id := id c; text := text c;
                                      metadata := with_tags (metadata c) [] |})
                 chunks out)) /\
   (batch_size = 0%Z ->
    enrich_with_semantic_tags config llm_client chunks batch_size = Raise ValueError) /\
   ((batch_size < 0)%Z ->
    enrich_with_semantic_tags config llm_client chunks batch_size = Ok [])).
Proof.
  unfold enrich_with_semantic_tags. split.
  - intros [-> | ->]; [done|]. by rewrite orb_true_r.
  - intros -> Hc.
    assert (Hsome : bool_decide (is_Some llm_client) = true).
    { apply bool_decide_eq_true. by destruct llm_client; [eexists|]. }
    rewrite Hsome. cbn [negb orb]. unfold range0. split; [|split].
    + intros Hb. rewrite (proj2 (Z.eqb_neq _ _)) by lia.
      rewrite (proj2 (Z.ltb_ge _ _)) by lia. cbn [bind].
      set (k := Z.to_nat ((len chunks + batch_size - 1) / batch_size)).
      destruct (tag_batches_frame chunks batch_size k Hb 0 0) as (out & Hout & Ho & Ho').
      change (map (fun j => (Z.of_nat j * batch_size)%Z) (seq 0 k))
        with ((fun j => (Z.of_nat j * batch_size)%Z) <$> seq 0 k).
      rewrite Hout. exists out. split; [done|].
      assert (Hall : take (k * Z.to_nat batch_size) (drop (0 * Z.to_nat batch_size) chunks)
                     = chunks).
      { simpl. rewrite drop_0. apply take_ge. unfold k, len.
        assert (Z.of_nat (length chunks)
                <= (Z.of_nat (length chunks) + batch_size - 1) / batch_size * batch_size)%Z.
        { pose proof (Z.mod_pos_bound (Z.of_nat (length chunks) + batch_size - 1)
                        batch_size ltac:(lia)).
          pose proof (Z.div_mod (Z.of_nat (length chunks) + batch_size - 1)
                        batch_size ltac:(lia)). nia. }
        assert (0 <= (Z.of_nat (length chunks) + batch_size - 1) / batch_size)%Z
          by (apply Z.div_pos; lia).
        nia. }
      rewrite Hall in Ho, Ho'. done.
    + intros ->. done.
    + intros Hb. rewrite (proj2 (Z.eqb_neq _ _)) by lia.
      by rewrite (proj2 (Z.ltb_lt _ _)) by lia.
Qed.

End Tags.

End TaggingFacts.


(** ** The overlap manager *)

Module OverlapManagerFacts.

Import PyFacts Chunking OverlapManager.

Example overlap_content_at_a_word_boundary :
  _get_overlap_content (py "the quick brown fox jumps") 12 true = py "fox jumps" /\
  _get_overlap_content (py "the quick brown fox jumps") 12 false = py "the quick" /\
  _get_overlap_content (py "the quick brown fox jumps") 5 true = py "jumps" /\
  _get_overlap_content (py "the quick brown fox jumps") 0 true = py "".
Proof. vm_compute. repeat split. Qed.

Local Open Scope Z_scope.

(** *** The size of an overlap *)

Lemma py_int_nonneg (x : Q) : (0 <= x)%Q -> 0 <= py_int x.
Proof.
  unfold Qle, py_int. simpl. intros H. apply Z.quot_pos; lia.
Qed.

Section Manager.

Variable config : OverlapConfig.

Lemma overlap_size_le_half (text_a text_b : str) (overlap_percent : Z) :
  _calculate_overlap_size config text_a text_b overlap_percent
    <= Z.min (len text_a) (len text_b) / 2.
Proof. unfold _calculate_overlap_size. lia. Qed.

(** X26. The size [_calculate_overlap_size] gives never exceeds half the
    length of the shorter text (rounded down) nor [max_overlap_chars], and
    does not depend on the order of the two texts. It is not negative when
    [max_overlap_chars] is not and one of [min_overlap_chars] and the
    percentage is not; it is exactly half the shorter text when both bounds
    of the configuration are at least that half. [calculate_overlap] is the
    same size for the texts of two chunks and the configured percentage. *)
Theorem X26_overlap_size_is_at_most_half_the_shorter_text
    (text_a text_b : str) (overlap_percent : Z) :
  _calculate_overlap_size config text_a text_b overlap_percent
    <= Z.min (len text_a) (len text_b) / 2 /\
  _calculate_overlap_size config text_a text_b overlap_percent <= max_overlap_chars config /\
  _calculate_overlap_size config text_b text_a overlap_percent
    = _calculate_overlap_size config text_a text_b overlap_percent /\
  (0 <= max_overlap_chars config ->
   0 <= min_overlap_chars config \/ 0 <= overlap_percent ->
   0 <= _calculate_overlap_size config text_a text_b overlap_percent) /\
  (Z.min (len text_a) (len text_b) / 2 <= min_overlap_chars config ->
   Z.min (len text_a) (len text_b) / 2 <= max_overlap_chars config ->
   _calculate_overlap_size config text_a text_b overlap_percent
   = Z.min (len text_a) (len text_b) / 2) /\
  (forall chunk_a chunk_b,
     calculate_overlap config chunk_a chunk_b
     = _calculate_overlap_size config (text chunk_a) (text chunk_b)
         (OverlapManager.overlap_percent config)).
Proof.
  unfold _calculate_overlap_size.
  set (raw := py_int (inject_Z (len text_a + len text_b) / 2
                      * inject_Z overlap_percent / 100)%Q).
  pose proof (len_nonneg text_a) as Ha. pose proof (len_nonneg text_b) as Hb.
  assert (Hhalf : 0 <= Z.min (len text_a) (len text_b) / 2) by (apply Z.div_pos; lia).
  split; [lia|]. split; [lia|]. split.
  { by rewrite (Z.add_comm (len text_b)), (Z.min_comm (len text_b)). }
  split; [|split; [lia|done]].
  intros Hmax [Hmin|Hpct]; [lia|].
  assert (0 <= raw); [|lia].
  apply py_int_nonneg.
  assert (H1 : (0 <= inject_Z (len text_a + len text_b))%Q).
  { change 0%Q with (inject_Z 0). rewrite <- Zle_Qle. lia. }
  assert (H2 : (0 <= inject_Z overlap_percent)%Q).
  { change 0%Q with (inject_Z 0). by rewrite <- Zle_Qle. }
  apply Qle_shift_div_l; [done|]. rewrite Qmult_0_l.
  apply Qmult_le_0_compat; [|done].
  apply Qle_shift_div_l; [done|]. by rewrite Qmult_0_l.
Qed.

(** *** The text of an overlap *)

Lemma find_from_spec (c : ascii) (s : str) (i : Z) :
  find_from c s i = -1 \/
  exists a b, s = a ++ c :: b /\ find_from c s i = i + len a /\ c ∉ a.
Proof.
  revert i. induction s as [|d s IH]; intros i; simpl; [by left|].
  destruct (Ascii.eqb d c) eqn:E.
  - apply Ascii.eqb_eq in E as ->. right. exists [], s.
    split; [done|]. split; [unfold len; simpl; lia|apply not_elem_of_nil].
  - apply Ascii.eqb_neq in E. destruct (IH (i + 1)) as [H|(a & b & -> & H & Hn)]; [by left|].
    right. exists (d :: a), b. split; [done|]. split.
    + rewrite H. unfold len. simpl. lia.
    + intros [?|?]%elem_of_cons; [congruence|done].
Qed.

Lemma rfind_from_spec (c : ascii) (s : str) (i : Z) :
  0 <= i ->
  (rfind_from c s i = -1 /\ c ∉ s) \/
  exists a b, s = a ++ c :: b /\ rfind_from c s i = i + len a /\ c ∉ b.
Proof.
  revert i. induction s as [|d s IH]; intros i Hi; simpl.
  { left. split; [done|apply not_elem_of_nil]. }
  destruct (IH (i + 1) ltac:(lia)) as [[H Hn]|(a & b & -> & H & Hn)].
  - rewrite H. simpl. destruct (Ascii.eqb d c) eqn:E.
    + apply Ascii.eqb_eq in E as ->. right. exists [], s.
      split; [done|]. split; [unfold len; simpl; lia|done].
    + apply Ascii.eqb_neq in E. left. split; [done|].
      intros [?|?]%elem_of_cons; [congruence|done].
  - right. exists (d :: a), b. split; [done|]. split; [|done].
    rewrite H. pose proof (len_nonneg a).
    rewrite (proj2 (Z.eqb_neq _ _)) by lia. unfold len. simpl. lia.
Qed.

Lemma slice_from_neg_suffix (text : str) (size : Z) :
  0 < size ->
  (exists front, text = front ++ slice_from text (- size)) /\
  len (slice_from text (- size)) = Z.min size (len text).
Proof.
  intros Hs. unfold slice_from. rewrite (proj2 (Z.ltb_lt _ _)) by lia. split.
  - eexists. by rewrite take_drop.
  - unfold len. rewrite length_drop. lia.
Qed.

Lemma overlap_content_from_end (text : str) (size : Z) :
  0 < size ->
  (exists front, text = front ++ _get_overlap_content text size true) /\
  len (_get_overlap_content text size true) <= Z.min size (len text) /\
  Z.min size (len text) <= 2 * len (_get_overlap_content text size true) /\
  (_get_overlap_content text size true = slice_from text (- size) \/
   exists front, text = front ++ " "%char :: _get_overlap_content text size true).
Proof.
  intros Hs. unfold _get_overlap_content. rewrite (proj2 (Z.leb_gt _ _)) by lia.
  destruct (slice_from_neg_suffix text size Hs) as [[front Hfront] Hlen].
  set (raw := slice_from text (- size)) in *.
  pose proof (len_nonneg text) as Htext.
  destruct ((0 <? find raw " ") && (find raw " " <? len raw / 2)) eqn:E.
  2:{ split; [by exists front|]. split; [lia|]. split; [lia|by left]. }
  apply andb_true_iff in E as [E1 E2]. apply Z.ltb_lt in E1, E2.
  destruct (find_from_spec " " raw 0) as [H|(a & b & Hraw & Hidx & _)].
  { unfold find in E1. lia. }
  fold (find raw " ") in Hidx. rewrite Hidx in *. simpl in E1, E2.
  assert (Hres : slice_from raw (0 + len a + 1) = b).
  { unfold slice_from. pose proof (len_nonneg a).
    rewrite (proj2 (Z.ltb_ge _ _)) by lia. rewrite Hraw.
    replace (Z.to_nat (0 + len a + 1)) with (length a + 1)%nat by (unfold len; lia).
    rewrite <- drop_drop, drop_app_length. done. }
  rewrite Hres.
  assert (Hl : len raw = len a + 1 + len b).
  { rewrite Hraw. unfold len. rewrite length_app. simpl. lia. }
  pose proof (len_nonneg b).
  assert (2 * (len raw / 2) <= len raw) by (apply Z.mul_div_le; lia).
  split; [|split; [lia|split; [lia|right]]].
  - exists (front ++ a ++ [" "%char]). rewrite Hfront, Hraw. by rewrite <- !app_assoc.
  - exists (front ++ a). rewrite Hfront, Hraw. by rewrite <- app_assoc.
Qed.

Lemma overlap_content_from_start (text : str) (size : Z) :
  0 < size ->
  (exists back, text = _get_overlap_content text size false ++ back) /\
  len (_get_overlap_content text size false) <= Z.min size (len text) /\
  Z.min size (len text) <= 2 * len (_get_overlap_content text size false) /\
  (_get_overlap_content text size false = slice_to text size \/
   exists back, text = _get_overlap_content text size false ++ " "%char :: back).
Proof.
  intros Hs. unfold _get_overlap_content. rewrite (proj2 (Z.leb_gt _ _)) by lia.
  assert (Hraw0 : slice_to text size = take (Z.to_nat size) text).
  { unfold slice_to. by rewrite (proj2 (Z.ltb_ge _ _)) by lia. }
  assert (Hlen : len (slice_to text size) = Z.min size (len text)).
  { rewrite Hraw0. unfold len. rewrite length_take. lia. }
  assert (Hback : text = slice_to text size ++ drop (Z.to_nat size) text).
  { by rewrite Hraw0, take_drop. }
  set (raw := slice_to text size) in *.
  pose proof (len_nonneg text) as Htext.
  destruct (len raw / 2 <? rfind raw " ") eqn:E.
  2:{ split; [by eexists|]. split; [lia|]. split; [lia|by left]. }
  apply Z.ltb_lt in E.
  assert (0 <= len raw / 2) by (apply Z.div_pos; [apply len_nonneg|lia]).
  destruct (rfind_from_spec " " raw 0 ltac:(lia)) as [[H' _]|(a & b & Hraw & Hidx & _)].
  { unfold rfind in E. lia. }
  fold (rfind raw " ") in Hidx. rewrite Hidx in *. simpl in E.
  assert (Hres : slice_to raw (0 + len a) = a).
  { unfold slice_to. pose proof (len_nonneg a).
    rewrite (proj2 (Z.ltb_ge _ _)) by lia. rewrite Hraw.
    replace (Z.to_nat (0 + len a)) with (length a) by (unfold len; lia).
    by rewrite take_app_length. }
  rewrite Hres.
  assert (Hl : len raw = len a + 1 + len b).
  { rewrite Hraw. unfold len. rewrite length_app. simpl. lia. }
  pose proof (len_nonneg b).
  assert (len raw < 2 * (len raw / 2) + 2).
  { pose proof (Z.mod_pos_bound (len raw) 2 ltac:(lia)).
    pose proof (Z.div_mod (len raw) 2 ltac:(lia)). lia. }
  split; [|split; [lia|split; [lia|right]]].
  - exists (" "%char :: b ++ drop (Z.to_nat size) text).
    rewrite Hback at 1. rewrite Hraw. by rewrite <- app_assoc.
  - exists (b ++ drop (Z.to_nat size) text).
    rewrite Hback at 1. rewrite Hraw. by rewrite <- app_assoc.
Qed.

(** X27. [_get_overlap_content] returns the empty text for a size that is
    not positive. For a positive size it returns an end of the text (a
    suffix when taken from the end, a prefix when taken from the start) of
    at most [overlap_size] characters and at least half of what the size
    asks for; when it is shorter than that, it was cut at a space, which is
    not part of it. *)
Theorem X27_overlap_content_is_an_end_of_the_text (text : str) (overlap_size : Z) :
  (overlap_size <= 0 ->
   forall from_end, _get_overlap_content text overlap_size from_end = []) /\
  (0 < overlap_size ->
   ((exists front, text = front ++ _get_overlap_content text overlap_size true) /\
    len (_get_overlap_content text overlap_size true) <= Z.min overlap_size (len text) /\
    Z.min overlap_size (len text) <= 2 * len (_get_overlap_content text overlap_size true) /\
    (_get_overlap_content text overlap_size true = slice_from text (- overlap_size) \/
     exists front,
       text = front ++ " "%char :: _get_overlap_content text overlap_size true)) /\
   ((exists back, text = _get_overlap_content text overlap_size false ++ back) /\
    len (_get_overlap_content text overlap_size false) <= Z.min overlap_size (len text) /\
    Z.min overlap_size (len text) <= 2 * len (_get_overlap_content text overlap_size false) /\
    (_get_overlap_content text overlap_size false = slice_to text overlap_size \/
     exists back,
       text = _get_overlap_content text overlap_size false ++ " "%char :: back))).
Proof.
  split.
  - intros H from_end. unfold _get_overlap_content.
    by rewrite (proj2 (Z.leb_le _ _)) by lia.
  - intros H. split; [by apply overlap_content_from_end|by apply overlap_content_from_start].
Qed.

(** *** [apply_overlap] *)

Lemma copy_chunk_frame (c : Chunk) (p n : Z) (t : option str) :
  id (_copy_chunk_with_overlap c p n t) = id c /\
  source (metadata (_copy_chunk_with_overlap c p n t)) = source (metadata c) /\
  page (metadata (_copy_chunk_with_overlap c p n t)) = page (metadata c) /\
  section (metadata (_copy_chunk_with_overlap c p n t)) = section (metadata c) /\
  chunk_index (metadata (_copy_chunk_with_overlap c p n t)) = chunk_index (metadata c) /\
  parent_chunk_id (metadata (_copy_chunk_with_overlap c p n t))
    = parent_chunk_id (metadata c) /\
  semantic_tags (metadata (_copy_chunk_with_overlap c p n t))
    = semantic_tags (metadata c).
Proof. by repeat split. Qed.

(** X28. [apply_overlap] returns as many chunks as it is given, each with
    the identifier and the metadata of the input chunk but for the two
    overlap counts. The text of a chunk is the input text, or the input text
    behind a piece of the end of the previous text and a space; the
    [overlap_with_prev] it records is the length of that piece, 0 when
    nothing is put in front, and never more than half the length of the
    shorter of the two adjoining input texts. [overlap_with_next] is the
    overlap size of the chunk and the next one, so at most half the shorter
    of the two as well, and 0 for the last chunk. *)
Theorem X28_managed_overlap_is_at_most_half_of_either_chunk
    (chunks : list Chunk) (overlap_percent : option Z) (i : nat) (c c' : Chunk) :
  chunks !! i = Some c ->
  apply_overlap config chunks overlap_percent !! i = Some c' ->
  length (apply_overlap config chunks overlap_percent) = length chunks /\
  (id c' = id c /\
   source (metadata c') = source (metadata c) /\
   page (metadata c') = page (metadata c) /\
   section (metadata c') = section (metadata c) /\
   chunk_index (metadata c') = chunk_index (metadata c) /\
   parent_chunk_id (metadata c') = parent_chunk_id (metadata c) /\
   semantic_tags (metadata c') = semantic_tags (metadata c)) /\
  match i with
  | O => text c' = text c /\ overlap_with_prev (metadata c') = 0
  | S j =>
      exists prev,
        chunks !! j = Some prev /\
        0 <= overlap_with_prev (metadata c') /\
        2 * overlap_with_prev (metadata c')
          <= Z.min (len (text prev)) (len (text c)) /\
        ((text c' = text c /\ overlap_with_prev (metadata c') = 0) \/
         (exists piece front,
            text prev = front ++ piece /\
            text c' = rstrip piece ++ py " " ++ text c /\
            overlap_with_prev (metadata c') = len piece /\ 0 < len piece))
  end /\
  match chunks !! S i with
  | None => overlap_with_next (metadata c') = 0
  | Some next =>
      overlap_with_next (metadata c')
        = _calculate_overlap_size config (text c) (text next)
            (default (OverlapManager.overlap_percent config) overlap_percent) /\
      2 * overlap_with_next (metadata c') <= Z.min (len (text c)) (len (text next))
  end.
Proof.
  intros Hc Hc'.
  destruct chunks as [|c1 [|c2 rest]] eqn:Echunks; [done| |].
  { destruct i as [|i]; [|done]. simpl in Hc, Hc'.
    injection Hc as <-. injection Hc' as <-. by repeat split. }
  rewrite <- Echunks in *. 
  assert (Hout : apply_overlap config chunks overlap_percent
    = imap (fun i chunk =>
              let '(new_text, overlap_prev) :=
                match i with
                | O => (text chunk, 0)
                | S j =>
                    match chunks !! j with
                    | Some prev_chunk =>
                        let overlap_size :=
                          _calculate_overlap_size config (text prev_chunk) (text chunk)
                            (default (OverlapManager.overlap_percent config)
                               overlap_percent) in
                        if 0 <? overlap_size then
                          let overlap_content :=
                            _get_overlap_content (text prev_chunk) overlap_size true in
                          if negb (startswith (text chunk) (strip overlap_content))
                          then (rstrip overlap_content ++ py " " ++ text chunk,
                                len overlap_content)
                          else (text chunk, 0)
                        else (text chunk, 0)
                    | None => (text chunk, 0)
                    end
                end in
              let overlap_next :=
                if Z.of_nat i <? len chunks - 1 then
                  match chunks !! S i with
                  | Some next_chunk =>
                      _calculate_overlap_size config (text chunk) (text next_chunk)
                        (default (OverlapManager.overlap_percent config) overlap_percent)
                  | None => 0
                  end
                else 0 in
              _copy_chunk_with_overlap chunk overlap_prev overlap_next (Some new_text))
           chunks).
  { by rewrite Echunks. }
  clear Echunks. rewrite Hout in *. clear Hout.
  split; [by rewrite length_imap|].
  rewrite list_lookup_imap, Hc in Hc'. cbn [fmap option_fmap option_map] in Hc'.
  injection Hc' as <-.
  set (pct := default (OverlapManager.overlap_percent config) overlap_percent).
  assert (Hhalf : forall a b : str,
            2 * _calculate_overlap_size config a b pct <= Z.min (len a) (len b)).
  { intros a b.
    pose proof (overlap_size_le_half a b pct) as Hb.
    pose proof (Z.mul_div_le (Z.min (len a) (len b)) 2 ltac:(lia)). lia. }
  split; [|split].
  - destruct (match i with O => _ | S _ => _ end) as [new_text overlap_prev].
    apply copy_chunk_frame.
  - destruct i as [|j]; [done|].
    destruct (chunks !! j) as [prev|] eqn:Ej.
    2:{ apply lookup_lt_Some in Hc. apply lookup_ge_None in Ej. lia. }
    exists prev. split; [done|].
    pose proof (len_nonneg (text prev)). pose proof (len_nonneg (text c)).
    destruct (0 <? _calculate_overlap_size config (text prev) (text c) pct) eqn:Epos.
    2:{ cbn. split; [lia|]. split; [lia|by left]. }
    apply Z.ltb_lt in Epos.
    destruct (overlap_content_from_end (text prev) _ Epos) as ([front Hf] & Hle & Hge & _).
    set (piece := _get_overlap_content (text prev)
                    (_calculate_overlap_size config (text prev) (text c) pct) true) in *.
    pose proof (Hhalf (text prev) (text c)).
    destruct (negb (startswith (text c) (strip piece))).
    + cbn. split; [apply len_nonneg|]. split; [lia|]. right.
      exists piece, front. split; [done|]. split; [done|]. split; [done|]. lia.
    + cbn. split; [lia|]. split; [lia|by left].
  - destruct (match i with O => _ | S _ => _ end) as [new_text overlap_prev].
    cbn [_copy_chunk_with_overlap metadata overlap_with_next].
    destruct (chunks !! S i) as [next|] eqn:En.
    + apply lookup_lt_Some in En.
      rewrite (proj2 (Z.ltb_lt _ _)) by (unfold len; lia). split; [done|apply Hhalf].
    + apply lookup_ge_None in En.
      by rewrite (proj2 (Z.ltb_ge _ _)) by (unfold len; lia).
Qed.

End Manager.

Lemma X28_managed_overlap_is_at_most_half_of_either_chunk_witness :
  exists c',
    apply_overlap default_config [Samples.chunk150; Samples.chunk150] None !! 1%nat
      = Some c' /\
    length (apply_overlap default_config [Samples.chunk150; Samples.chunk150] None)
      = length [Samples.chunk150; Samples.chunk150] /\
    (id c' = id Samples.chunk150 /\
     source (metadata c') = source (metadata Samples.chunk150) /\
     page (metadata c') = page (metadata Samples.chunk150) /\
     section (metadata c') = section (metadata Samples.chunk150) /\
     chunk_index (metadata c') = chunk_index (metadata Samples.chunk150) /\
     parent_chunk_id (metadata c') = parent_chunk_id (metadata Samples.chunk150) /\
     semantic_tags (metadata c') = semantic_tags (metadata Samples.chunk150)) /\
    (exists prev,
       [Samples.chunk150; Samples.chunk150] !! 0%nat = Some prev /\
       0 <= overlap_with_prev (metadata c') /\
       2 * overlap_with_prev (metadata c')
         <= Z.min (len (text prev)) (len (text Samples.chunk150)) /\
       ((text c' = text Samples.chunk150 /\ overlap_with_prev (metadata c') = 0) \/
        (exists piece front,
           text prev = front ++ piece /\
           text c' = rstrip piece ++ py " " ++ text Samples.chunk150 /\
           overlap_with_prev (metadata c') = len piece /\ 0 < len piece))) /\
    match [Samples.chunk150; Samples.chunk150] !! 2%nat with
    | None => overlap_with_next (metadata c') = 0
    | Some next =>
        overlap_with_next (metadata c')
          = _calculate_overlap_size default_config (text Samples.chunk150) (text next)
              (default (OverlapManager.overlap_percent default_config) None) /\
        2 * overlap_with_next (metadata c')
          <= Z.min (len (text Samples.chunk150)) (len (text next))
    end.
Proof.
  eexists. split; [reflexivity|].
  apply (X28_managed_overlap_is_at_most_half_of_either_chunk default_config
           [Samples.chunk150; Samples.chunk150] None 1 Samples.chunk150);
    reflexivity.
Defined.

Example managed_overlap_sample :
  (fun c => (text c, overlap_with_prev (metadata c), overlap_with_next (metadata c)))
    <$> apply_overlap default_config [Samples.chunk150; Samples.chunk150] None
  = [(py "Results show", 0, 6); (py "show Results show", 4, 0)].
Proof. vm_compute. reflexivity. Qed.

End OverlapManagerFacts.


(** ** The chunker on a text without white space *)

Module HardSplitFacts.

Import PyFacts Chunking ChunkingFacts TaggingFacts.

Lemma lstrip_nospace (s : str) : Forall (fun c => isspace c = false) s -> lstrip s = s.
Proof. destruct 1 as [|c s Hc _]; simpl; [done|]. by rewrite Hc. Qed.

Lemma strip_nospace (s : str) : Forall (fun c => isspace c = false) s -> strip s = s.
Proof.
  intros H. unfold strip, rstrip. rewrite (lstrip_nospace s H).
  rewrite lstrip_nospace; [apply rev_involutive|].
  apply Forall_forall. intros c Hc. rewrite Forall_forall in H. apply H.
  by apply list_elem_of_In, in_rev, list_elem_of_In in Hc.
Qed.

Lemma concat_slices {A} (l : list A) (b k : nat) :
  forall s, concat ((fun j => take b (drop (j * b) l)) <$> seq s k)
            = take (k * b) (drop (s * b) l).
Proof.
  induction k as [|k IH]; intros s; simpl; [done|].
  rewrite IH, take_add_drop, drop_drop. do 3 f_equal. lia.
Qed.

Section HardSplit.

Local Open Scope Z_scope.

Variable config : ChunkConfig.

Lemma separator_has_space (separator : str) :
  separator ∈ separators -> exists c, c ∈ separator /\ isspace c = true.
Proof.
  unfold separators. rewrite !elem_of_cons, elem_of_nil.
  intros [->|[->|[->|[->|[->|[]]]]]].
  - exists "010"%char. split; [apply list_elem_of_here|done].
  - exists "010"%char. split; [apply list_elem_of_here|done].
  - exists " "%char. split; [apply list_elem_of_further, list_elem_of_here|done].
  - exists " "%char. split; [apply list_elem_of_further, list_elem_of_here|done].
  - exists " "%char. split; [apply list_elem_of_here|done].
Qed.

Lemma try_separators_nospace (split_again : str -> str -> exc (list (str * str)))
    (seps : list str) (text section : str) :
  Forall (fun c => isspace c = false) text ->
  (forall separator, separator ∈ seps -> separator ∈ separators) ->
  try_separators config split_again seps text section = _hard_split config text section.
Proof.
  intros Hno. induction seps as [|separator seps IH]; intros Hseps; simpl; [done|].
  assert (Hone : (1 <? length (split text separator))%nat = false).
  { apply Nat.ltb_ge. destruct (decide (1 < length (split text separator))%nat) as [Hlt|]; [|lia].
    exfalso.
    destruct (separator_has_space separator) as [c [Hc Hsp]];
      [apply Hseps, list_elem_of_here|].
    apply split_go_several in Hlt.
    apply contains_spec in Hlt as (a & b & ->).
    rewrite Forall_forall in Hno. rewrite Hno in Hsp; [done|].
    rewrite !elem_of_app. right. by left. }
  rewrite Hone. apply IH. intros s Hs. by apply Hseps, list_elem_of_further.
Qed.

Lemma hard_split_nospace (text section : str) :
  1 <= chunk_size config ->
  Forall (fun c => isspace c = false) text ->
  _hard_split config text section
  = Ok ((fun j => (take (Z.to_nat (chunk_size config))
                     (drop (j * Z.to_nat (chunk_size config)) text), section))
          <$> seq 0 (Z.to_nat ((len text + chunk_size config - 1) / chunk_size config))).
Proof.
  intros Hcs Hno. unfold _hard_split, range0.
  rewrite (proj2 (Z.eqb_neq _ _)) by lia. rewrite (proj2 (Z.ltb_ge _ _)) by lia.
  cbn [bind]. f_equal.
  set (k := Z.to_nat ((len text + chunk_size config - 1) / chunk_size config)).
  assert (Hk : forall j, (j < k)%nat -> (j * Z.to_nat (chunk_size config) < length text)%nat).
  { intros j Hj. unfold k, len in Hj.
    pose proof (Z.mod_pos_bound (Z.of_nat (length text) + chunk_size config - 1)
                  (chunk_size config) ltac:(lia)).
    pose proof (Z.div_mod (Z.of_nat (length text) + chunk_size config - 1)
                  (chunk_size config) ltac:(lia)).
    assert (0 <= (Z.of_nat (length text) + chunk_size config - 1) / chunk_size config)
      by (apply Z.div_pos; lia).
    nia. }
  assert (Hin : forall j, j ∈ seq 0 k -> (j < k)%nat).
  { intros j Hj. apply elem_of_seq in Hj. lia. }
  revert Hin. generalize (seq 0 k). intros js Hjs.
  induction js as [|j js IH]; [done|].
  rewrite map_cons, fmap_cons. cbn [omap list_omap].
  assert (Hslice : slice text (Z.to_nat (Z.of_nat j * chunk_size config))
                     (Z.to_nat (Z.of_nat j * chunk_size config + chunk_size config))
                   = take (Z.to_nat (chunk_size config))
                       (drop (j * Z.to_nat (chunk_size config)) text)).
  { unfold slice. f_equal; [|f_equal]; nia. }
  rewrite Hslice.
  assert (Hno' : Forall (fun c => isspace c = false)
                   (take (Z.to_nat (chunk_size config))
                      (drop (j * Z.to_nat (chunk_size config)) text))).
  { by apply Forall_take, Forall_drop. }
  rewrite (strip_nospace _ Hno').
  assert (Hne : truthy (take (Z.to_nat (chunk_size config))
                          (drop (j * Z.to_nat (chunk_size config)) text)) = true).
  { specialize (Hk j (Hjs j ltac:(apply list_elem_of_here))).
    destruct (take _ _) eqn:E; [|done].
    apply (f_equal length) in E. rewrite length_take, length_drop in E. simpl in E. lia. }
  rewrite Hne. f_equal. apply IH. intros j' Hj'. by apply Hjs, list_elem_of_further.
Qed.

(** X30. A text without white space loses nothing in [_recursive_split]:
    for a chunk size of at least 1 the raw chunks are consecutive pieces of
    the text whose concatenation is the text; every piece has between 1 and
    [chunk_size] characters, and every piece but the last has exactly
    [chunk_size]. *)
Theorem X30_text_without_white_space_is_cut_into_consecutive_pieces
    (text section : str) :
  1 <= chunk_size config ->
  Forall (fun c => isspace c = false) text ->
  exists pieces,
    _recursive_split config text section = Ok ((fun piece => (piece, section)) <$> pieces) /\
    concat pieces = text /\
    Forall (fun piece => 1 <= len piece <= chunk_size config) pieces /\
    (forall i piece, pieces !! i = Some piece -> (S i < length pieces)%nat ->
       len piece = chunk_size config).
Proof.
  intros Hcs Hno. unfold _recursive_split. rewrite recursive_split_fuel_S.
  destruct (len text <=? chunk_size config) eqn:E.
  { apply Z.leb_le in E. rewrite (strip_nospace text Hno).
    destruct (truthy text) eqn:Et.
    - exists [text]. split; [done|].
      split; [simpl; by rewrite app_nil_r|]. split.
      + repeat constructor; [|done]. destruct text; [done|]. unfold len. simpl. lia.
      + intros i piece Hp Hi. simpl in Hi. lia.
    - exists []. destruct text; [|done]. repeat split; try done. }
  apply Z.leb_gt in E.
  rewrite try_separators_nospace by done.
  rewrite (hard_split_nospace text section Hcs Hno).
  set (b := Z.to_nat (chunk_size config)).
  set (k := Z.to_nat ((len text + chunk_size config - 1) / chunk_size config)).
  assert (Hkb : (length text <= k * b)%nat /\ ((k - 1) * b < length text)%nat).
  { unfold k, b, len.
    pose proof (Z.mod_pos_bound (Z.of_nat (length text) + chunk_size config - 1)
                  (chunk_size config) ltac:(lia)).
    pose proof (Z.div_mod (Z.of_nat (length text) + chunk_size config - 1)
                  (chunk_size config) ltac:(lia)).
    assert (0 <= (Z.of_nat (length text) + chunk_size config - 1) / chunk_size config)
      by (apply Z.div_pos; lia).
    unfold len in E. split; nia. }
  exists ((fun j => take b (drop (j * b) text)) <$> seq 0 k).
  split; [by rewrite <- list_fmap_compose|].
  split; [|split].
  - rewrite concat_slices. simpl. rewrite drop_0. apply take_ge. lia.
  - apply Forall_forall. intros piece Hp.
    apply list_elem_of_fmap in Hp as [j [-> Hj]]. apply elem_of_seq in Hj.
    unfold len. rewrite length_take, length_drop. unfold b in *. nia.
  - intros i piece Hp Hi. rewrite length_fmap, length_seq in Hi.
    rewrite list_lookup_fmap in Hp.
    destruct (seq 0 k !! i) as [j|] eqn:Ej; [|done].
    apply lookup_seq in Ej as [-> _]. simpl in Hp. injection Hp as <-.
    unfold len. rewrite length_take, length_drop. unfold b in *. nia.
Qed.

End HardSplit.

Lemma X30_text_without_white_space_is_cut_into_consecutive_pieces_witness :
  exists pieces,
    _recursive_split Samples.small_config (Samples.run "a" 25) (py "body")
      = Ok ((fun piece => (piece, py "body")) <$> pieces) /\
    concat pieces = Samples.run "a" 25 /\
    Forall (fun piece => (1 <= len piece <= chunk_size Samples.small_config)%Z) pieces /\
    (forall i piece, pieces !! i = Some piece -> (S i < length pieces)%nat ->
       len piece = chunk_size Samples.small_config).
Proof.
  apply (X30_text_without_white_space_is_cut_into_consecutive_pieces
           Samples.small_config (Samples.run "a" 25) (py "body")).
  - vm_compute. discriminate.
  - by repeat constructor.
Defined.

End HardSplitFacts.
